(** * silence-cut-api: interval algebra and job queue

    A shallow embedding of
      - [app/services/video_processing_service.ts]
        (detectSilences, mergeSilences, removeSilences, buildKeepSegments,
        copyFile) and
      - the job queue service (addJob, processNext, cancelJob,
        canAcceptNewJob, getJobStatus, clearOldJobs),
    and the properties of them that the specification states.

    Not modelled: the HTTP controller, the file system behind the file
    storage, ffprobe and the parsing of its output, and the text of the
    ffmpeg command lines ([buildFilterComplex] is represented by the
    segments it is given).

    Numbers.  A JavaScript [number] that holds a time stamp or a duration
    in seconds is a finite IEEE-754 double and is given by its exact value,
    a rational ([Q]).  Comparisons of doubles are exact.  The result of an
    arithmetic operation is the double nearest to the exact result, ties to
    even ([round64]), and can be Infinity or NaN ([JsNumber]).  The two
    zeros are not told apart.  Counters (retries, progress, exit codes) are
    integers ([Z]). *)

From Stdlib Require Import QArith Lqa Sorted Permutation DecimalString Ascii.
From stdpp Require Import gmap strings list fin_maps sorting.

Set Default Proof Using "Type".

(** ** Comparisons on rationals *)

(** [x < y] on numbers, as a boolean. *)
Definition Qltb (x y : Q) : bool := negb (Qle_bool y x).

(** ** JavaScript numbers *)

(** A [number]: a finite double, given by its exact value, or one of the
    three values that are not finite. *)
Inductive JsNumber : Type :=
  | Finite (q : Q)
  | PosInfinity
  | NegInfinity
  | NaN.

Coercion Finite : Q >-> JsNumber.
Bind Scope Q_scope with JsNumber.

(** Every finite double is an integer multiple of [2^-1074], and below
    [2^1024] in magnitude: in units of [2^-1074] it is an integer below
    [2^2098]. *)
Definition grid : Z := 2 ^ 1074.
Definition huge : Z := 2 ^ 2098.

(** The doubles around a magnitude of [F] units are [2^s] units apart,
    where [s] is [spacing_exp F]: a double has 53 significant bits, and the
    subnormal ones are one unit apart. *)
Definition spacing_exp (F : Z) : Z := Z.max 0 (Z.log2 F - 52).

(** The integer nearest to [n / d], the even one of the two in a tie. *)
Definition round_half_even (n d : Z) : Z :=
  let q := (n / d)%Z in
  let r := (n mod d)%Z in
  match (2 * r ?= d)%Z with
  | Lt => q
  | Gt => (q + 1)%Z
  | Eq => if Z.even q then q else (q + 1)%Z
  end.

(** The double nearest to [n / d], for [n >= 0] and [d > 0], in units of
    [2^-1074], before the test for overflow. *)
Definition round_magnitude (n d : Z) : Z :=
  let A := (n * grid)%Z in
  let s := spacing_exp (A / d) in
  (round_half_even A (d * 2 ^ s) * 2 ^ s)%Z.

(** IEEE-754 binary64 rounding to nearest, ties to even: the [number] that
    an operation with the exact result [q] returns. *)
Definition round64 (q : Q) : JsNumber :=
  let N := round_magnitude (Z.abs (Qnum q)) (Zpos (Qden q)) in
  if (huge <=? N)%Z then
    if (Qnum q <? 0)%Z then NegInfinity else PosInfinity
  else Finite (Qred (Z.sgn (Qnum q) * N # Z.to_pos grid)).

Arguments round64 : simpl never.

(** The double that a decimal literal denotes. *)
Definition double (q : Q) : Q :=
  match round64 q with
  | Finite r => r
  | _ => 0%Q
  end.

(** [q] is the value of a double: rounding returns it. *)
Definition is_double (q : Q) : Prop := round64 q = Finite (Qred q).

(** [x - y] *)
Definition js_sub (x y : JsNumber) : JsNumber :=
  match x, y with
  | Finite a, Finite b => round64 (a - b)
  | NaN, _ | _, NaN => NaN
  | PosInfinity, PosInfinity | NegInfinity, NegInfinity => NaN
  | PosInfinity, _ | _, NegInfinity => PosInfinity
  | NegInfinity, _ | _, PosInfinity => NegInfinity
  end.

(** [x * y] *)
Definition js_mul (x y : JsNumber) : JsNumber :=
  match x, y with
  | Finite a, Finite b => round64 (a * b)
  | NaN, _ | _, NaN => NaN
  | Finite a, PosInfinity | PosInfinity, Finite a =>
      if Qeq_bool a 0 then NaN
      else if Qltb a 0 then NegInfinity else PosInfinity
  | Finite a, NegInfinity | NegInfinity, Finite a =>
      if Qeq_bool a 0 then NaN
      else if Qltb a 0 then PosInfinity else NegInfinity
  | PosInfinity, PosInfinity | NegInfinity, NegInfinity => PosInfinity
  | PosInfinity, NegInfinity | NegInfinity, PosInfinity => NegInfinity
  end.

(** [x / y]; a divisor that is zero is [+0]. *)
Definition js_div (x y : JsNumber) : JsNumber :=
  match x, y with
  | Finite a, Finite b =>
      if Qeq_bool b 0 then
        if Qeq_bool a 0 then NaN
        else if Qltb a 0 then NegInfinity else PosInfinity
      else round64 (a / b)
  | NaN, _ | _, NaN => NaN
  | Finite _, _ => Finite 0
  | PosInfinity, Finite b => if Qltb b 0 then NegInfinity else PosInfinity
  | NegInfinity, Finite b => if Qltb b 0 then PosInfinity else NegInfinity
  | _, _ => NaN
  end.

(** [x < y] *)
Definition js_lt (x y : JsNumber) : bool :=
  match x, y with
  | NaN, _ | _, NaN => false
  | Finite a, Finite b => Qltb a b
  | _, NegInfinity | PosInfinity, _ => false
  | NegInfinity, _ | _, PosInfinity => true
  end.

(** ** Data model ([types/video]) *)

(** [interface SilenceInterval { start; end; duration }]. *)
Record SilenceInterval : Type := mkSilence {
  si_start : Q;
  si_end : Q;
  si_duration : JsNumber
}.

(** [{ start: number; end: number }], the element type of the keep
    segments. *)
Record Segment : Type := mkSegment {
  seg_start : Q;
  seg_end : Q
}.

(** ** mergeSilences *)

(** The [for] loop of [mergeSilences]: [rest] is [silences[i..]], [current]
    the interval being grown and [merged] the array built so far.
    [current.end = next.end] writes the [end] field only. *)
Fixpoint merge_loop (minGap : Q) (rest : list SilenceInterval)
    (current : SilenceInterval) (merged : list SilenceInterval)
    : list SilenceInterval :=
  match rest with
  | [] => merged ++ [current]
  | next :: rest' =>
      let gap := js_sub (si_start next) (si_end current) in
      if js_lt gap minGap then
        merge_loop minGap rest'
          (mkSilence (si_start current) (si_end next) (si_duration current))
          merged
      else
        merge_loop minGap rest' next (merged ++ [current])
  end.

Definition mergeSilences (silences : list SilenceInterval) (minGap : Q)
    : list SilenceInterval :=
  match silences with
  | [] => silences
  | first :: rest => merge_loop minGap rest first []
  end.

(** ** buildKeepSegments *)

(** The [for ... of] loop of [buildKeepSegments], threading [currentStart]
    and the [segments] array. *)
Fixpoint keep_loop (silences : list SilenceInterval) (currentStart : Q)
    (segments : list Segment) : Q * list Segment :=
  match silences with
  | [] => (currentStart, segments)
  | silence :: rest =>
      let segments' :=
        if Qltb currentStart (si_start silence)
        then segments ++ [mkSegment currentStart (si_start silence)]
        else segments in
      keep_loop rest (si_end silence) segments'
  end.

Definition buildKeepSegments (silences : list SilenceInterval)
    (totalDuration : Q) : list Segment :=
  let '(currentStart, segments) := keep_loop silences 0%Q [] in
  if Qltb currentStart totalDuration
  then segments ++ [mkSegment currentStart totalDuration]
  else segments.

(** ** The cap on the number of silences (inside [processNext]) *)

(** [Array.prototype.sort(compareFn)].  ECMAScript requires the sort to be
    stable, so with a consistent comparator its result is determined; it is
    computed here by stable insertion.  [compareFn(a, b) < 0] puts [a]
    before [b]; a result that is NaN counts as [0]. *)
Fixpoint sort_insert {A : Type} (compareFn : A -> A -> JsNumber) (x : A)
    (sorted : list A) : list A :=
  match sorted with
  | [] => [x]
  | y :: ys =>
      if js_lt (compareFn y x) 0 then y :: sort_insert compareFn x ys
      else x :: y :: ys
  end.

Definition js_sort {A : Type} (compareFn : A -> A -> JsNumber) (l : list A)
    : list A :=
  foldr (sort_insert compareFn) [] l.

(** [(a, b) => (b.end - b.start) - (a.end - a.start)]: three subtractions
    of doubles, each of them rounded. *)
Definition by_duration_desc (a b : SilenceInterval) : JsNumber :=
  js_sub (js_sub (si_end b) (si_start b)) (js_sub (si_end a) (si_start a)).

(** [(a, b) => a.start - b.start].  [sort] looks at nothing but the sign of
    this number, and the difference of two doubles is neither rounded to
    zero nor across it ([js_sub_negative] below); the difference is
    therefore left exact. *)
Definition by_start_asc (a b : SilenceInterval) : JsNumber :=
  Finite (si_start a - si_start b).

(** The block [if (silences.length > 10) { silences = silences.sort(..)
    .slice(0, 10).sort(..) }] of [processNext]. *)
Definition limitSilences (silences : list SilenceInterval)
    : list SilenceInterval :=
  if (10 <? length silences)%nat then
    js_sort by_start_asc (take 10 (js_sort by_duration_desc silences))
  else silences.

(** ** Errors and child processes *)

(** A thrown [Error] object. *)
Record JsError : Type := mkError {
  err_name : string;
  err_message : string
}.

(** [new Error(message)] *)
Definition Error (message : string) : JsError := mkError "Error" message.

(** [String(error)], that is [Error.prototype.toString]. *)
Definition error_toString (e : JsError) : string :=
  if String.eqb (err_name e) "" then err_message e
  else if String.eqb (err_message e) "" then err_name e
  else err_name e +:+ ": " +:+ err_message e.

(** The template [${code}] for an exit code: a decimal number, or [null]
    when the process was ended by a signal. *)
Definition show_code (code : option Z) : string :=
  match code with
  | Some z => NilZero.string_of_int (Z.to_int z)
  | None => "null"
  end.

(** [code !== 0] *)
Definition code_nonzero (code : option Z) : bool :=
  match code with
  | Some z => negb (z =? 0)%Z
  | None => true
  end.

(** [String.prototype.includes] *)
Fixpoint includes (s sub : string) : bool :=
  if String.prefix sub s then true
  else match s with
       | EmptyString => false
       | String _ s' => includes s' sub
       end.

(** ** detectSilences *)

(** What the spawned [ffmpeg ... silencedetect] process does: it cannot be
    started (the ['error'] event), or it closes with an exit code after
    writing [stderrOutput]; [starts] and [ends] are the numbers that the two
    loops over [silence_start: ([\d.]+)] and [silence_end: ([\d.]+)] push
    for that text, in order ([closed_run] below computes them from the
    text).  A text for which [parseFloat] gives NaN or Infinity is outside
    the model. *)
Inductive DetectRun : Type :=
  | DetectSpawnError (e : JsError)
  | DetectClosed (code : option Z) (stderrOutput : string)
      (starts ends : list Q).











(** The pairing loop [for (i = 0; i < Math.min(starts.length, ends.length);
    i++)]. *)
Fixpoint pair_silences (starts ends : list Q) : list SilenceInterval :=
  match starts, ends with
  | s :: starts', e :: ends' =>
      mkSilence s e (js_sub e s) :: pair_silences starts' ends'
  | _, _ => []
  end.

(** The promise returned by [detectSilences]: rejected with an error
    ([inl]) or resolved with the intervals ([inr]). *)
Definition detectSilences (run : DetectRun) : JsError + list SilenceInterval :=
  match run with
  | DetectSpawnError e => inl e
  | DetectClosed code _ starts ends =>
      if code_nonzero code then
        inl (Error ("FFmpeg silence detection failed with code " +:+ show_code code))
      else inr (pair_silences starts ends)
  end.

(** ** removeSilences *)

Record VideoMetadata : Type := mkMetadata {
  vm_duration : Q;
  vm_codec : string;
  vm_width : Z;
  vm_height : Z;
  vm_bitrate : Z;
  vm_size : Z
}.

Record ProcessingResult : Type := mkResult {
  res_outputPath : string;
  res_originalDuration : Q;
  res_finalDuration : Q;
  res_timeSaved : JsNumber;
  res_percentageSaved : JsNumber;
  res_silencesRemoved : nat
}.

(** How a spawned process ends. *)
Inductive ProcessExit : Type :=
  | SpawnError (e : JsError)
  | Closed (code : option Z) (stderr : string).

(** The media engine as [removeSilences] sees it.  [getVideoMetadata] is
    the settled value of the method of that name (ffprobe and the parsing of
    its JSON are not modelled); [ffmpeg_copy source destination] is the end
    of [spawn('ffmpeg', ['-i', source, '-c', 'copy', '-y', destination])];
    [ffmpeg_cut input segments output] the end of the re-encoding run whose
    filter graph [buildFilterComplex] writes from [segments]. *)
Record Engine : Type := mkEngine {
  getVideoMetadata : string -> JsError + VideoMetadata;
  ffmpeg_copy : string -> string -> ProcessExit;
  ffmpeg_cut : string -> list Segment -> string -> ProcessExit
}.

(** The calls made to the engine, in order. *)
Inductive Action : Type :=
  | Probe (path : string)
  | Copy (source destination : string)
  | Cut (input : string) (segments : list Segment) (output : string).

(** An asynchronous computation: the engine calls it made and how its
    promise settled. *)
Definition Async (A : Type) : Type := (list Action * (JsError + A))%type.

Definition resolve {A : Type} (x : A) : Async A := ([], inr x).
Definition perform {A : Type} (a : Action) (r : JsError + A) : Async A :=
  ([a], r).

(** [await]: a rejection skips the rest. *)
Definition await {A B : Type} (m : Async A) (k : A -> Async B) : Async B :=
  match m with
  | (acts, inl e) => (acts, inl e)
  | (acts, inr x) => let '(acts', r) := k x in (acts ++ acts', r)
  end.

Notation "'let*' x ':=' m 'in' k" := (await m (fun x => k))
  (at level 10, x name, m at level 100, k at level 200).

Definition probe (eng : Engine) (path : string) : Async VideoMetadata :=
  perform (Probe path) (getVideoMetadata eng path).

(** [copyFile] *)
Definition copyFile (eng : Engine) (source destination : string)
    : Async unit :=
  perform (Copy source destination)
    match ffmpeg_copy eng source destination with
    | SpawnError e => inl e
    | Closed code _ =>
        if code_nonzero code
        then inl (Error ("Failed to copy file with code " +:+ show_code code))
        else inr tt
    end.

(** The promise that wraps the re-encoding run, up to its ['close']
    handler's own call of [getVideoMetadata]. *)
Definition cut (eng : Engine) (inputPath : string) (segments : list Segment)
    (outputPath : string) : Async unit :=
  perform (Cut inputPath segments outputPath)
    match ffmpeg_cut eng inputPath segments outputPath with
    | SpawnError e => inl e
    | Closed code stderrOutput =>
        if code_nonzero code
        then inl (Error ("FFmpeg processing failed: " +:+ stderrOutput))
        else inr tt
    end.

Definition removeSilences (eng : Engine) (inputPath outputPath : string)
    (silences : list SilenceInterval) : Async ProcessingResult :=
  let* metadata := probe eng inputPath in
  if (length silences =? 0)%nat then
    let* _ := copyFile eng inputPath outputPath in
    resolve (mkResult outputPath (vm_duration metadata) (vm_duration metadata)
               0 0 0)
  else
    let segments := buildKeepSegments silences (vm_duration metadata) in
    if (length segments =? 0)%nat then
      let* _ := copyFile eng inputPath outputPath in
      resolve (mkResult outputPath (vm_duration metadata)
                 (vm_duration metadata) 0 0 (length silences))
    else
      let* _ := cut eng inputPath segments outputPath in
      let* finalMetadata := probe eng outputPath in
      let timeSaved :=
        js_sub (vm_duration metadata) (vm_duration finalMetadata) in
      let percentageSaved :=
        js_mul (js_div timeSaved (vm_duration metadata)) 100 in
      resolve (mkResult outputPath (vm_duration metadata)
                 (vm_duration finalMetadata) timeSaved percentageSaved
                 (length silences)).

(** ** The job queue service *)

(** [JobStatus['status']] *)
Inductive Status : Type := Queued | Processing | Completed | Failed.

(** [interface Job].  Dates are milliseconds since the epoch. *)
Record Job : Type := mkJob {
  job_id : string;
  job_videoId : string;
  job_inputPath : string;
  job_outputPath : string;
  job_status : Status;
  job_progress : Z;
  job_error : option string;
  job_result : option ProcessingResult;
  job_createdAt : Z;
  job_updatedAt : Z;
  job_retries : Z
}.

Definition set_status (st : Status) (j : Job) : Job :=
  mkJob (job_id j) (job_videoId j) (job_inputPath j) (job_outputPath j) st
    (job_progress j) (job_error j) (job_result j) (job_createdAt j)
    (job_updatedAt j) (job_retries j).

Definition set_progress (p : Z) (j : Job) : Job :=
  mkJob (job_id j) (job_videoId j) (job_inputPath j) (job_outputPath j)
    (job_status j) p (job_error j) (job_result j) (job_createdAt j)
    (job_updatedAt j) (job_retries j).

Definition set_error (e : string) (j : Job) : Job :=
  mkJob (job_id j) (job_videoId j) (job_inputPath j) (job_outputPath j)
    (job_status j) (job_progress j) (Some e) (job_result j) (job_createdAt j)
    (job_updatedAt j) (job_retries j).

Definition set_result (r : ProcessingResult) (j : Job) : Job :=
  mkJob (job_id j) (job_videoId j) (job_inputPath j) (job_outputPath j)
    (job_status j) (job_progress j) (job_error j) (Some r) (job_createdAt j)
    (job_updatedAt j) (job_retries j).

Definition set_updatedAt (now : Z) (j : Job) : Job :=
  mkJob (job_id j) (job_videoId j) (job_inputPath j) (job_outputPath j)
    (job_status j) (job_progress j) (job_error j) (job_result j)
    (job_createdAt j) now (job_retries j).

Definition set_retries (n : Z) (j : Job) : Job :=
  mkJob (job_id j) (job_videoId j) (job_inputPath j) (job_outputPath j)
    (job_status j) (job_progress j) (job_error j) (job_result j)
    (job_createdAt j) (job_updatedAt j) n.

(** Where a call of [processNext] is suspended: at
    [await detectSilences(..)] or at [await removeSilences(.., silences)]. *)
Inductive Phase : Type :=
  | Detecting
  | Removing (silences : list SilenceInterval).

(** A suspended call of [processNext]: its locals [videoId] and [job].
    [job] is a reference to a Job object, not a copy: the call keeps
    writing to that object even after the map has dropped or replaced it. *)
Record Pipeline : Type := mkPipeline {
  p_videoId : string;
  p_job : nat;
  p_phase : Phase
}.

(** The fields of [JobQueueService].  [heap] holds every Job object that
    was created, a reference being an index into it; [jobs] is the
    [Map<string, Job>], [queue] the pending array, [processing] the active
    [Set].  [inflight] are the calls of [processNext] that are suspended at
    an [await], and [timers] counts the pending
    [setTimeout(() => this.processNext(), 100)]. *)
Record JobQueueService : Type := mkService {
  heap : list Job;
  jobs : gmap string nat;
  queue : list string;
  processing : gset string;
  maxConcurrentJobs : Z;
  inflight : list Pipeline;
  timers : nat
}.

(** The service as its constructor leaves it, [maxConcurrent] being what
    [env.get('MAX_CONCURRENT_JOBS', 2)] returned. *)
Definition new_service (maxConcurrent : Z) : JobQueueService :=
  mkService [] ∅ [] ∅ maxConcurrent [] 0.

(** [env.get('MAX_CONCURRENT_JOBS', 2)]: the variable, or 2 when it is not
    set. *)
Definition env_max_concurrent_jobs (MAX_CONCURRENT_JOBS : option Z) : Z :=
  default 2%Z MAX_CONCURRENT_JOBS.

Definition canAcceptNewJob (s : JobQueueService) : bool :=
  (Z.of_nat (size (processing s)) <? maxConcurrentJobs s)%Z.

(** [processNext], from its entry to [await detectSilences(job.inputPath)].
    Nothing else runs in between. *)
Definition processNext (now : Z) (s : JobQueueService) : JobQueueService :=
  if negb (canAcceptNewJob s) || (length (queue s) =? 0)%nat then s
  else
    match queue s with
    | [] => s
    | videoId :: rest =>
        (* [this.queue.shift()] *)
        let s1 := mkService (heap s) (jobs s) rest (processing s)
                    (maxConcurrentJobs s) (inflight s) (timers s) in
        (* [if (!videoId) return]: the empty string is falsy *)
        if String.eqb videoId "" then s1
        else
          match jobs s1 !! videoId with
          | None => s1
          | Some job =>
              let started j :=
                set_progress 10
                  (set_updatedAt now
                     (set_progress 0 (set_status Processing j))) in
              mkService (alter started job (heap s1)) (jobs s1) rest
                ({[videoId]} ∪ processing s1) (maxConcurrentJobs s1)
                (inflight s1 ++ [mkPipeline videoId job Detecting])
                (timers s1)
          end
    end.

(** [addJob]; [outputPath] is what
    [this.fileStorage.getFilePath(videoId, 'processed')] returned. *)
Definition addJob (videoId inputPath outputPath : string) (now : Z)
    (s : JobQueueService) : JobQueueService :=
  let job := mkJob videoId videoId inputPath outputPath Queued 0 None None
               now now 0 in
  let ref := length (heap s) in
  processNext now
    (mkService (heap s ++ [job]) (<[videoId := ref]> (jobs s))
       (queue s ++ [videoId]) (processing s) (maxConcurrentJobs s)
       (inflight s) (timers s)).

(** [error.message || String(error)] *)
Definition errorMessage_of (error : JsError) : string :=
  if String.eqb (err_message error) "" then error_toString error
  else err_message error.

Definition isProcessingError (errorMessage : string) : bool :=
  includes errorMessage "FFmpeg" ||
  includes errorMessage "memory" ||
  includes errorMessage "timeout" ||
  includes errorMessage "failed" ||
  includes errorMessage "ENOMEM" ||
  includes errorMessage "killed".

Definition msg_memory : string :=
  "Vidéo trop volumineuse pour être traitée. Essayez avec une vidéo plus courte ou de résolution inférieure.".
Definition msg_timeout : string :=
  "Le traitement a pris trop de temps. Essayez avec une vidéo plus courte.".
Definition msg_generic : string :=
  "Erreur lors du traitement de la vidéo. Vérifiez que le fichier est valide.".
Definition msg_max_retries : string :=
  "Le traitement a échoué après plusieurs tentatives.".

(** What the [catch] block writes to the Job object; the boolean tells
    whether it also ran [this.queue.push(videoId)]. *)
Definition on_failure (now : Z) (error : JsError) (j : Job) : Job * bool :=
  let errorMessage := errorMessage_of error in
  if isProcessingError errorMessage then
    let j1 := set_status Failed j in
    let j2 :=
      if includes errorMessage "memory" || includes errorMessage "ENOMEM"
      then set_error msg_memory j1
      else if includes errorMessage "timeout" || includes errorMessage "killed"
      then set_error msg_timeout j1
      else set_error msg_generic j1 in
    (set_updatedAt now j2, false)
  else if (job_retries j <? 1)%Z then
    (set_updatedAt now
       (set_progress 0
          (set_status Queued (set_retries (job_retries j + 1) j))), true)
  else
    (set_updatedAt now (set_error msg_max_retries (set_status Failed j)),
     false).

(** The [finally] block: [this.processing.delete(videoId)] and a new
    timer.  The suspended call [k] is over. *)
Definition finally (k : nat) (videoId : string) (s : JobQueueService)
    : JobQueueService :=
  mkService (heap s) (jobs s) (queue s) (processing s ∖ {[videoId]})
    (maxConcurrentJobs s) (delete k (inflight s)) (S (timers s)).

(** [catch] then [finally], for the suspended call [k]. *)
Definition settle_rejected (now : Z) (k : nat) (p : Pipeline)
    (error : JsError) (s : JobQueueService) : option JobQueueService :=
  j ← heap s !! p_job p;
  let '(j', requeue) := on_failure now error j in
  Some (finally k (p_videoId p)
          (mkService (<[p_job p := j']> (heap s)) (jobs s)
             (if requeue then queue s ++ [p_videoId p] else queue s)
             (processing s) (maxConcurrentJobs s) (inflight s) (timers s))).

(** The promise of [detectSilences] settles for the suspended call [k]:
    on success the call merges, caps, sets the progress to 50 and suspends
    again at [await removeSilences(..)]. *)
Definition detect_settles (k : nat) (run : DetectRun) (now : Z)
    (s : JobQueueService) : option JobQueueService :=
  p ← inflight s !! k;
  match p_phase p with
  | Removing _ => None
  | Detecting =>
      match detectSilences run with
      | inl error => settle_rejected now k p error s
      | inr silences =>
          let silences := mergeSilences silences 2 in
          let silences := limitSilences silences in
          Some (mkService (alter (set_progress 50) (p_job p) (heap s))
                  (jobs s) (queue s) (processing s) (maxConcurrentJobs s)
                  (<[k := mkPipeline (p_videoId p) (p_job p)
                            (Removing silences)]> (inflight s))
                  (timers s))
      end
  end.

(** The promise of [removeSilences] settles for the suspended call [k];
    [eng] is how the engine answers the calls made on the way.  The call
    was [removeSilences(job.inputPath, job.outputPath, silences)]; the two
    paths are read from the Job object here, nothing writes them after
    [addJob]. *)
Definition remove_settles (k : nat) (eng : Engine) (now : Z)
    (s : JobQueueService) : option JobQueueService :=
  p ← inflight s !! k;
  match p_phase p with
  | Detecting => None
  | Removing silences =>
      j ← heap s !! p_job p;
      match snd (removeSilences eng (job_inputPath j) (job_outputPath j)
                   silences) with
      | inl error => settle_rejected now k p error s
      | inr result =>
          let done j :=
            set_updatedAt now
              (set_result result
                 (set_status Completed (set_progress 100 j))) in
          Some (finally k (p_videoId p)
                  (mkService (alter done (p_job p) (heap s)) (jobs s)
                     (queue s) (processing s) (maxConcurrentJobs s)
                     (inflight s) (timers s)))
      end
  end.

(** [this.queue.indexOf(videoId)] followed by [splice(queueIndex, 1)]:
    the first occurrence goes. *)
Fixpoint remove_first (videoId : string) (q : list string) : list string :=
  match q with
  | [] => []
  | x :: q' => if String.eqb x videoId then q' else x :: remove_first videoId q'
  end.

Definition cancelJob (videoId : string) (s : JobQueueService)
    : JobQueueService :=
  match jobs s !! videoId with
  | None => s
  | Some job =>
      let cancelled j :=
        match job_status j with
        | Processing => set_error "Job cancelled by user" (set_status Failed j)
        | _ => j
        end in
      mkService (alter cancelled job (heap s)) (delete videoId (jobs s))
        (remove_first videoId (queue s)) (processing s)
        (maxConcurrentJobs s) (inflight s) (timers s)
  end.

(** [getJobStatus], without the status message. *)
Definition getJob (videoId : string) (s : JobQueueService) : option Job :=
  ref ← jobs s !! videoId; heap s !! ref.

(** The test of [clearOldJobs] on one entry of the map. *)
Definition is_old (s : JobQueueService) (maxAgeMinutes : Q) (now : Z)
    (ref : nat) : bool :=
  match heap s !! ref with
  | Some j =>
      match job_status j with
      | Completed | Failed =>
          let ageMinutes :=
            (inject_Z (now - job_updatedAt j) / 1000 / 60)%Q in
          Qltb maxAgeMinutes ageMinutes
      | _ => false
      end
  | None => false
  end.

(** [clearOldJobs]: the service afterwards, and the count it returns. *)
Definition clearOldJobs (maxAgeMinutes : Q) (now : Z) (s : JobQueueService)
    : JobQueueService * nat :=
  let kept :=
    filter (λ entry, is_old s maxAgeMinutes now entry.2 = false) (jobs s) in
  (mkService (heap s) kept (queue s) (processing s) (maxConcurrentJobs s)
     (inflight s) (timers s),
   size (jobs s) - size kept).

(** What can happen to the service: a call from outside, a timer that
    fires, or a promise that settles. *)
Inductive Event : Type :=
  | EvAddJob (videoId inputPath outputPath : string) (now : Z)
  | EvTimer (now : Z)
  | EvDetect (k : nat) (run : DetectRun) (now : Z)
  | EvRemove (k : nat) (eng : Engine) (now : Z)
  | EvCancelJob (videoId : string)
  | EvClearOldJobs (maxAgeMinutes : Q) (now : Z).

(** One step; [None] when the event cannot happen in [s]. *)
Definition step (ev : Event) (s : JobQueueService) : option JobQueueService :=
  match ev with
  | EvAddJob videoId inputPath outputPath now =>
      Some (addJob videoId inputPath outputPath now s)
  | EvTimer now =>
      match timers s with
      | O => None
      | S n =>
          Some (processNext now
                  (mkService (heap s) (jobs s) (queue s) (processing s)
                     (maxConcurrentJobs s) (inflight s) n))
      end
  | EvDetect k run now => detect_settles k run now s
  | EvRemove k eng now => remove_settles k eng now s
  | EvCancelJob videoId => Some (cancelJob videoId s)
  | EvClearOldJobs maxAgeMinutes now =>
      Some (fst (clearOldJobs maxAgeMinutes now s))
  end.

Fixpoint run (evs : list Event) (s : JobQueueService)
    : option JobQueueService :=
  match evs with
  | [] => Some s
  | ev :: evs' => s' ← step ev s; run evs' s'
  end.

(** ** Vocabulary of the specification *)

(** Lists of intervals, for any record with a start and an end. *)
Section Intervals.
Context {A : Type} (lo hi : A -> Q).

(** [end > start] *)
Definition well_formed (a : A) : Prop := (lo a < hi a)%Q.

(** The half-open ranges [[lo a, hi a)] and [[lo b, hi b)] share no
    point. *)
Definition no_overlap (a b : A) : Prop :=
  (hi a <= lo b)%Q \/ (hi b <= lo a)%Q.

Definition ordered_by_start (l : list A) : Prop :=
  StronglySorted (fun a b => (lo a <= lo b)%Q) l.

Definition non_overlapping (l : list A) : Prop :=
  ForallOrdPairs no_overlap l.

(** An ordered sequence of intervals: ordered by start ascending and
    pairwise non-overlapping. *)
Definition interval_list (l : list A) : Prop :=
  Forall well_formed l /\ ordered_by_start l /\ non_overlapping l.

(** The same, said at once: every interval ends before the later ones
    start. *)
Definition chain (l : list A) : Prop :=
  Forall well_formed l /\ StronglySorted (fun a b => (hi a <= lo b)%Q) l.

(** The instant [t] lies in one of the intervals. *)
Definition covers (l : list A) (t : Q) : Prop :=
  Exists (fun a => (lo a <= t)%Q /\ (t < hi a)%Q) l.

(** All intervals lie within [[from, to)]. *)
Definition within (from to : Q) (l : list A) : Prop :=
  Forall (fun a => (from <= lo a)%Q /\ (hi a <= to)%Q) l.

(** The sum of the lengths. *)
Definition covered_duration (l : list A) : Q :=
  foldr (fun a acc => ((hi a - lo a) + acc)%Q) 0%Q l.
End Intervals.

Definition silence_list : list SilenceInterval -> Prop :=
  interval_list si_start si_end.

Definition segment_list : list Segment -> Prop :=
  interval_list seg_start seg_end.

(** A relation that holds between every two neighbours of a list. *)
Fixpoint adjacent {A : Type} (R : A -> A -> Prop) (l : list A) : Prop :=
  match l with
  | a :: l' =>
      match l' with
      | b :: _ => R a b /\ adjacent R l'
      | [] => True
      end
  | [] => True
  end.

(** [next.start - current.end], the number that [mergeSilences] computes
    and compares with [minGap]. *)
Definition gap (current next : SilenceInterval) : JsNumber :=
  js_sub (si_start next) (si_end current).

(** A run of consecutive intervals: its first interval and the others. *)
Definition Run : Type := (SilenceInterval * list SilenceInterval)%type.

Definition run_items (r : Run) : list SilenceInterval := r.1 :: r.2.
Definition run_last (r : Run) : SilenceInterval := List.last r.2 r.1.

(** The specification's reading of the merge: cut the list wherever the gap
    to the next interval is not below [minGap] ... *)
Fixpoint runs (minGap : Q) (l : list SilenceInterval) : list Run :=
  match l with
  | [] => []
  | a :: l' =>
      match l' with
      | [] => [(a, [])]
      | b :: _ =>
          if js_lt (gap a b) minGap then
            match runs minGap l' with
            | (h, t) :: rs => (a, h :: t) :: rs
            | [] => [(a, [])]
            end
          else (a, []) :: runs minGap l'
      end
  end.

(** ... and replace each run by one interval from the start of its first
    to the end of its last interval.  The [duration] field is the first
    interval's. *)
Definition coalesce (r : Run) : SilenceInterval :=
  mkSilence (si_start r.1) (si_end (run_last r)) (si_duration r.1).

(** [end - start] of a silence, the number that the comparator of the
    cap computes and that [detectSilences] stores as [duration]. *)
Definition extent (a : SilenceInterval) : JsNumber :=
  js_sub (si_end a) (si_start a).

(** Overwrite the [duration] fields. *)
Definition with_duration (f : SilenceInterval -> JsNumber)
    (a : SilenceInterval) : SilenceInterval :=
  mkSilence (si_start a) (si_end a) (f a).

(** A relation [R] agrees with a comparator on the pair [x], [y], where
    [x] comes first in the array to sort: [y] is moved before [x] only if
    [R y x], and is left behind [x] only if [R x y]. *)
Definition agrees {A : Type} (compareFn : A -> A -> JsNumber)
    (R : A -> A -> Prop) (x y : A) : Prop :=
  (js_lt (compareFn y x) 0 = true -> R y x)
  /\ (js_lt (compareFn y x) 0 = false -> R x y).

(** [x] is not shorter than [y], by [end - start]. *)
Definition not_shorter (x y : SilenceInterval) : Prop :=
  js_lt (extent x) (extent y) = false.

(** The order of the first sort of the cap: longer first, and among
    equally long intervals the one that starts earlier. *)
Definition longer_first (x y : SilenceInterval) : Prop :=
  js_lt (extent y) (extent x) = true
  \/ (not_shorter x y /\ not_shorter y x /\ (si_start x <= si_start y)%Q).

(** The order of its second sort. *)
Definition starts_before (x y : SilenceInterval) : Prop :=
  (si_start x <= si_start y)%Q.

(** Not in the source: the comparator that the cap would use if it ranked
    by the [duration] field, [(a, b) => b.duration - a.duration]. *)
Definition by_duration_field_desc (a b : SilenceInterval) : JsNumber :=
  js_sub (si_duration b) (si_duration a).

(** The multiples of [2^-1074]. *)
Definition on_grid (q : Q) : Prop := exists k : Z, (q == k # Z.to_pos grid)%Q.

(** The results of the subtraction of two doubles: not NaN, and a multiple
    of [2^-1074] when finite. *)
Definition js_on_grid (x : JsNumber) : Prop :=
  match x with
  | Finite q => on_grid q
  | NaN => False
  | _ => True
  end.

(** The non-negative doubles, in units of [2^-1074]. *)
Definition representable (N : Z) : Prop :=
  (0 <= N < huge)%Z /\ (2 ^ spacing_exp N | N)%Z.

(** An interval as [detectSilences] writes it: [start] is not negative,
    since the markers that the regular expressions capture have no sign,
    [end] is a double, and [duration] is the computed [end - start]. *)
Definition as_detected (a : SilenceInterval) : Prop :=
  (0 <= si_start a)%Q /\ is_double (si_end a) /\ si_duration a = extent a.

(** ** More of the job queue service *)

(** [interface JobStatus] *)
Record JobStatus : Type := mkJobStatus {
  js_videoId : string;
  js_status : Status;
  js_progress : Z;
  js_message : string;
  js_error : option string;
  js_result : option ProcessingResult;
  js_createdAt : Z;
  js_updatedAt : Z
}.

Definition getStatusMessage (job : Job) : string :=
  match job_status job with
  | Queued => "Vidéo en file d'attente..."
  | Processing =>
      if (job_progress job <? 50)%Z
      then "Détection des silences en cours..."
      else "Suppression des silences en cours..."
  | Completed => "Traitement terminé avec succès !"
  | Failed => "Le traitement a échoué"
  end.

(** [getJobStatus]; [None] is [null]. *)
Definition getJobStatus (videoId : string) (s : JobQueueService)
    : option JobStatus :=
  job ← getJob videoId s;
  Some (mkJobStatus (job_videoId job) (job_status job) (job_progress job)
          (getStatusMessage job) (job_error job) (job_result job)
          (job_createdAt job) (job_updatedAt job)).

(** [checkCPULoad].  [loadavg] is [None] when reading [/proc/loadavg]
    throws, and otherwise the first number of that file with
    [cpus().length].  A division by zero, which gives Infinity or NaN in
    JavaScript, is outside the model. *)
Definition checkCPULoad (loadavg : option (Q * nat)) (s : JobQueueService)
    : Q :=
  match loadavg with
  | Some (load1min, numCPUs) =>
      (load1min / inject_Z (Z.of_nat numCPUs) * 100)%Q
  | None =>
      (inject_Z (Z.of_nat (size (processing s)))
       / inject_Z (maxConcurrentJobs s) * 100)%Q
  end.

(** ** validateVideo *)

Record ValidationResult : Type := mkValidation {
  vr_valid : bool;
  vr_errors : list string
}.

(** [validateVideo]: [metadata] is how [getVideoMetadata(filePath)]
    settled, [maxDuration] what [env.get('VIDEO_MAX_DURATION', 600)]
    returned and [show_number] the text that a template literal gives for a
    number. *)
Definition validateVideo (show_number : Q -> string) (maxDuration : Q)
    (metadata : JsError + VideoMetadata) : ValidationResult :=
  match metadata with
  | inr metadata =>
      let errors : list string := [] in
      let errors :=
        if negb (String.eqb (vm_codec metadata) "h264")
        then errors ++ ["Invalid codec: " +:+ vm_codec metadata
                        +:+ ". Expected H.264"]
        else errors in
      let errors :=
        if Qltb maxDuration (vm_duration metadata)
        then errors ++ ["Video duration ("
                        +:+ show_number (vm_duration metadata)
                        +:+ "s) exceeds maximum ("
                        +:+ show_number maxDuration +:+ "s)"]
        else errors in
      mkValidation (length errors =? 0)%nat errors
  | inl error =>
      mkValidation false ["Failed to validate video: " +:+ err_message error]
  end.

(** ** getFilePath ([file_storage_service.ts]) *)

Inductive FileType : Type := original | processed.

(** The loop [for (const ext of acceptedExtensions)] of [getFilePath]:
    the first candidate that exists.  [join] is [path.join] and
    [existsSync] the file system at the time of the call. *)
Fixpoint first_existing (join : string -> string -> string)
    (existsSync : string -> bool) (storagePath baseFilename : string)
    (acceptedExtensions : list string) : option string :=
  match acceptedExtensions with
  | [] => None
  | ext :: exts =>
      let filePath := join storagePath (baseFilename +:+ "." +:+ ext) in
      if existsSync filePath then Some filePath
      else first_existing join existsSync storagePath baseFilename exts
  end.

Definition getFilePath (join : string -> string -> string)
    (existsSync : string -> bool) (storagePath uuid : string)
    (type : FileType) : string :=
  let suffix := match type with processed => "_cut" | original => "" end in
  let baseFilename := uuid +:+ suffix in
  match first_existing join existsSync storagePath baseFilename
          ["mp4"; "mov"] with
  | Some filePath => filePath
  | None => join storagePath (baseFilename +:+ ".mp4")
  end.

(** ** Vocabulary of the further properties *)

(** The texts that the service itself writes to [job.error]. *)
Definition service_messages : list string :=
  [msg_memory; msg_timeout; msg_generic; msg_max_retries;
   "Job cancelled by user"].

(** What holds of every Job object the service has created. *)
Definition job_ok (j : Job) : Prop :=
  (0 <= job_retries j <= 1)%Z
  /\ (job_status j = Completed -> is_Some (job_result j))
  /\ (job_status j = Failed -> is_Some (job_error j))
  /\ (forall e, job_error j = Some e -> e ∈ service_messages)
  /\ job_id j = job_videoId j.

(** The silences with which a suspended call will run, or runs,
    [removeSilences]. *)
Definition phase_silences (ph : Phase) : list SilenceInterval :=
  match ph with
  | Detecting => []
  | Removing silences => silences
  end.

(** Two well-formed intervals one of which ends before the other starts. *)
Definition apart (a b : SilenceInterval) : Prop :=
  well_formed si_start si_end a /\ well_formed si_start si_end b
  /\ no_overlap si_start si_end a b.

(** The character [c] occurs in [s]. *)
Fixpoint string_has (c : Ascii.ascii) (s : string) : bool :=
  match s with
  | EmptyString => false
  | String x s' => Ascii.eqb x c || string_has c s'
  end.

(** The characters that the text of an exit code can have. *)
Definition code_chars : string := "-0123456789nul".

(** What every run of the service maintains, [C] being the ceiling it was
    constructed with: the ceiling does not change, the active set is within
    it, every Job object is in order, and no suspended call holds more than
    10 silences. *)
Definition service_ok (C : Z) (s : JobQueueService) : Prop :=
  maxConcurrentJobs s = C
  /\ (Z.of_nat (size (processing s)) <= Z.max 0 C)%Z
  /\ Forall job_ok (heap s)
  /\ Forall (fun p => (length (phase_silences (p_phase p)) <= 10)%nat)
       (inflight s).

(** Every record of the map refers to a Job object, and that object
    carries the ID under which it is recorded. *)
Definition records_ok (s : JobQueueService) : Prop :=
  forall videoId ref,
    jobs s !! videoId = Some ref ->
    exists j, heap s !! ref = Some j /\ job_videoId j = videoId.

(** The event is not a submission of [videoId]. *)
Definition not_addJob_of (videoId : string) (ev : Event) : Prop :=
  match ev with
  | EvAddJob v _ _ _ => v <> videoId
  | _ => True
  end.

(** ** Sample inputs *)

Definition example_silences : list SilenceInterval :=
  [mkSilence 2 3 1; mkSilence (7#2) 4 (1#2); mkSilence 7 9 2].

(** Twelve silences, ordered by start; the two shortest are [(40,41)] and
    [(110,111)]. *)
Definition example_twelve : list SilenceInterval :=
  [mkSilence 0 5 5; mkSilence 10 14 4; mkSilence 20 23 3; mkSilence 30 35 5;
   mkSilence 40 41 1; mkSilence 50 52 2; mkSilence 60 66 6;
   mkSilence 70 73 3; mkSilence 80 82 2; mkSilence 90 94 4;
   mkSilence 100 107 7; mkSilence 110 111 1].

(** Two silences one second apart, then ten silences of two seconds each;
    every [duration] field is [end - start], as [detectSilences] writes
    it. *)
Definition example_close_pair : list SilenceInterval :=
  [mkSilence 0 1 1; mkSilence 2 10 8; mkSilence 20 22 2; mkSilence 30 32 2;
   mkSilence 40 42 2; mkSilence 50 52 2; mkSilence 60 62 2;
   mkSilence 70 72 2; mkSilence 80 82 2; mkSilence 90 92 2;
   mkSilence 100 102 2; mkSilence 110 112 2].

(** What [detectSilences] writes for the markers [0.1 .. 0.6],
    [1.1 .. 1.6] and [5.2 .. 7.3]: the nearest doubles, and as [duration]
    the rounded difference. *)
Definition example_detected : list SilenceInterval :=
  pair_silences (map double [0.1; 1.1; 5.2]%Q) (map double [0.6; 1.6; 7.3]%Q).



(** Two intervals whose exact gap is below 2 and whose computed gap is 2:
    the markers [0 .. 0.001] and [2.001 .. 3.5]. *)
Definition example_near_threshold : list SilenceInterval :=
  pair_silences (map double [0; 2.001]%Q) (map double [0.001; 3.5]%Q).

(** Eleven silences of which the first two have the computed length 0.5,
    the second one being the longer of the two before rounding, and the
    others the length 1. *)
Definition example_eleven : list SilenceInterval :=
  pair_silences
    (map double [0.1; 3.1; 10; 20; 30; 40; 50; 60; 70; 80; 90]%Q)
    (map double [0.6; 3.6; 11; 21; 31; 41; 51; 61; 71; 81; 91]%Q).

(** A ten-second video that is silent throughout, and an engine that
    probes it and copies without error. *)
Definition example_metadata : VideoMetadata :=
  mkMetadata 10 "h264" 1280 720 800000 1000000.

Definition example_engine : Engine :=
  mkEngine (fun _ => inr example_metadata) (fun _ _ => Closed (Some 0%Z) "")
    (fun _ _ _ => Closed (Some 0%Z) "").

(** An engine whose copy ends with exit code 1. *)
Definition example_engine_copy_fails : Engine :=
  mkEngine (fun _ => inr example_metadata) (fun _ _ => Closed (Some 1%Z) "")
    (fun _ _ _ => Closed (Some 0%Z) "").

(** The engine could not be started. *)
Definition example_spawn_error : JsError :=
  mkError "Error" "spawn ffmpeg ENOENT".

(** A service with two slots in which the job [a] is submitted, its
    detection cannot start, a timer fires and the second detection cannot
    start either. *)
Definition retry_scenario : list Event :=
  [EvAddJob "a" "/tmp/videos/a.mp4" "/tmp/videos/a_cut.mp4" 0;
   EvDetect 0 (DetectSpawnError example_spawn_error) 1;
   EvTimer 2;
   EvDetect 0 (DetectSpawnError example_spawn_error) 3].

(** The job [a] is submitted and its detection ends with exit code 1; the
    text on stderr has none of the markers. *)
Definition detect_exit_scenario : list Event :=
  [EvAddJob "a" "/tmp/videos/a.mp4" "/tmp/videos/a_cut.mp4" 0;
   EvDetect 0
     (DetectClosed (Some 1%Z) "a.mp4: Invalid data found when processing input"
        [] []) 1].

(** The service after the first event of [retry_scenario], and the call of
    [processNext] that is suspended in it. *)
Definition example_running : JobQueueService :=
  addJob "a" "/tmp/videos/a.mp4" "/tmp/videos/a_cut.mp4" 0 (new_service 2).

Definition example_pipeline : Pipeline := mkPipeline "a" 0 Detecting.

(** With two slots: [a] and [b] are submitted and start, then [a] is
    submitted again. *)
Definition resubmit_scenario : list Event :=
  [EvAddJob "a" "/tmp/videos/a.mp4" "/tmp/videos/a_cut.mp4" 0;
   EvAddJob "b" "/tmp/videos/b.mp4" "/tmp/videos/b_cut.mp4" 1;
   EvAddJob "a" "/tmp/videos/a.mp4" "/tmp/videos/a_cut.mp4" 2].

(** With one slot: [x] is submitted and starts, [a] is submitted twice
    while it is pending, the detection of [x] ends with exit code 1, and the
    timer set by that failure fires. *)
Definition resubmit_pending_scenario : list Event :=
  [EvAddJob "x" "/tmp/videos/x.mp4" "/tmp/videos/x_cut.mp4" 0;
   EvAddJob "a" "/tmp/videos/a.mp4" "/tmp/videos/a_cut.mp4" 1;
   EvAddJob "a" "/tmp/videos/a.mp4" "/tmp/videos/a_cut.mp4" 2;
   EvDetect 0 (DetectClosed (Some 1%Z) "" [] []) 3;
   EvTimer 4].

(** The job [a] is submitted and its detection finds two silences. *)
Definition detect_ok_scenario : list Event :=
  [EvAddJob "a" "/tmp/videos/a.mp4" "/tmp/videos/a_cut.mp4" 0;
   EvDetect 0 (DetectClosed (Some 0%Z) "" [1; 5]%Q [2; 7]%Q) 1].

(** The job [a] is submitted, cancelled while its detection runs, and the
    detection then cannot start, which queues the ID again; a timer
    fires. *)
Definition cancel_scenario : list Event :=
  [EvDetect 0 (DetectSpawnError example_spawn_error) 1; EvTimer 2].

(** The condition under which the controller's [process] action means to
    call [addJob]: the ID is neither pending nor active. *)
Definition fresh_id (videoId : string) (s : JobQueueService) : Prop :=
  (videoId ∉ queue s) /\ (videoId ∉ processing s).

(** A run in which every [addJob] is for an ID that is neither pending nor
    active at that moment. *)
Fixpoint guarded (evs : list Event) (s : JobQueueService) : Prop :=
  match evs with
  | [] => True
  | ev :: evs' =>
      match ev with
      | EvAddJob videoId _ _ _ => fresh_id videoId s
      | _ => True
      end
      /\ match step ev s with
         | Some s' => guarded evs' s'
         | None => True
         end
  end.

(** The IDs of the suspended calls of [processNext]. *)
Definition inflight_ids (s : JobQueueService) : list string :=
  p_videoId <$> inflight s.

(** What the steps maintain as long as submissions are fresh: the pending
    queue has no ID twice, no pending ID is active, and the suspended calls
    are for distinct, active IDs. *)
Definition queue_inv (s : JobQueueService) : Prop :=
  NoDup (queue s)
  /\ (forall videoId, videoId ∈ queue s -> videoId ∉ processing s)
  /\ NoDup (inflight_ids s)
  /\ (forall videoId, videoId ∈ inflight_ids s -> videoId ∈ processing s).

(** A call of [addJob]: the ID, the two paths and the time. *)
Definition Submission : Type := (string * string * string * Z)%type.

Definition sub_id (x : Submission) : string := x.1.1.1.

Definition submit (s : JobQueueService) (x : Submission) : JobQueueService :=
  addJob x.1.1.1 x.1.1.2 x.1.2 x.2 s.

(** Submissions one after the other, nothing else in between. *)
Definition submit_all (subs : list Submission) (s : JobQueueService)
    : JobQueueService :=
  foldl submit s subs.

#[global] Instance Status_eq_dec : EqDecision Status.
Proof. solve_decision. Defined.

(** The status that [getJobStatus] reports. *)
Definition status_of (s : JobQueueService) (videoId : string)
    : option Status :=
  job_status <$> getJob videoId s.

(** How many of the jobs [ids] are in the state [st]. *)
Definition count_status (st : Status) (s : JobQueueService)
    (ids : list string) : nat :=
  length (filter (fun videoId => status_of s videoId = Some st) ids).

(** The service after the submissions [ids], as long as these are at most
    [C]: nothing is pending, every job runs, except that a job whose ID is
    the empty string was dropped from the queue and stays queued. *)
Definition below_ceiling (C : nat) (ids : list string) (s : JobQueueService)
    : Prop :=
  queue s = []
  /\ maxConcurrentJobs s = Z.of_nat C
  /\ processing s = list_to_set (filter (fun videoId => videoId <> "") ids)
  /\ (forall videoId, videoId ∈ ids ->
        status_of s videoId
        = Some (if decide (videoId = "") then Queued else Processing))
  /\ dom (jobs s) = list_to_set ids
  /\ (forall videoId ref, jobs s !! videoId = Some ref ->
        (ref < length (heap s))%nat).

(** Three submissions to a service with the default two slots. *)
Definition example_submissions : list Submission :=
  [("a", "/tmp/videos/a.mp4", "/tmp/videos/a_cut.mp4", 0%Z);
   ("b", "/tmp/videos/b.mp4", "/tmp/videos/b_cut.mp4", 1%Z);
   ("c", "/tmp/videos/c.mp4", "/tmp/videos/c_cut.mp4", 2%Z)].

(** * Properties *)

(** ** Comparisons *)

Lemma Qltb_lt (x y : Q) : Qltb x y = true <-> (x < y)%Q.
Proof.
  unfold Qltb. rewrite negb_true_iff, <- not_true_iff_false, Qle_bool_iff.
  split; intros H; [apply Qnot_le_lt | apply Qlt_not_le]; exact H.
Qed.

Lemma Qltb_ge (x y : Q) : Qltb x y = false <-> (y <= x)%Q.
Proof.
  unfold Qltb. rewrite negb_false_iff. apply Qle_bool_iff.
Qed.

(** ** Rounding *)

Lemma grid_pos : (0 < grid)%Z.
Proof. reflexivity. Qed.

Lemma round_half_even_error (n d : Z) :
  (0 < d)%Z ->
  (- d <= 2 * (round_half_even n d * d - n) <= d)%Z.
Proof.
  intros Hd. unfold round_half_even.
  pose proof (Z.div_mod n d ltac:(lia)) as Hdm.
  pose proof (Z.mod_pos_bound n d Hd) as Hr.
  destruct (Z.compare_spec (2 * (n mod d)) d) as [H|H|H];
    [destruct (Z.even (n / d))|..]; nia.
Qed.

Lemma round_half_even_nonneg (n d : Z) :
  (0 <= n)%Z -> (0 < d)%Z -> (0 <= round_half_even n d)%Z.
Proof.
  intros Hn Hd. unfold round_half_even.
  pose proof (Z.div_pos n d Hn Hd).
  destruct (_ ?= _)%Z; [destruct (Z.even _)|..]; lia.
Qed.

Lemma round_half_even_pos (n d : Z) :
  (0 < d <= n)%Z -> (1 <= round_half_even n d)%Z.
Proof.
  intros [Hd Hn]. unfold round_half_even.
  assert (1 <= n / d)%Z by (apply Z.div_le_lower_bound; lia).
  destruct (_ ?= _)%Z; [destruct (Z.even _)|..]; lia.
Qed.

Lemma spacing_exp_nonneg (F : Z) : (0 <= spacing_exp F)%Z.
Proof. unfold spacing_exp. lia. Qed.

Lemma spacing_exp_mono (F F' : Z) :
  (F <= F')%Z -> (spacing_exp F <= spacing_exp F')%Z.
Proof.
  intros H. unfold spacing_exp. pose proof (Z.log2_le_mono _ _ H). lia.
Qed.

Lemma spacing_exp_below (F : Z) :
  (0 <= F)%Z -> (2 ^ spacing_exp F <= Z.max 1 F)%Z.
Proof.
  intros HF. unfold spacing_exp.
  destruct (Z.max_spec 0 (Z.log2 F - 52)) as [[H ->]|[H ->]].
  - assert (0 < F)%Z as HF'.
    { destruct (Z.eq_dec F 0%Z) as [->|]; [simpl in H; lia|lia]. }
    pose proof (Z.log2_spec F HF') as [Hlog _].
    assert (2 ^ (Z.log2 F - 52) <= 2 ^ Z.log2 F)%Z
      by (apply Z.pow_le_mono_r; lia).
    lia.
  - simpl. lia.
Qed.

Lemma round_magnitude_nonneg (n d : Z) :
  (0 <= n)%Z -> (0 < d)%Z -> (0 <= round_magnitude n d)%Z.
Proof.
  intros Hn Hd. unfold round_magnitude.
  pose proof grid_pos.
  pose proof (spacing_exp_nonneg (n * grid / d)) as Hs.
  assert (0 < 2 ^ spacing_exp (n * grid / d))%Z by (apply Z.pow_pos_nonneg; lia).
  apply Z.mul_nonneg_nonneg; [|lia].
  apply round_half_even_nonneg; nia.
Qed.

Lemma round_magnitude_error (n d : Z) :
  (0 <= n)%Z -> (0 < d)%Z ->
  (- (d * 2 ^ spacing_exp (n * grid / d))
   <= 2 * (round_magnitude n d * d - n * grid)
   <= d * 2 ^ spacing_exp (n * grid / d))%Z.
Proof.
  intros Hn Hd. unfold round_magnitude.
  pose proof (spacing_exp_nonneg (n * grid / d)) as Hs.
  set (s := spacing_exp (n * grid / d)) in *.
  assert (0 < 2 ^ s)%Z as Hp by (apply Z.pow_pos_nonneg; lia).
  pose proof (round_half_even_error (n * grid) (d * 2 ^ s) ltac:(nia)) as H.
  nia.
Qed.

Lemma round_magnitude_pos (n d : Z) :
  (0 < d <= n * grid)%Z -> (1 <= round_magnitude n d)%Z.
Proof.
  intros [Hd Hn]. unfold round_magnitude.
  pose proof (spacing_exp_nonneg (n * grid / d)) as Hs.
  assert (0 <= n * grid / d)%Z as HF by (apply Z.div_pos; lia).
  pose proof (spacing_exp_below _ HF) as Hb.
  set (s := spacing_exp (n * grid / d)) in *.
  assert (0 < 2 ^ s)%Z as Hp by (apply Z.pow_pos_nonneg; lia).
  assert (1 <= n * grid / d)%Z by (apply Z.div_le_lower_bound; lia).
  assert (d * (n * grid / d) <= n * grid)%Z by (apply Z.mul_div_le; lia).
  assert (1 <= round_half_even (n * grid) (d * 2 ^ s))%Z.
  { apply round_half_even_pos. nia. }
  nia.
Qed.

Lemma grid_to_pos : Zpos (Z.to_pos grid) = grid.
Proof. reflexivity. Qed.

Opaque grid huge.

Lemma round64_finite (q r : Q) :
  round64 q = Finite r ->
  (round_magnitude (Z.abs (Qnum q)) (Zpos (Qden q)) < huge)%Z
  /\ (r == Z.sgn (Qnum q)
           * round_magnitude (Z.abs (Qnum q)) (Zpos (Qden q))
         # Z.to_pos grid)%Q.
Proof.
  unfold round64. cbv zeta.
  destruct (Z.leb_spec huge (round_magnitude (Z.abs (Qnum q)) (Z.pos (Qden q))));
    [by destruct (_ <? _)%Z|].
  intros [= <-]. split; [done|]. apply Qred_correct.
Qed.

Lemma round64_not_NaN (q : Q) : round64 q <> NaN.
Proof.
  unfold round64. cbv zeta.
  destruct (_ <=? _)%Z; [by destruct (_ <? _)%Z|done].
Qed.

Lemma round64_on_grid (q : Q) : js_on_grid (round64 q).
Proof.
  destruct (round64 q) as [r| | |] eqn:E; try done.
  - apply round64_finite in E as [_ E]. by eexists.
  - by apply round64_not_NaN in E.
Qed.

(** Rounding does not change the sign ... *)
Lemma round64_nonneg (q : Q) :
  (0 <= q)%Q -> js_lt (round64 q) 0%Q = false.
Proof.
  intros Hq. assert (0 <= Qnum q)%Z as Hn.
  { unfold Qle in Hq. simpl in Hq. lia. }
  destruct (round64 q) as [r| | |] eqn:E; try done.
  - apply round64_finite in E as [_ E]. simpl. apply Qltb_ge.
    rewrite E. unfold Qle. simpl.
    pose proof (round_magnitude_nonneg (Z.abs (Qnum q)) (Zpos (Qden q))
                  ltac:(lia) ltac:(lia)).
    nia.
  - unfold round64 in E. cbv zeta in E.
    destruct (_ <=? _)%Z; [|done]. destruct (Z.ltb_spec (Qnum q) 0); [lia|done].
Qed.

(** ... and a number that is at least one grid step below zero is not
    rounded to zero. *)
Lemma round64_neg (q : Q) :
  (q <= -1 # Z.to_pos grid)%Q -> js_lt (round64 q) 0%Q = true.
Proof.
  intros Hq. unfold Qle in Hq. simpl in Hq. rewrite grid_to_pos in Hq.
  pose proof grid_pos as HG.
  assert (Qnum q < 0)%Z as Hn by nia.
  assert (1 <= round_magnitude (Z.abs (Qnum q)) (Zpos (Qden q)))%Z as HN.
  { apply round_magnitude_pos. lia. }
  destruct (round64 q) as [r| | |] eqn:E; try done.
  - apply round64_finite in E as [_ E]. simpl. apply Qltb_lt.
    rewrite E. unfold Qlt. simpl. nia.
  - unfold round64 in E. cbv zeta in E.
    destruct (_ <=? _)%Z; [|done]. destruct (Z.ltb_spec (Qnum q) 0); [done|lia].
  - by apply round64_not_NaN in E.
Qed.

Lemma on_grid_lt (a b : Q) :
  on_grid a -> on_grid b -> (a < b)%Q -> (a - b <= -1 # Z.to_pos grid)%Q.
Proof.
  intros [ka Ha] [kb Hb] Hab. rewrite Ha, Hb in *.
  unfold Qlt, Qle, Qminus, Qplus, Qopp in *. simpl in *.
  rewrite ?Pos2Z.inj_mul, ?grid_to_pos in *.
  pose proof grid_pos as HG.
  assert (ka - kb <= -1)%Z as Hk by nia.
  assert (0 < grid * grid)%Z as HGG by nia.
  replace ((ka * grid + - kb * grid) * grid)%Z
    with ((ka - kb) * (grid * grid))%Z by ring.
  nia.
Qed.

(** The sign of the difference of two doubles, or of two results that are
    not finite, is the sign of their exact difference. *)
Lemma js_sub_negative (x y : JsNumber) :
  js_on_grid x -> js_on_grid y ->
  js_lt (js_sub x y) 0%Q = js_lt x y.
Proof.
  destruct x as [a| | |], y as [b| | |]; try done. intros Ha Hb. simpl.
  destruct (Qltb a b) eqn:E.
  - apply Qltb_lt in E. apply round64_neg. by apply on_grid_lt.
  - apply Qltb_ge in E. apply round64_nonneg. lra.
Qed.

Lemma round_magnitude_0 (d : Z) : (0 < d)%Z -> round_magnitude 0 d = 0%Z.
Proof.
  intros Hd. unfold round_magnitude. rewrite Z.mul_0_l, Z.div_0_l by lia.
  change (spacing_exp 0) with 0%Z. rewrite Z.pow_0_r, !Z.mul_1_r.
  unfold round_half_even. rewrite Z.div_0_l, Z.mod_0_l by lia.
  simpl. by destruct d.
Qed.

Lemma round_magnitude_divide (n d : Z) :
  (2 ^ spacing_exp (n * grid / d) | round_magnitude n d)%Z.
Proof. unfold round_magnitude. apply Z.divide_factor_r. Qed.

Lemma is_double_representable (q : Q) :
  (0 <= q)%Q -> is_double q ->
  exists N, representable N /\ (q == N # Z.to_pos grid)%Q.
Proof.
  intros Hq Hd. apply round64_finite in Hd as [Hlt Heq].
  rewrite Qred_correct in Heq.
  assert (0 <= Qnum q)%Z as Hn by (unfold Qle in Hq; simpl in Hq; lia).
  set (N := round_magnitude (Z.abs (Qnum q)) (Z.pos (Qden q))) in *.
  assert (0 <= N)%Z as HN by (apply round_magnitude_nonneg; lia).
  destruct (Z.eq_dec (Qnum q) 0%Z) as [H0|H0].
  - exists 0%Z. split.
    + split; [|apply Z.divide_0_r]. split; [done|lia].
    + rewrite Heq, H0. done.
  - exists N. rewrite Z.sgn_pos in Heq by lia. rewrite Z.mul_1_l in Heq.
    split; [|done]. split; [lia|].
    pose proof (round_magnitude_divide (Z.abs (Qnum q)) (Z.pos (Qden q)))
      as Hdiv. fold N in Hdiv.
    replace (Z.abs (Qnum q) * grid / Z.pos (Qden q))%Z with N in Hdiv; [done|].
    unfold Qeq in Heq. simpl in Heq. rewrite grid_to_pos in Heq.
    rewrite Z.abs_eq by done. rewrite Heq. by rewrite Z.div_mul.
Qed.

Lemma representable_gap (N1 N2 : Z) :
  representable N1 -> representable N2 -> (N1 < N2)%Z ->
  (2 ^ spacing_exp N1 <= N2 - N1)%Z.
Proof.
  intros [H1 D1] [H2 D2] Hlt.
  pose proof (spacing_exp_mono N1 N2 ltac:(lia)) as Hs.
  pose proof (spacing_exp_nonneg N1) as Hs1.
  apply Z.divide_pos_le; [lia|].
  apply Z.divide_sub_r; [|done].
  etrans; [|exact D2].
  exists (2 ^ (spacing_exp N2 - spacing_exp N1))%Z.
  rewrite <- Z.pow_add_r by lia. f_equal. lia.
Qed.

(** Rounding a positive number that is at most the double [lo] moves it
    up by less than the distance from [lo] to any larger double. *)
Lemma round64_below_next_double (x lo hi : Q) :
  (0 < x)%Q -> (x <= lo)%Q -> is_double lo -> is_double hi -> (lo < hi)%Q ->
  exists r, round64 x = Finite r /\ (r - x < hi - lo)%Q.
Proof.
  intros Hx Hxlo Hlo Hhi Hlt.
  apply is_double_representable in Hlo as (N1 & HN1 & Elo); [|lra].
  apply is_double_representable in Hhi as (N2 & HN2 & Ehi); [|lra].
  pose proof grid_pos as HG.
  assert (N1 < N2)%Z as HN.
  { rewrite Elo, Ehi in Hlt. unfold Qlt in Hlt. simpl in Hlt.
    rewrite grid_to_pos in Hlt. nia. }
  pose proof (representable_gap N1 N2 HN1 HN2 HN) as Hgap.
  destruct x as [n d]. 
  assert (0 < n)%Z as Hn by (unfold Qlt in Hx; simpl in Hx; lia).
  assert (n * grid <= N1 * Zpos d)%Z as Hle.
  { rewrite Elo in Hxlo. unfold Qle in Hxlo. simpl in Hxlo.
    by rewrite grid_to_pos in Hxlo. }
  assert (n * grid / Zpos d <= N1)%Z as HF.
  { apply Z.div_le_upper_bound; lia. }
  pose proof (spacing_exp_mono _ _ HF) as Hs.
  pose proof (round_magnitude_error n (Zpos d) ltac:(lia) ltac:(lia))
    as [_ Herr].
  set (N := round_magnitude n (Zpos d)) in *.
  assert (2 ^ spacing_exp (n * grid / Z.pos d) <= 2 ^ spacing_exp N1)%Z
    as Hpow by (apply Z.pow_le_mono_r; lia).
  assert (2 * (N * Zpos d - n * grid) <= Zpos d * (N2 - N1))%Z as Hkey by nia.
  destruct HN2 as [[_ Hhuge] _].
  assert (N < N2)%Z as HNN by nia.
  exists (Qred (N # Z.to_pos grid)). split.
  - unfold round64. cbv zeta. simpl Qnum. simpl Qden.
    rewrite Z.abs_eq by lia. fold N.
    destruct (Z.leb_spec huge N); [lia|].
    rewrite Z.sgn_pos by lia. by rewrite Z.mul_1_l.
  - rewrite Qred_correct, Elo, Ehi.
    unfold Qlt, Qminus, Qplus, Qopp. simpl.
    rewrite ?Pos2Z.inj_mul, ?grid_to_pos.
    replace ((N * Z.pos d + - n * grid) * (grid * grid))%Z
      with ((N * Zpos d - n * grid) * (grid * grid))%Z by ring.
    replace ((N2 * grid + - N1 * grid) * (grid * Z.pos d))%Z
      with ((Zpos d * (N2 - N1)) * (grid * grid))%Z by ring.
    apply Z.mul_lt_mono_pos_r; [nia|]. nia.
Qed.

Lemma round_half_even_upper (n d : Z) :
  (0 < d)%Z -> (round_half_even n d <= n / d + 1)%Z.
Proof.
  intros Hd. unfold round_half_even.
  destruct (_ ?= _)%Z; [destruct (Z.even _)|..]; lia.
Qed.

Lemma round_half_even_exact (k d : Z) :
  (0 < d)%Z -> round_half_even (k * d) d = k.
Proof.
  intros Hd. unfold round_half_even.
  rewrite Z.div_mul, Z.mod_mul by lia.
  change (2 * 0)%Z with 0%Z.
  destruct (Z.compare_spec 0 d); [lia|done|lia].
Qed.

Lemma spacing_exp_divide (M s : Z) :
  (0 <= M <= 2 ^ 53)%Z -> (0 <= s)%Z ->
  (2 ^ spacing_exp (M * 2 ^ s) | M * 2 ^ s)%Z.
Proof.
  intros HM Hs.
  assert (0 < 2 ^ s)%Z as Hp by (apply Z.pow_pos_nonneg; lia).
  destruct (Z.eq_dec M 0%Z) as [->|HM0].
  { rewrite Z.mul_0_l. apply Z.divide_0_r. }
  destruct (Z.eq_dec M (2 ^ 53)%Z) as [->|HM53].
  - rewrite <- Z.pow_add_r by lia. unfold spacing_exp.
    rewrite Z.log2_pow2 by lia.
    replace (Z.max 0 (53 + s - 52)) with (s + 1)%Z by lia.
    exists (2 ^ 52)%Z. rewrite <- Z.pow_add_r by lia. f_equal. lia.
  - assert (Z.log2 M < 53)%Z as HlogM by (apply Z.log2_lt_pow2; lia).
    assert (Z.log2 (M * 2 ^ s) = Z.log2 M + s)%Z as Hlog
      by (rewrite Z.log2_mul_pow2; lia).
    unfold spacing_exp. rewrite Hlog.
    pose proof (Z.log2_nonneg M).
    apply Z.divide_mul_r.
    exists (2 ^ (s - Z.max 0 (Z.log2 M + s - 52)))%Z.
    rewrite <- Z.pow_add_r by lia. f_equal. lia.
Qed.

Lemma round_magnitude_representable (n d : Z) :
  (0 <= n)%Z -> (0 < d)%Z ->
  (2 ^ spacing_exp (round_magnitude n d) | round_magnitude n d)%Z.
Proof.
  intros Hn Hd. unfold round_magnitude.
  pose proof grid_pos as HG.
  set (A := (n * grid)%Z). assert (0 <= A)%Z as HA by nia.
  pose proof (spacing_exp_nonneg (A / d)) as Hs.
  set (s := spacing_exp (A / d)) in *.
  assert (0 < 2 ^ s)%Z as Hp by (apply Z.pow_pos_nonneg; lia).
  apply spacing_exp_divide; [|done]. split.
  { apply round_half_even_nonneg; nia. }
  pose proof (round_half_even_upper A (d * 2 ^ s) ltac:(nia)) as Hup.
  assert (A / (d * 2 ^ s) < 2 ^ 53)%Z; [|lia].
  apply Z.div_lt_upper_bound; [nia|].
  assert (0 <= A / d)%Z as HF by (apply Z.div_pos; lia).
  assert (A / d < 2 ^ (53 + s))%Z as Hlt.
  { destruct (Z.eq_dec (A / d)%Z 0%Z) as [->|HF0].
    - apply Z.pow_pos_nonneg; lia.
    - pose proof (Z.log2_spec (A / d)%Z ltac:(lia)) as [_ Hlog].
      eapply Z.lt_le_trans; [exact Hlog|].
      apply Z.pow_le_mono_r; [lia|]. subst s. unfold spacing_exp. lia. }
  assert (A < d * 2 ^ (53 + s))%Z as HAlt.
  { pose proof (Z.div_mod A d ltac:(lia)) as Hdm.
    pose proof (Z.mod_pos_bound A d Hd) as Hr. nia. }
  rewrite Z.pow_add_r in HAlt by lia. nia.
Qed.

(** A result of rounding is a double. *)
Lemma round64_is_double (q r : Q) : round64 q = Finite r -> is_double r.
Proof.
  intros Hr. pose proof Hr as Hr'. unfold round64 in Hr'. cbv zeta in Hr'.
  set (n := Qnum q) in *. set (d := Zpos (Qden q)) in *.
  set (N := round_magnitude (Z.abs n) d) in *.
  destruct (Z.leb_spec huge N) as [|Hhuge];
    [by destruct (n <? 0)%Z|].
  injection Hr' as Hr'.
  assert (0 <= N)%Z as HN by (apply round_magnitude_nonneg; lia).
  pose proof (round_magnitude_representable (Z.abs n) d ltac:(lia) ltac:(lia))
    as Hdiv. fold N in Hdiv.
  pose proof grid_pos as HG.
  assert (r == Z.sgn n * N # Z.to_pos grid)%Q as Heq
    by (rewrite <- Hr'; apply Qred_correct).
  unfold is_double, round64. cbv zeta.
  assert (round_magnitude (Z.abs (Qnum r)) (Zpos (Qden r)) = N) as HN'.
  { unfold Qeq in Heq. simpl in Heq. rewrite grid_to_pos in Heq.
    unfold round_magnitude.
    assert (Z.abs (Qnum r) * grid = N * Zpos (Qden r))%Z as HA.
    { destruct (Z.sgn_spec n) as [[Hn Hs]|[[Hn Hs]|[Hn Hs]]];
        rewrite Hs in Heq.
      - assert (0 <= Qnum r)%Z by nia. rewrite Z.abs_eq by done. lia.
      - assert (N = 0%Z) as HN0.
        { subst N. rewrite <- Hn. apply round_magnitude_0. lia. }
        rewrite HN0 in *. assert (Qnum r = 0%Z) as -> by nia. done.
      - assert (Qnum r <= 0)%Z by nia. rewrite Z.abs_neq by done. lia. }
    rewrite HA, Z.div_mul by lia.
    destruct Hdiv as [M HM].
    pose proof (spacing_exp_nonneg N) as Hk.
    set (k := spacing_exp N) in *.
    assert (0 < 2 ^ k)%Z by (apply Z.pow_pos_nonneg; lia).
    replace (N * Zpos (Qden r))%Z with (M * (Zpos (Qden r) * 2 ^ k))%Z
      by (rewrite HM; ring).
    rewrite round_half_even_exact; [lia|nia]. }
  rewrite HN'. destruct (Z.leb_spec huge N); [lia|].
  f_equal. apply Qred_complete.
  assert (Z.sgn (Qnum r) * N = Z.sgn n * N)%Z as Hsgn.
  { unfold Qeq in Heq. simpl in Heq. rewrite grid_to_pos in Heq.
    destruct (Z.eq_dec N 0%Z) as [->|HN0]; [lia|].
    f_equal.
    destruct (Z.sgn_spec n) as [[? Hs]|[[? Hs]|[? Hs]]]; rewrite Hs in *.
    - apply Z.sgn_pos. nia.
    - assert (Qnum r = 0%Z) as -> by nia. done.
    - apply Z.sgn_neg. nia. }
  rewrite Hsgn. symmetry. exact Heq.
Qed.

Lemma double_is_double (q : Q) : is_double (double q).
Proof.
  unfold double. destruct (round64 q) as [r| | |] eqn:E;
    [by apply (round64_is_double q)|..]; by vm_compute.
Qed.

(** ** The scenarios of the specification *)

Example merge_scenario :
  mergeSilences [mkSilence 2 3 1; mkSilence (7#2) 4 (1#2)] 2
  = [mkSilence 2 4 1].
Proof. reflexivity. Qed.

Example keep_scenario :
  buildKeepSegments [mkSilence 2 4 2] 10 = [mkSegment 0 2; mkSegment 4 10].
Proof. reflexivity. Qed.

(** ** mergeSilences *)

Section IntervalFacts.
Context {A : Type} (lo hi : A -> Q).

Lemma interval_list_chain (l : list A) :
  interval_list lo hi l <-> chain lo hi l.
Proof.
  unfold interval_list, chain, ordered_by_start, non_overlapping.
  induction l as [|a l IH].
  - split; intros _; repeat split; constructor.
  - split.
    + intros (Hwf & Hs & Hn).
      apply Forall_cons in Hwf as [Ha Hwf].
      apply StronglySorted_inv in Hs as [Hs Hlo].
      inversion Hn as [|? ? Hno Hn']; subst.
      destruct IH as [IH _]. destruct (IH (conj Hwf (conj Hs Hn'))) as [_ IHs].
      split; [by constructor|]. constructor; [done|].
      rewrite List.Forall_forall in *. intros b Hb.
      specialize (Hlo b Hb). specialize (Hno b Hb). specialize (Hwf b Hb).
      unfold well_formed, no_overlap in *. lra.
    + intros (Hwf & Hs).
      apply Forall_cons in Hwf as [Ha Hwf].
      apply StronglySorted_inv in Hs as [Hs Hlo].
      destruct IH as [_ IH]. destruct (IH (conj Hwf Hs)) as (_ & IHs & IHn).
      split; [by constructor|]. split; constructor; try done.
      * rewrite List.Forall_forall in *. intros b Hb.
        specialize (Hlo b Hb). unfold well_formed in *. lra.
      * rewrite List.Forall_forall in *. intros b Hb.
        left. by apply Hlo.
Qed.

Lemma covered_duration_app (l1 l2 : list A) :
  (covered_duration lo hi (l1 ++ l2)
   == covered_duration lo hi l1 + covered_duration lo hi l2)%Q.
Proof.
  induction l1 as [|a l1 IH]; simpl.
  - lra.
  - unfold covered_duration in *. simpl. rewrite IH. lra.
Qed.
End IntervalFacts.

Lemma merge_loop_acc (minGap : Q) (rest : list SilenceInterval) :
  forall current merged,
    merge_loop minGap rest current merged
    = merged ++ merge_loop minGap rest current [].
Proof.
  induction rest as [|next rest IH]; intros current merged; simpl.
  - done.
  - destruct (js_lt _ _).
    + apply IH.
    + rewrite IH, (IH next [current]). by rewrite <- app_assoc.
Qed.

Lemma runs_cons_head (minGap : Q) (a : SilenceInterval)
    (l : list SilenceInterval) :
  exists t rs, runs minGap (a :: l) = (a, t) :: rs.
Proof.
  destruct l as [|b l]; simpl.
  - by exists [], [].
  - destruct (js_lt _ _).
    + destruct (match l with [] => _ | _ => _ end) as [|[h t] rs]; eauto.
    + eauto.
Qed.

Lemma run_last_cons (x h : SilenceInterval) (t : list SilenceInterval) :
  run_last (x, h :: t) = run_last (h, t).
Proof.
  unfold run_last. cbn [fst snd]. revert x h.
  induction t as [|c t IH]; intros x h; [done|].
  change (List.last (h :: c :: t) x) with (List.last (c :: t) x).
  by rewrite (IH x c), (IH h c).
Qed.

Lemma merge_loop_runs (minGap : Q) (rest : list SilenceInterval) :
  forall x current,
    si_end current = si_end x ->
    merge_loop minGap rest current []
    = match runs minGap (x :: rest) with
      | r :: rs =>
          mkSilence (si_start current) (si_end (run_last r))
            (si_duration current) :: map coalesce rs
      | [] => []
      end.
Proof.
  induction rest as [|b rest IH]; intros x current Hend.
  - simpl. unfold run_last. simpl. rewrite <- Hend. by destruct current.
  - cbn [merge_loop]. change (runs minGap (x :: b :: rest)) with
      (if js_lt (gap x b) minGap then
         match runs minGap (b :: rest) with
         | (h, t) :: rs => (x, h :: t) :: rs
         | [] => [(x, [])]
         end
       else (x, []) :: runs minGap (b :: rest)).
    unfold gap at 1. rewrite Hend.
    destruct (runs_cons_head minGap b rest) as (t & rs & Hruns).
    destruct (js_lt _ _).
    + rewrite (IH b (mkSilence (si_start current) (si_end b)
                       (si_duration current)) eq_refl).
      rewrite Hruns. simpl. by rewrite run_last_cons.
    + rewrite merge_loop_acc. rewrite (IH b b eq_refl). rewrite Hruns.
      simpl. unfold run_last at 2. simpl. rewrite <- Hend.
      by destruct current.
Qed.

Lemma mergeSilences_runs (silences : list SilenceInterval) (minGap : Q) :
  mergeSilences silences minGap = map coalesce (runs minGap silences).
Proof.
  destruct silences as [|a rest]; [done|].
  unfold mergeSilences. rewrite (merge_loop_runs minGap rest a a eq_refl).
  destruct (runs_cons_head minGap a rest) as (t & rs & ->). done.
Qed.

Lemma runs_concat (minGap : Q) (l : list SilenceInterval) :
  concat (map run_items (runs minGap l)) = l.
Proof.
  induction l as [|a l IH]; [done|].
  destruct l as [|b l]; [done|].
  destruct (runs_cons_head minGap b l) as (t & rs & Hruns).
  change (runs minGap (a :: b :: l)) with
    (if js_lt (gap a b) minGap then
       match runs minGap (b :: l) with
       | (h, t) :: rs => (a, h :: t) :: rs
       | [] => [(a, [])]
       end
     else (a, []) :: runs minGap (b :: l)).
  rewrite Hruns in *. destruct (js_lt _ _); simpl in *; by rewrite IH.
Qed.

Lemma runs_close (minGap : Q) (l : list SilenceInterval) :
  Forall (fun r => adjacent (fun a b => js_lt (gap a b) minGap = true) (run_items r))
    (runs minGap l).
Proof.
  induction l as [|a l IH]; [constructor|].
  destruct l as [|b l]; [by repeat constructor|].
  destruct (runs_cons_head minGap b l) as (t & rs & Hruns).
  change (runs minGap (a :: b :: l)) with
    (if js_lt (gap a b) minGap then
       match runs minGap (b :: l) with
       | (h, t) :: rs => (a, h :: t) :: rs
       | [] => [(a, [])]
       end
     else (a, []) :: runs minGap (b :: l)).
  rewrite Hruns in *. apply Forall_cons in IH as [Hb Hrs].
  destruct (js_lt _ _) eqn:E.
  - constructor; [|done]. split; [done|done].
  - constructor; [done|]. by constructor.
Qed.

Lemma runs_separated (minGap : Q) (l : list SilenceInterval) :
  adjacent (fun r1 r2 => js_lt (gap (run_last r1) r2.1) minGap = false)
    (runs minGap l).
Proof.
  induction l as [|a l IH]; [done|].
  destruct l as [|b l]; [done|].
  destruct (runs_cons_head minGap b l) as (t & rs & Hruns).
  change (runs minGap (a :: b :: l)) with
    (if js_lt (gap a b) minGap then
       match runs minGap (b :: l) with
       | (h, t) :: rs => (a, h :: t) :: rs
       | [] => [(a, [])]
       end
     else (a, []) :: runs minGap (b :: l)).
  rewrite Hruns in *.
  destruct (js_lt _ _) eqn:E.
  - destruct rs as [|r2 rs]; [done|].
    destruct IH as [H1 H2]. split; [|done]. by rewrite run_last_cons.
  - split; [|done]. done.
Qed.

Lemma adjacent_map {A B : Type} (R : B -> B -> Prop) (f : A -> B)
    (l : list A) :
  adjacent R (map f l) <-> adjacent (fun a b => R (f a) (f b)) l.
Proof.
  induction l as [|a l IH]; [done|].
  destruct l as [|b l]; [done|].
  change (R (f a) (f b) /\ adjacent R (map f (b :: l))
          <-> R (f a) (f b) /\ adjacent (fun a b => R (f a) (f b)) (b :: l)).
  by rewrite IH.
Qed.

Lemma runs_of_separated (minGap : Q) (l : list SilenceInterval) :
  adjacent (fun a b => js_lt (gap a b) minGap = false) l ->
  runs minGap l = map (fun a => (a, [])) l.
Proof.
  induction l as [|a l IH]; [done|].
  destruct l as [|b l]; [done|].
  intros [Hab Hl].
  change (runs minGap (a :: b :: l)) with
    (if js_lt (gap a b) minGap then
       match runs minGap (b :: l) with
       | (h, t) :: rs => (a, h :: t) :: rs
       | [] => [(a, [])]
       end
     else (a, []) :: runs minGap (b :: l)).
  rewrite Hab, (IH Hl). done.
Qed.

Lemma mergeSilences_separated (silences : list SilenceInterval) (minGap : Q) :
  adjacent (fun a b => js_lt (gap a b) minGap = false) (mergeSilences silences minGap).
Proof.
  rewrite mergeSilences_runs. apply adjacent_map.
  apply (runs_separated minGap silences).
Qed.

Lemma mergeSilences_fixed (l : list SilenceInterval) (minGap : Q) :
  adjacent (fun a b => js_lt (gap a b) minGap = false) l ->
  mergeSilences l minGap = l.
Proof.
  intros H. rewrite mergeSilences_runs, (runs_of_separated _ _ H).
  rewrite map_map. rewrite <- (map_id l) at 2.
  apply map_ext. by intros [].
Qed.

Lemma merge_loop_lower (minGap bound : Q) (rest : list SilenceInterval) :
  forall current,
    (bound <= si_start current)%Q ->
    Forall (fun a => (bound <= si_start a)%Q) rest ->
    Forall (fun a => (bound <= si_start a)%Q)
      (merge_loop minGap rest current []).
Proof.
  induction rest as [|next rest IH]; intros current Hc Hrest; simpl.
  - by constructor.
  - apply Forall_cons in Hrest as [Hn Hrest].
    destruct (js_lt _ _).
    + by apply IH.
    + rewrite merge_loop_acc. simpl. constructor; [done|]. by apply IH.
Qed.

Lemma merge_loop_chain (minGap : Q) (rest : list SilenceInterval) :
  forall current,
    chain si_start si_end (current :: rest) ->
    chain si_start si_end (merge_loop minGap rest current []).
Proof.
  induction rest as [|next rest IH]; intros current [Hwf Hs]; simpl.
  - done.
  - apply Forall_cons in Hwf as [Hc Hwf].
    apply Forall_cons in Hwf as [Hn Hwf].
    apply StronglySorted_inv in Hs as [Hs Hcr].
    apply StronglySorted_inv in Hs as [Hs Hnr].
    apply Forall_cons in Hcr as [Hcn Hcr].
    unfold well_formed in Hc, Hn.
    destruct (js_lt _ _).
    + apply IH. split.
      * constructor; [|done]. unfold well_formed. simpl. lra.
      * constructor; done.
    + rewrite merge_loop_acc. simpl.
      destruct (IH next) as [IHwf IHs].
      { split; [by constructor|by constructor]. }
      split; [by constructor|]. constructor; [done|].
      apply merge_loop_lower; [done|].
      eapply Forall_impl; [exact Hnr|]. simpl. intros a Ha. lra.
Qed.

Lemma merge_loop_duration (minGap : Q) (rest : list SilenceInterval) :
  forall current,
    chain si_start si_end (current :: rest) ->
    (covered_duration si_start si_end (current :: rest)
     <= covered_duration si_start si_end (merge_loop minGap rest current []))%Q.
Proof.
  induction rest as [|next rest IH]; intros current [Hwf Hs].
  - simpl. lra.
  - apply Forall_cons in Hwf as [Hc Hwf].
    apply Forall_cons in Hwf as [Hn Hwf].
    apply StronglySorted_inv in Hs as [Hs Hcr].
    apply StronglySorted_inv in Hs as [Hs Hnr].
    apply Forall_cons in Hcr as [Hcn Hcr].
    unfold well_formed in Hc, Hn. cbn [merge_loop].
    destruct (js_lt _ _).
    + eapply Qle_trans; [|apply IH].
      * unfold covered_duration. simpl. lra.
      * split; constructor; try done. unfold well_formed. simpl. lra.
    + rewrite merge_loop_acc. simpl app.
      assert (chain si_start si_end (next :: rest)) as Hch
        by (split; by constructor).
      specialize (IH next Hch). revert IH.
      unfold covered_duration. simpl. lra.
Qed.

Lemma mergeSilences_chain (silences : list SilenceInterval) (minGap : Q) :
  chain si_start si_end silences ->
  chain si_start si_end (mergeSilences silences minGap).
Proof.
  destruct silences as [|a rest]; [done|]. apply merge_loop_chain.
Qed.

Lemma example_silences_ok : silence_list example_silences.
Proof.
  apply interval_list_chain. split.
  - repeat constructor.
  - repeat constructor; simpl; lra.
Qed.

(** C2.  On an ordered, non-overlapping list [mergeSilences] coalesces
    exactly the maximal runs of consecutive intervals whose gaps are below
    [minGap], the gap being the double [next.start - current.end] that the
    loop computes: its output is [coalesce] mapped over [runs], where the
    runs concatenate to the input, every gap inside a run is below [minGap]
    and the gap between two neighbouring runs is not.  The output is again
    ordered and non-overlapping, covers at least the input's total
    duration, is empty for the empty input and is the input itself for a
    single interval. *)
Theorem mergeSilences_coalesces_maximal_runs
    (silences : list SilenceInterval) (minGap : Q) :
  silence_list silences ->
  (mergeSilences silences minGap = map coalesce (runs minGap silences)
   /\ concat (map run_items (runs minGap silences)) = silences
   /\ Forall (fun r =>
                adjacent (fun a b => js_lt (gap a b) minGap = true)
                  (run_items r))
        (runs minGap silences)
   /\ adjacent (fun r1 r2 => js_lt (gap (run_last r1) r2.1) minGap = false)
        (runs minGap silences))
  /\ silence_list (mergeSilences silences minGap)
  /\ (covered_duration si_start si_end silences
      <= covered_duration si_start si_end (mergeSilences silences minGap))%Q
  /\ mergeSilences [] minGap = []
  /\ (forall a, mergeSilences [a] minGap = [a]).
Proof.
  intros Hl. apply interval_list_chain in Hl.
  split; [|split; [|split; [|split]]].
  - split; [apply mergeSilences_runs|].
    split; [apply runs_concat|].
    split; [apply runs_close|apply runs_separated].
  - apply interval_list_chain. by apply mergeSilences_chain.
  - destruct silences as [|a rest]; [simpl; lra|].
    by apply merge_loop_duration.
  - done.
  - done.
Qed.

Lemma mergeSilences_coalesces_maximal_runs_witness :
  silence_list example_silences
  /\ mergeSilences example_silences 2 = [mkSilence 2 4 1; mkSilence 7 9 2]
  /\ silence_list (mergeSilences example_silences 2).
Proof.
  split; [exact example_silences_ok|].
  split; [reflexivity|].
  apply (mergeSilences_coalesces_maximal_runs example_silences 2
           example_silences_ok).
Defined.

(** C9.  [mergeSilences] is idempotent: merging its own output with the
    same [minGap] gives that output back.  This holds for every input list,
    ordered and non-overlapping or not, since two neighbours of the output
    are always at least [minGap] apart. *)
Theorem mergeSilences_idempotent (silences : list SilenceInterval)
    (minGap : Q) :
  mergeSilences (mergeSilences silences minGap) minGap
  = mergeSilences silences minGap.
Proof.
  apply mergeSilences_fixed, mergeSilences_separated.
Qed.

(** ** buildKeepSegments *)

Section CoverFacts.
Context {A : Type} (lo hi : A -> Q).

Lemma covers_app (l1 l2 : list A) (t : Q) :
  covers lo hi (l1 ++ l2) t <-> covers lo hi l1 t \/ covers lo hi l2 t.
Proof. unfold covers. apply Exists_app. Qed.

Lemma covers_cons (a : A) (l : list A) (t : Q) :
  covers lo hi (a :: l) t
  <-> ((lo a <= t)%Q /\ (t < hi a)%Q) \/ covers lo hi l t.
Proof. unfold covers. apply Exists_cons. Qed.

Lemma covers_nil (t : Q) : ~ covers lo hi [] t.
Proof. unfold covers. intros H. inversion H. Qed.

Lemma covers_lower (bound : Q) (l : list A) (t : Q) :
  Forall (fun a => (bound <= lo a)%Q) l -> covers lo hi l t ->
  (bound <= t)%Q.
Proof.
  unfold covers. rewrite List.Forall_forall, List.Exists_exists.
  intros Hb (a & Ha & Hlo & _). specialize (Hb a Ha). lra.
Qed.

Lemma covers_upper (bound : Q) (l : list A) (t : Q) :
  Forall (fun a => (hi a <= bound)%Q) l -> covers lo hi l t ->
  (t < bound)%Q.
Proof.
  unfold covers. rewrite List.Forall_forall, List.Exists_exists.
  intros Hb (a & Ha & _ & Hhi). specialize (Hb a Ha). lra.
Qed.
End CoverFacts.

Lemma keep_loop_acc (silences : list SilenceInterval) :
  forall currentStart segments,
    keep_loop silences currentStart segments
    = ((keep_loop silences currentStart []).1,
       segments ++ (keep_loop silences currentStart []).2).
Proof.
  induction silences as [|a l IH]; intros cs segs; simpl.
  - by rewrite app_nil_r.
  - rewrite IH.
    rewrite (IH _ (if Qltb cs (si_start a) then _ else _)).
    simpl. destruct (Qltb _ _); simpl; [|done].
    by rewrite <- app_assoc.
Qed.

Lemma keep_loop_partition (silences : list SilenceInterval) :
  forall currentStart,
    chain si_start si_end silences ->
    Forall (fun a => (currentStart <= si_start a)%Q) silences ->
    let r := keep_loop silences currentStart [] in
    (currentStart <= r.1)%Q
    /\ Forall (fun a => (si_end a <= r.1)%Q) silences
    /\ chain seg_start seg_end r.2
    /\ within seg_start seg_end currentStart r.1 r.2
    /\ (forall t, ((currentStart <= t)%Q /\ (t < r.1)%Q)
                  <-> (covers seg_start seg_end r.2 t
                       \/ covers si_start si_end silences t))
    /\ (forall t, ~ (covers seg_start seg_end r.2 t
                     /\ covers si_start si_end silences t)).
Proof.
  induction silences as [|a l IH]; intros cs [Hwf Hs] Hlow.
  - simpl. split; [lra|]. split; [constructor|].
    split; [split; constructor|]. split; [constructor|].
    split.
    + intros t. split; [lra|]. intros [H|H]; by apply covers_nil in H.
    + intros t [H _]. by apply covers_nil in H.
  - apply Forall_cons in Hwf as [Ha Hwf]. unfold well_formed in Ha.
    apply StronglySorted_inv in Hs as [Hs Hal].
    apply Forall_cons in Hlow as [Hca Hlow].
    destruct (IH (si_end a) (conj Hwf Hs) Hal)
      as (He & Hends & [Swf Sst] & Swithin & Hcov & Hdis).
    cbn [keep_loop]. rewrite keep_loop_acc. cbn zeta.
    set (e := (keep_loop l (si_end a) []).1) in *.
    set (segs := (keep_loop l (si_end a) []).2) in *.
    simpl app. cbn [fst snd].
    assert (forall t, covers seg_start seg_end
                        (if Qltb cs (si_start a)
                         then [mkSegment cs (si_start a)] else []) t
                      <-> (cs <= t)%Q /\ (t < si_start a)%Q) as Hpre.
    { intros t. destruct (Qltb _ _) eqn:E.
      - rewrite covers_cons. simpl. split; [|tauto].
        intros [H|H]; [done|]. by apply covers_nil in H.
      - apply Qltb_ge in E. split; [|lra].
        intros H. by apply covers_nil in H. }
    assert (Forall (fun s => (si_end a <= seg_start s)%Q) segs) as Hseglow.
    { eapply Forall_impl; [exact Swithin|]. simpl. tauto. }
    assert (Forall (fun s => (seg_end s <= e)%Q) segs) as Hsegup.
    { eapply Forall_impl; [exact Swithin|]. simpl. tauto. }
    split; [lra|]. split.
    { constructor; [lra|done]. }
    split.
    { split.
      - apply Forall_app. split; [|done].
        destruct (Qltb _ _) eqn:E; [|constructor].
        apply Qltb_lt in E. by repeat constructor.
      - apply StronglySorted_app. split; [|split; [|done]].
        + intros x1 x2 Hx1 Hx2.
          rewrite List.Forall_forall in Hseglow.
          apply list_elem_of_In in Hx2. specialize (Hseglow x2 Hx2).
          destruct (Qltb _ _); [|by apply elem_of_nil in Hx1].
          apply list_elem_of_singleton in Hx1 as ->. simpl. lra.
        + destruct (Qltb _ _); repeat constructor. }
    split.
    { apply Forall_app. split.
      - destruct (Qltb _ _) eqn:E; [|constructor].
        repeat constructor; simpl; lra.
      - eapply Forall_impl; [exact Swithin|]. simpl. intros s Hs'. lra. }
    split.
    + intros t. rewrite covers_app, Hpre, covers_cons.
      specialize (Hcov t). split.
      * intros [H1 H2].
        destruct (Qlt_le_dec t (si_start a)) as [Hlt|Hge];
          [left; left; lra|].
        destruct (Qlt_le_dec t (si_end a)) as [Hlt'|Hge'];
          [right; left; lra|].
        destruct (proj1 Hcov (conj Hge' H2)); [left|right]; by right.
      * intros [[H|H]|[H|H]].
        -- lra.
        -- destruct (proj2 Hcov (or_introl H)); lra.
        -- lra.
        -- destruct (proj2 Hcov (or_intror H)); lra.
    + intros t. rewrite covers_app, Hpre, covers_cons.
      intros [[H1|H1] [H2|H2]]; try lra.
      * apply (covers_lower _ _ (si_end a)) in H2; [lra|done].
      * apply (covers_lower _ _ (si_end a)) in H1; [lra|done].
      * by apply (Hdis t).
Qed.

Lemma keep_loop_end_le (bound : Q) (silences : list SilenceInterval) :
  forall currentStart segments,
    (currentStart <= bound)%Q ->
    Forall (fun a => (si_end a <= bound)%Q) silences ->
    ((keep_loop silences currentStart segments).1 <= bound)%Q.
Proof.
  induction silences as [|a l IH]; intros cs segs Hcs Hl; simpl.
  - done.
  - apply Forall_cons in Hl as [Ha Hl]. by apply IH.
Qed.

(** C3.  For [totalDuration >= 0] and silences that are ordered,
    non-overlapping and contained in [[0, totalDuration)], the keep
    segments are ordered and non-overlapping, and together with the
    silences they partition [[0, totalDuration)]: an instant of that range
    lies in a keep segment or in a silence, an instant outside lies in
    neither, and no instant lies in both.  Without silences and with
    [totalDuration > 0] the result is the single segment
    [(0, totalDuration)]; the silences [[(2,4)]] with duration 10 give
    [[(0,2); (4,10)]]. *)
Theorem buildKeepSegments_partition (silences : list SilenceInterval)
    (totalDuration : Q) :
  (0 <= totalDuration)%Q ->
  silence_list silences ->
  within si_start si_end 0 totalDuration silences ->
  let keep := buildKeepSegments silences totalDuration in
  segment_list keep
  /\ (forall t, ((0 <= t)%Q /\ (t < totalDuration)%Q)
                <-> (covers seg_start seg_end keep t
                     \/ covers si_start si_end silences t))
  /\ (forall t, ~ (covers seg_start seg_end keep t
                   /\ covers si_start si_end silences t))
  /\ (silences = [] -> (0 < totalDuration)%Q ->
      keep = [mkSegment 0 totalDuration])
  /\ (forall d, buildKeepSegments [mkSilence 2 4 d] 10
                = [mkSegment 0 2; mkSegment 4 10]).
Proof.
  intros HD Hl Hin. apply interval_list_chain in Hl.
  assert (Forall (fun a => (0 <= si_start a)%Q) silences) as Hlow.
  { eapply Forall_impl; [exact Hin|]. simpl. tauto. }
  assert (Forall (fun a => (si_end a <= totalDuration)%Q) silences) as Hup.
  { eapply Forall_impl; [exact Hin|]. simpl. tauto. }
  pose proof (keep_loop_partition silences 0 Hl Hlow)
    as (He & Hends & [Swf Sst] & Swithin & Hcov & Hdis).
  pose proof (keep_loop_end_le totalDuration silences 0 [] HD Hup) as HeD.
  cbn zeta in *. unfold buildKeepSegments.
  destruct (keep_loop silences 0 []) as [e segs] eqn:Hloop.
  cbn [fst snd] in *.
  assert (Forall (fun s => (seg_end s <= e)%Q) segs) as Hsegup.
  { eapply Forall_impl; [exact Swithin|]. simpl. tauto. }
  split; [|split; [|split; [|split]]].
  - apply interval_list_chain.
    destruct (Qltb e totalDuration) eqn:E; [|done].
    apply Qltb_lt in E. split.
    + apply Forall_app. split; [done|]. by repeat constructor.
    + apply StronglySorted_app. split; [|split; [done|repeat constructor]].
      intros x1 x2 Hx1 Hx2. apply list_elem_of_singleton in Hx2 as ->.
      rewrite List.Forall_forall in Hsegup.
      apply list_elem_of_In in Hx1. by apply Hsegup.
  - intros t. specialize (Hcov t).
    destruct (Qltb e totalDuration) eqn:E.
    + apply Qltb_lt in E. rewrite covers_app, covers_cons. simpl. split.
      * intros [H1 H2]. destruct (Qlt_le_dec t e) as [Hlt|Hge].
        -- destruct (proj1 Hcov (conj H1 Hlt)); [left; by left|by right].
        -- left; right; left. done.
      * intros [[H|[H|H]]|H].
        -- destruct (proj2 Hcov (or_introl H)); lra.
        -- lra.
        -- by apply covers_nil in H.
        -- destruct (proj2 Hcov (or_intror H)); lra.
    + apply Qltb_ge in E. rewrite <- Hcov. lra.
  - intros t. destruct (Qltb e totalDuration) eqn:E; [|apply Hdis].
    rewrite covers_app, covers_cons. simpl.
    intros [[H1|[H1|H1]] H2].
    + by apply (Hdis t).
    + apply (covers_upper _ _ e) in H2; [lra|done].
    + by apply covers_nil in H1.
  - intros -> Hpos. simpl in Hloop. injection Hloop as <- <-.
    apply Qltb_lt in Hpos. by rewrite Hpos.
  - done.
Qed.

Lemma buildKeepSegments_partition_witness :
  (0 <= 10)%Q
  /\ silence_list example_silences
  /\ within si_start si_end 0 10 example_silences
  /\ segment_list (buildKeepSegments example_silences 10).
Proof.
  assert (0 <= 10)%Q as H0 by lra.
  assert (within si_start si_end 0 10 example_silences) as Hin
    by (repeat constructor; simpl; lra).
  split; [exact H0|]. split; [exact example_silences_ok|].
  split; [exact Hin|].
  apply (buildKeepSegments_partition example_silences 10 H0
           example_silences_ok Hin).
Defined.

(** ** The sort and the cap *)

Section SortFacts.
Context {A : Type} (compareFn : A -> A -> JsNumber).

Lemma sort_insert_perm (x : A) (l : list A) :
  sort_insert compareFn x l ≡ₚ x :: l.
Proof.
  induction l as [|y l IH]; simpl; [done|].
  destruct (js_lt _ _); [|done].
  rewrite IH. apply Permutation_swap.
Qed.

Lemma js_sort_perm (l : list A) : js_sort compareFn l ≡ₚ l.
Proof.
  induction l as [|x l IH]; simpl; [done|].
  rewrite sort_insert_perm. by rewrite IH.
Qed.

Lemma js_sort_length (l : list A) :
  length (js_sort compareFn l) = length l.
Proof. by rewrite js_sort_perm. Qed.

Lemma sort_insert_sorted (R : A -> A -> Prop) (x : A) (l : list A) :
  Transitive R ->
  Forall (agrees compareFn R x) l ->
  StronglySorted R l ->
  StronglySorted R (sort_insert compareFn x l).
Proof.
  intros HR. induction l as [|y l IH]; intros Hag Hs; simpl.
  - repeat constructor.
  - apply Forall_cons in Hag as [[Hy1 Hy2] Hag].
    apply StronglySorted_inv in Hs as [Hs Hyl].
    destruct (js_lt _ _) eqn:E.
    + constructor; [by apply IH|].
      rewrite sort_insert_perm. constructor; [by apply Hy1|done].
    + constructor; [by constructor|].
      constructor; [by apply Hy2|].
      eapply Forall_impl; [exact Hyl|].
      intros z Hz. simpl in Hz. etrans; [by apply Hy2|done].
Qed.

Lemma js_sort_sorted (R : A -> A -> Prop) (l : list A) :
  Transitive R ->
  StronglySorted (agrees compareFn R) l ->
  StronglySorted R (js_sort compareFn l).
Proof.
  intros HR. induction l as [|x l IH]; intros Hs; simpl.
  - constructor.
  - apply StronglySorted_inv in Hs as [Hs Hx].
    apply sort_insert_sorted; [done| |by apply IH].
    by rewrite js_sort_perm.
Qed.

(** A comparator that does not see what [g] changes commutes with it. *)
Lemma js_sort_map (g : A -> A) (l : list A) :
  (forall a b, compareFn (g a) (g b) = compareFn a b) ->
  js_sort compareFn (map g l) = map g (js_sort compareFn l).
Proof.
  intros Hg. induction l as [|x l IH]; simpl; [done|].
  rewrite IH. generalize (js_sort compareFn l). intros s.
  induction s as [|y s IHs]; simpl; [done|].
  rewrite Hg. destruct (js_lt _ _); simpl; by rewrite ?IHs.
Qed.
End SortFacts.

Lemma StronglySorted_all {A : Type} (R : A -> A -> Prop) (l : list A) :
  (forall x y, R x y) -> StronglySorted R l.
Proof.
  intros H. induction l as [|x l IH]; constructor; [done|].
  apply Forall_forall. intros y _. apply H.
Qed.

Lemma StronglySorted_weaken {A : Type} (R R' : A -> A -> Prop) (l : list A) :
  (forall x y, R x y -> R' x y) ->
  StronglySorted R l -> StronglySorted R' l.
Proof.
  intros H. induction 1 as [|x l Hs IH Hx]; constructor; [done|].
  eapply Forall_impl; [exact Hx|]. intros y. apply H.
Qed.

Lemma extent_on_grid (a : SilenceInterval) : js_on_grid (extent a).
Proof. apply round64_on_grid. Qed.

Lemma js_lt_trans (x y z : JsNumber) :
  js_lt x y = true -> js_lt y z = true -> js_lt x z = true.
Proof.
  destruct x, y, z; simpl; try done.
  rewrite !Qltb_lt. lra.
Qed.

Lemma js_lt_le_trans (x y z : JsNumber) :
  js_on_grid x -> js_on_grid y -> js_on_grid z ->
  js_lt x y = true -> js_lt z y = false -> js_lt x z = true.
Proof.
  intros Hx Hy Hz. destruct x, y, z; simpl in *; try done.
  rewrite !Qltb_lt, Qltb_ge. lra.
Qed.

Lemma js_le_lt_trans (x y z : JsNumber) :
  js_on_grid x -> js_on_grid y -> js_on_grid z ->
  js_lt y x = false -> js_lt y z = true -> js_lt x z = true.
Proof.
  intros Hx Hy Hz. destruct x, y, z; simpl in *; try done.
  rewrite !Qltb_lt, Qltb_ge. lra.
Qed.

Lemma js_le_trans (x y z : JsNumber) :
  js_on_grid x -> js_on_grid y -> js_on_grid z ->
  js_lt y x = false -> js_lt z y = false -> js_lt z x = false.
Proof.
  intros Hx Hy Hz. destruct x, y, z; simpl in *; try done.
  rewrite !Qltb_ge. lra.
Qed.

Lemma js_lt_asym (x y : JsNumber) :
  js_lt x y = true -> js_lt y x = false.
Proof.
  destruct x, y; simpl; try done. rewrite Qltb_lt, Qltb_ge. lra.
Qed.

Lemma longer_first_trans : Transitive longer_first.
Proof.
  intros x y z. unfold longer_first, not_shorter.
  pose proof (extent_on_grid x) as Hx. pose proof (extent_on_grid y) as Hy.
  pose proof (extent_on_grid z) as Hz.
  intros [Hxy|(Hxy & Hyx & Sxy)] [Hyz|(Hyz & Hzy & Syz)].
  - left. by apply (js_lt_trans _ (extent y)).
  - left. by apply (js_le_lt_trans _ (extent y)).
  - left. by apply (js_lt_le_trans _ (extent y)).
  - right. split; [|split; [|lra]].
    + by apply (js_le_trans _ (extent y)).
    + by apply (js_le_trans _ (extent y)).
Qed.

Lemma starts_before_trans : Transitive starts_before.
Proof. intros x y z. unfold starts_before. lra. Qed.

Lemma sort_by_duration_sorted (l : list SilenceInterval) :
  ordered_by_start si_start l ->
  StronglySorted longer_first (js_sort by_duration_desc l).
Proof.
  intros Hl. apply js_sort_sorted; [apply longer_first_trans|].
  eapply StronglySorted_weaken; [|exact Hl].
  intros x y Hxy. simpl in Hxy.
  unfold agrees, by_duration_desc, longer_first, not_shorter.
  fold (extent x) (extent y).
  rewrite (js_sub_negative _ _ (extent_on_grid x) (extent_on_grid y)).
  split; [by left|]. intros Hle.
  destruct (js_lt (extent y) (extent x)) eqn:E; [by left|by right].
Qed.

Lemma sort_by_start_sorted (l : list SilenceInterval) :
  ordered_by_start si_start (js_sort by_start_asc l).
Proof.
  apply (js_sort_sorted by_start_asc starts_before);
    [apply starts_before_trans|].
  apply StronglySorted_all. intros x y.
  unfold agrees, by_start_asc, starts_before. simpl.
  rewrite Qltb_lt, Qltb_ge. lra.
Qed.

Lemma example_twelve_ordered : ordered_by_start si_start example_twelve.
Proof. repeat constructor; simpl; lra. Qed.

(** What the cap selects from more than 10 intervals. *)
Lemma limitSilences_selects (l : list SilenceInterval) :
  ordered_by_start si_start l ->
  (10 < length l)%nat ->
  length (limitSilences l) = 10%nat
  /\ exists dropped,
       l ≡ₚ limitSilences l ++ dropped
       /\ length dropped = (length l - 10)%nat
       /\ forall x y, x ∈ limitSilences l -> y ∈ dropped -> longer_first x y.
Proof.
  intros Hl Hlen. unfold limitSilences.
  pose proof Hlen as Hlt. apply Nat.ltb_lt in Hlt. rewrite Hlt.
  pose proof (sort_by_duration_sorted l Hl) as Hsorted.
  set (sorted := js_sort by_duration_desc l) in *.
  assert (length sorted = length l) as Hsl by apply js_sort_length.
  split.
  - rewrite js_sort_length, length_take. lia.
  - exists (drop 10 sorted). split; [|split].
    + rewrite js_sort_perm, take_drop. symmetry. apply js_sort_perm.
    + rewrite length_drop. lia.
    + intros x y Hx Hy. rewrite js_sort_perm in Hx.
      rewrite <- (take_drop 10 sorted) in Hsorted.
      apply (StronglySorted_app_1_elem_of _ _ _ _ _ Hsorted Hx Hy).
Qed.

Lemma longer_first_not_shorter (x y : SilenceInterval) :
  longer_first x y ->
  not_shorter x y /\ (not_shorter y x -> (si_start x <= si_start y)%Q).
Proof.
  unfold longer_first, not_shorter.
  intros [Hxy|(Hxy & Hyx & Hstart)]; [|done].
  split; [by apply js_lt_asym|]. intros Hyx. congruence.
Qed.

(** C4.  On a list ordered by start the cap returns its input when that
    has at most 10 intervals.  Otherwise it returns exactly 10 intervals,
    ordered by start; the input is these 10 and the [dropped] ones, and no
    interval that is kept is shorter than a dropped one, the length of an
    interval being the double [end - start] that the comparator computes;
    of a kept and a dropped interval that are equally long by that number
    the kept one starts no later.  In particular 12 intervals give 10,
    without the two shortest. *)
Theorem limitSilences_keeps_longest (silences : list SilenceInterval) :
  ordered_by_start si_start silences ->
  ((length silences <= 10)%nat -> limitSilences silences = silences)
  /\ ((10 < length silences)%nat ->
      length (limitSilences silences) = 10%nat
      /\ ordered_by_start si_start (limitSilences silences)
      /\ exists dropped,
           silences ≡ₚ limitSilences silences ++ dropped
           /\ length dropped = (length silences - 10)%nat
           /\ forall x y, x ∈ limitSilences silences -> y ∈ dropped ->
                not_shorter x y
                /\ (not_shorter y x -> (si_start x <= si_start y)%Q))
  /\ limitSilences example_twelve
     = [mkSilence 0 5 5; mkSilence 10 14 4; mkSilence 20 23 3;
        mkSilence 30 35 5; mkSilence 50 52 2; mkSilence 60 66 6;
        mkSilence 70 73 3; mkSilence 80 82 2; mkSilence 90 94 4;
        mkSilence 100 107 7].
Proof.
  intros Hl. split; [|split].
  - intros Hlen. unfold limitSilences. apply Nat.ltb_ge in Hlen.
    by rewrite Hlen.
  - intros Hlen.
    destruct (limitSilences_selects silences Hl Hlen)
      as (H10 & dropped & Hperm & Hdropped & Hlonger).
    split; [done|]. split.
    + unfold limitSilences. apply Nat.ltb_lt in Hlen. rewrite Hlen.
      apply sort_by_start_sorted.
    + exists dropped. split; [done|]. split; [done|].
      intros x y Hx Hy. apply longer_first_not_shorter. by apply Hlonger.
  - vm_compute. reflexivity.
Qed.

Lemma limitSilences_keeps_longest_witness :
  ordered_by_start si_start example_twelve
  /\ length (limitSilences example_twelve) = 10%nat.
Proof.
  split; [exact example_twelve_ordered|].
  destruct (limitSilences_keeps_longest example_twelve
              example_twelve_ordered) as (_ & H & _).
  apply H. simpl. lia.
Defined.

(** The lengths that the cap compares are rounded.  In [example_eleven]
    the second interval is longer than the first, both have the computed
    length 0.5, and the cap keeps the first and drops the second. *)
Example limitSilences_ties_after_rounding :
  (double 0.6 - double 0.1 < double 3.6 - double 3.1)%Q
  /\ js_sub (double 0.6) (double 0.1) = Finite (1 # 2)
  /\ js_sub (double 3.6) (double 3.1) = Finite (1 # 2)
  /\ limitSilences example_eleven
     = pair_silences
         (map double [0.1; 10; 20; 30; 40; 50; 60; 70; 80; 90]%Q)
         (map double [0.6; 11; 21; 31; 41; 51; 61; 71; 81; 91]%Q).
Proof. repeat split; by vm_compute. Qed.

(** ** The duration field *)

Lemma chain_concat {A : Type} (lo hi : A -> Q) (ls : list (list A)) :
  chain lo hi (concat ls) -> Forall (chain lo hi) ls.
Proof.
  induction ls as [|l ls IH]; intros [Hwf Hs]; [constructor|].
  simpl in Hwf, Hs. apply Forall_app in Hwf as [Hwf1 Hwf2].
  apply StronglySorted_app in Hs as (_ & Hs1 & Hs2).
  constructor; [done|]. by apply IH.
Qed.

Lemma chain_last_end (h : SilenceInterval) (t : list SilenceInterval) :
  chain si_start si_end (h :: t) -> t <> [] ->
  (si_end h < si_end (run_last (h, t)))%Q.
Proof.
  revert h. induction t as [|c t IH]; intros h [Hwf Hs] Hne; [done|].
  rewrite run_last_cons.
  apply Forall_cons in Hwf as [Hh Hwf].
  apply StronglySorted_inv in Hs as [Hs Hht].
  apply Forall_cons in Hht as [Hhc _].
  pose proof Hwf as Hwf'. apply Forall_cons in Hwf' as [Hc _].
  unfold well_formed in Hh, Hc.
  destruct t as [|d t].
  - unfold run_last. simpl. lra.
  - assert (si_end c < si_end (run_last (c, d :: t)))%Q
      by (by apply IH). lra.
Qed.

Lemma run_last_elem (r : Run) : run_last r ∈ run_items r.
Proof.
  destruct r as [h t]. unfold run_last, run_items. cbn [fst snd].
  revert h. induction t as [|c t IH]; intros h; [by left|].
  destruct t as [|d t]; [right; by left|].
  change (List.last (c :: d :: t) h) with (List.last (d :: t) h).
  specialize (IH h). apply elem_of_cons in IH as [-> | IH]; [by left|].
  right. by right.
Qed.

Lemma pair_silences_duration (starts ends : list Q) :
  Forall (fun a => si_duration a = extent a) (pair_silences starts ends).
Proof.
  revert ends. induction starts as [|s starts IH]; intros [|e ends];
    simpl; constructor; [done|apply IH].
Qed.

Lemma example_close_pair_ok :
  silence_list example_close_pair /\ Forall as_detected example_close_pair.
Proof.
  split.
  - apply interval_list_chain. split.
    + repeat constructor.
    + repeat constructor; simpl; lra.
  - unfold example_close_pair, as_detected.
    repeat (apply Forall_cons; split;
            [split; [by vm_compute|]; split; by vm_compute|]).
    by apply Forall_nil.
Qed.

Lemma example_detected_ok :
  silence_list example_detected /\ Forall as_detected example_detected.
Proof.
  split.
  - apply interval_list_chain. split.
    + unfold example_detected. simpl pair_silences.
      repeat (apply Forall_cons; split; [by vm_compute|]). by apply Forall_nil.
    + unfold example_detected. simpl pair_silences.
      repeat (apply SSorted_cons;
              [|repeat (apply Forall_cons; split; [by vm_compute|]);
                by apply Forall_nil]).
      apply SSorted_nil.
  - unfold example_detected, as_detected. simpl pair_silences.
    repeat (apply Forall_cons; split;
            [split; [by vm_compute|]; split; by vm_compute|]).
    by apply Forall_nil.
Qed.

(** C10.  [mergeSilences] never writes a [duration] field: every output
    interval carries the field of the first interval of its run.  So, on an
    ordered, non-overlapping input whose intervals are as [detectSilences]
    writes them (the field is the double [end - start], the times are
    doubles that are not negative), an output interval made of two or more
    intervals has a field strictly below its [end] minus its [start].  The
    cap does not read the field: overwriting the fields of its input in any
    way changes neither the intervals it selects nor their order, and of
    more than 10 merged intervals it keeps 10 none of which is shorter, by
    the computed [end - start], than one it drops.  A cap that ranked by the
    field would select differently: on the merge of [example_close_pair] it
    would drop the interval [(0, 10)], the longest. *)
Theorem mergeSilences_keeps_first_duration
    (silences : list SilenceInterval) (minGap : Q) :
  map si_duration (mergeSilences silences minGap)
  = map (fun r : Run => si_duration r.1) (runs minGap silences)
  /\ (silence_list silences ->
      Forall as_detected silences ->
      Forall (fun r : Run =>
                r.2 <> [] ->
                js_lt (si_duration (coalesce r))
                  (Finite (si_end (coalesce r) - si_start (coalesce r)))
                = true)
        (runs minGap silences))
  /\ (forall f l,
        limitSilences (map (with_duration f) l)
        = map (with_duration f) (limitSilences l))
  /\ (silence_list silences ->
      (10 < length (mergeSilences silences minGap))%nat ->
      length (limitSilences (mergeSilences silences minGap)) = 10%nat
      /\ exists dropped,
           mergeSilences silences minGap
           ≡ₚ limitSilences (mergeSilences silences minGap) ++ dropped
           /\ forall x y,
                x ∈ limitSilences (mergeSilences silences minGap) ->
                y ∈ dropped -> not_shorter x y)
  /\ limitSilences (mergeSilences example_close_pair 2)
     <> js_sort by_start_asc
          (take 10 (js_sort by_duration_field_desc
                      (mergeSilences example_close_pair 2))).
Proof.
  split; [|split; [|split; [|split]]].
  - rewrite mergeSilences_runs, map_map. done.
  - intros Hl Hdet. apply interval_list_chain in Hl.
    rewrite <- (runs_concat minGap silences) in Hl, Hdet.
    apply chain_concat in Hl.
    induction (runs minGap silences) as [|[h t] rs IH]; [constructor|].
    simpl in Hl. cbn [map concat] in Hdet.
    apply Forall_cons in Hl as [Hr Hl].
    apply Forall_app in Hdet as [Hrun Hdet].
    change (run_items (h, t)) with (h :: t) in Hrun.
    constructor; [|by apply IH].
    intros Hne. simpl in Hne.
    pose proof (chain_last_end h t Hr Hne) as Hlast.
    pose proof (run_last_elem (h, t)) as Helem.
    change (run_items (h, t)) with (h :: t) in Helem.
    rewrite Forall_forall in Hrun.
    destruct (Hrun _ Helem) as (_ & Hhi & _).
    destruct (Hrun h ltac:(by left)) as (Hstart & Hlo & Hdur).
    destruct Hr as [Hwf _]. apply Forall_cons in Hwf as [Hh _].
    unfold well_formed in Hh. simpl in Hh.
    destruct (round64_below_next_double (si_end h - si_start h) (si_end h)
                (si_end (run_last (h, t)))) as (r & Hr & Hlt);
      [lra|lra|done|done|done|].
    unfold coalesce. cbn [si_duration si_end si_start fst].
    rewrite Hdur. unfold extent. simpl js_sub. rewrite Hr. simpl.
    apply Qltb_lt. lra.
  - intros f l. unfold limitSilences. rewrite length_map.
    destruct (10 <? _)%nat; [|done].
    rewrite (js_sort_map by_duration_desc (with_duration f)) by done.
    rewrite <- fmap_take.
    by rewrite (js_sort_map by_start_asc (with_duration f)).
  - intros Hl Hlen.
    assert (ordered_by_start si_start (mergeSilences silences minGap))
      as Hord.
    { apply interval_list_chain in Hl.
      apply (mergeSilences_chain _ minGap) in Hl.
      by apply interval_list_chain in Hl as (_ & Hord & _). }
    destruct (limitSilences_selects _ Hord Hlen)
      as (H10 & dropped & Hperm & _ & Hlonger).
    split; [done|]. exists dropped. split; [done|].
    intros x y Hx Hy. by apply longer_first_not_shorter, Hlonger.
  - vm_compute. discriminate.
Qed.

Lemma mergeSilences_keeps_first_duration_witness :
  Forall (fun r : Run =>
            r.2 <> [] ->
            js_lt (si_duration (coalesce r))
              (Finite (si_end (coalesce r) - si_start (coalesce r))) = true)
    (runs 2 example_detected).
Proof.
  destruct example_detected_ok as [Hl Hdet].
  by apply (mergeSilences_keeps_first_duration example_detected 2).
Defined.

(** ** removeSilences *)

(** C8.  When the metadata of the input can be read and the silence list
    is empty, or the keep segments derived from it are, [removeSilences]
    makes exactly two engine calls, the probe of the input and the copy of
    the input to the output location, and never the re-encoding run.  When
    the copy ends with exit code 0 the promise resolves with
    [timeSaved = 0], [percentageSaved = 0] and
    [finalDuration = originalDuration], the duration of the input; the
    only rejection possible is the one of the copy itself. *)
Theorem removeSilences_pass_through (eng : Engine)
    (inputPath outputPath : string) (silences : list SilenceInterval)
    (metadata : VideoMetadata) :
  getVideoMetadata eng inputPath = inr metadata ->
  silences = [] \/ buildKeepSegments silences (vm_duration metadata) = [] ->
  (removeSilences eng inputPath outputPath silences).1
  = [Probe inputPath; Copy inputPath outputPath]
  /\ (forall stderr,
        ffmpeg_copy eng inputPath outputPath = Closed (Some 0%Z) stderr ->
        exists result,
          (removeSilences eng inputPath outputPath silences).2 = inr result
          /\ res_timeSaved result = 0%Q
          /\ res_percentageSaved result = 0%Q
          /\ res_finalDuration result = res_originalDuration result
          /\ res_originalDuration result = vm_duration metadata
          /\ res_outputPath result = outputPath
          /\ res_silencesRemoved result = length silences)
  /\ (forall error,
        (removeSilences eng inputPath outputPath silences).2 = inl error ->
        (copyFile eng inputPath outputPath).2 = inl error).
Proof.
  intros Hmeta Hcase. unfold removeSilences, probe, perform, await.
  rewrite Hmeta.
  assert ((length silences =? 0)%nat = false ->
          (length (buildKeepSegments silences (vm_duration metadata)) =? 0)%nat
          = true) as Hkeep.
  { intros Hlen. destruct Hcase as [-> | ->]; [done|done]. }
  destruct (length silences =? 0)%nat eqn:Hlen.
  - apply Nat.eqb_eq in Hlen.
    unfold copyFile, perform.
    destruct (ffmpeg_copy eng inputPath outputPath) as [e|code err];
      simpl.
    + split; [done|]. split; [done|]. by intros error [= <-].
    + destruct (code_nonzero code) eqn:Hcode; simpl.
      * split; [done|]. split; [|by intros error [= <-]].
        by intros stderr [= -> _].
      * split; [done|]. split; [|done].
        intros stderr _. eexists. split; [done|]. by rewrite Hlen.
  - rewrite (Hkeep eq_refl).
    unfold copyFile, perform.
    destruct (ffmpeg_copy eng inputPath outputPath) as [e|code err];
      simpl.
    + split; [done|]. split; [done|]. by intros error [= <-].
    + destruct (code_nonzero code) eqn:Hcode; simpl.
      * split; [done|]. split; [|by intros error [= <-]].
        by intros stderr [= -> _].
      * split; [done|]. split; [|done].
        intros stderr _. eexists. done.
Qed.

Lemma removeSilences_pass_through_witness :
  (removeSilences example_engine "/tmp/videos/a.mp4" "/tmp/videos/a_cut.mp4"
     [mkSilence 0 10 10]).1
  = [Probe "/tmp/videos/a.mp4";
     Copy "/tmp/videos/a.mp4" "/tmp/videos/a_cut.mp4"].
Proof.
  apply (removeSilences_pass_through example_engine "/tmp/videos/a.mp4"
           "/tmp/videos/a_cut.mp4" [mkSilence 0 10 10] example_metadata).
  - reflexivity.
  - right. reflexivity.
Defined.

(** ** Failures and retries *)

Lemma settle_rejected_job (now : Z) (k : nat) (p : Pipeline)
    (error : JsError) (s : JobQueueService) (j : Job) :
  heap s !! p_job p = Some j ->
  exists s',
    settle_rejected now k p error s = Some s'
    /\ heap s' !! p_job p = Some (on_failure now error j).1
    /\ queue s'
       = (if (on_failure now error j).2 then queue s ++ [p_videoId p]
          else queue s)
    /\ processing s' = processing s ∖ {[p_videoId p]}
    /\ inflight s' = delete k (inflight s)
    /\ timers s' = S (timers s)
    /\ jobs s' = jobs s
    /\ maxConcurrentJobs s' = maxConcurrentJobs s.
Proof.
  intros Hj. unfold settle_rejected. rewrite Hj. simpl.
  destruct (on_failure now error j) as [j' requeue].
  eexists. split; [done|]. simpl.
  split; [|done].
  apply list_lookup_insert_eq. by eapply lookup_lt_Some.
Qed.

(** C5.  A pipeline that fails with an error text that has none of the
    permanent markers: below the budget ([retries < 1]) the catch block adds
    one to the retry count, sets the progress to 0 and the status to
    queued, and appends the job ID to the tail of the pending queue; at the
    budget it sets the status to failed with the failed-after-several-
    attempts message and leaves the queue alone.  So, in [retry_scenario],
    the first such failure puts the job back in the queue and the second
    one ends it as failed. *)
Theorem transient_failure_retries_once (now : Z) (k : nat) (p : Pipeline)
    (error : JsError) (s : JobQueueService) (j : Job) :
  heap s !! p_job p = Some j ->
  isProcessingError (errorMessage_of error) = false ->
  (exists s' j',
     settle_rejected now k p error s = Some s'
     /\ heap s' !! p_job p = Some j'
     /\ ((job_retries j < 1)%Z ->
         job_retries j' = (job_retries j + 1)%Z
         /\ job_progress j' = 0%Z
         /\ job_status j' = Queued
         /\ queue s' = queue s ++ [p_videoId p])
     /\ ((1 <= job_retries j)%Z ->
         job_status j' = Failed
         /\ job_error j' = Some msg_max_retries
         /\ job_retries j' = job_retries j
         /\ queue s' = queue s))
  /\ (exists s1 j1,
        run (take 2 retry_scenario) (new_service 2) = Some s1
        /\ getJob "a" s1 = Some j1
        /\ job_status j1 = Queued /\ job_retries j1 = 1%Z
        /\ job_progress j1 = 0%Z /\ queue s1 = ["a"])
  /\ (exists s2 j2,
        run retry_scenario (new_service 2) = Some s2
        /\ getJob "a" s2 = Some j2
        /\ job_status j2 = Failed /\ job_error j2 = Some msg_max_retries
        /\ queue s2 = []).
Proof.
  intros Hj Htransient. split; [|split].
  - destruct (settle_rejected_job now k p error s j Hj)
      as (s' & Hs' & Hheap & Hqueue & _).
    exists s', (on_failure now error j).1.
    split; [done|]. split; [done|].
    rewrite Hqueue. unfold on_failure. rewrite Htransient.
    split.
    + intros Hlt. apply Z.ltb_lt in Hlt. by rewrite Hlt.
    + intros Hge. apply Z.ltb_ge in Hge. by rewrite Hge.
  - eexists _, _. split; [by vm_compute|]. by vm_compute.
  - eexists _, _. split; [by vm_compute|]. by vm_compute.
Qed.

Lemma transient_failure_retries_once_witness :
  exists s' j',
    settle_rejected 1 0 example_pipeline example_spawn_error example_running
    = Some s'
    /\ heap s' !! 0%nat = Some j'.
Proof.
  destruct (transient_failure_retries_once 1 0 example_pipeline
              example_spawn_error example_running
              (mkJob "a" "a" "/tmp/videos/a.mp4" "/tmp/videos/a_cut.mp4"
                 Processing 10 None None 0 0 0))
    as [(s' & j' & Hs & Hj & _) _].
  - reflexivity.
  - reflexivity.
  - exists s', j'. split; [exact Hs | exact Hj].
Defined.

Lemma detection_message_is_permanent (code : option Z) :
  isProcessingError
    (errorMessage_of
       (Error ("FFmpeg silence detection failed with code "
               +:+ show_code code))) = true.
Proof. reflexivity. Qed.

Lemma on_failure_permanent (now : Z) (error : JsError) (j : Job) :
  isProcessingError (errorMessage_of error) = true ->
  job_status (on_failure now error j).1 = Failed
  /\ job_retries (on_failure now error j).1 = job_retries j
  /\ (on_failure now error j).2 = false.
Proof.
  intros Hperm. unfold on_failure. rewrite Hperm.
  destruct (includes _ "memory" || includes _ "ENOMEM"); [done|].
  destruct (includes _ "timeout" || includes _ "killed"); done.
Qed.

(** C6, as stated, fails: in [detect_exit_scenario] the detection of a new
    job (no retry so far) ends with exit code 1 and a diagnostic text
    without any permanent marker, and the job is failed at once with the
    generic message instead of being queued again. *)
Lemma detection_exit_failure_not_requeued :
  exists s j,
    run detect_exit_scenario (new_service 2) = Some s
    /\ isProcessingError "a.mp4: Invalid data found when processing input"
       = false
    /\ getJob "a" s = Some j
    /\ job_retries j = 0%Z
    /\ job_status j = Failed
    /\ job_error j = Some msg_generic
    /\ queue s = [].
Proof.
  eexists _, _. split; [by vm_compute|]. by vm_compute.
Qed.

(** C6, amended.  A detection that ends with a nonzero exit status is
    rejected with the text [FFmpeg silence detection failed with code N],
    whatever the engine wrote; this text has permanent markers, so the job
    is failed at once, is not queued again and keeps its retry count.  A
    detection that cannot be started is classified on its own error text:
    without a permanent marker, and with a retry count below 1, the job is
    queued again with one more retry. *)
Theorem detection_failure_classified_on_message (k : nat) (p : Pipeline)
    (s : JobQueueService) (j : Job) (now : Z) :
  inflight s !! k = Some p ->
  p_phase p = Detecting ->
  heap s !! p_job p = Some j ->
  (forall code stderrOutput starts ends,
     code_nonzero code = true ->
     exists s' j',
       detect_settles k (DetectClosed code stderrOutput starts ends) now s
       = Some s'
       /\ heap s' !! p_job p = Some j'
       /\ job_status j' = Failed
       /\ job_retries j' = job_retries j
       /\ queue s' = queue s)
  /\ (forall error,
        isProcessingError (errorMessage_of error) = false ->
        (job_retries j < 1)%Z ->
        exists s' j',
          detect_settles k (DetectSpawnError error) now s = Some s'
          /\ heap s' !! p_job p = Some j'
          /\ job_status j' = Queued
          /\ job_retries j' = (job_retries j + 1)%Z
          /\ queue s' = queue s ++ [p_videoId p]).
Proof.
  intros Hk Hphase Hj. split.
  - intros code stderrOutput starts ends Hcode.
    destruct (settle_rejected_job now k p
                (Error ("FFmpeg silence detection failed with code "
                        +:+ show_code code)) s j Hj)
      as (s' & Hs' & Hheap & Hqueue & _).
    exists s', (on_failure now
                  (Error ("FFmpeg silence detection failed with code "
                          +:+ show_code code)) j).1.
    unfold detect_settles. rewrite Hk. simpl. rewrite Hphase.
    unfold detectSilences. rewrite Hcode.
    split; [done|]. split; [done|].
    rewrite Hqueue.
    destruct (on_failure_permanent now _ j
                (detection_message_is_permanent code)) as (H1 & H2 & H3).
    by rewrite H3.
  - intros error Htransient Hlt.
    destruct (settle_rejected_job now k p error s j Hj)
      as (s' & Hs' & Hheap & Hqueue & _).
    exists s', (on_failure now error j).1.
    unfold detect_settles. rewrite Hk. simpl. rewrite Hphase. simpl.
    split; [done|]. split; [done|].
    rewrite Hqueue. unfold on_failure. rewrite Htransient.
    apply Z.ltb_lt in Hlt. by rewrite Hlt.
Qed.

Lemma detection_failure_classified_on_message_witness :
  exists s' j',
    detect_settles 0 (DetectClosed (Some 1%Z) "" [] []) 1 example_running
    = Some s'
    /\ heap s' !! 0%nat = Some j'
    /\ job_status j' = Failed.
Proof.
  destruct (detection_failure_classified_on_message 0 example_pipeline
              example_running
              (mkJob "a" "a" "/tmp/videos/a.mp4" "/tmp/videos/a_cut.mp4"
                 Processing 10 None None 0 0 0) 1)
    as [H _].
  - reflexivity.
  - reflexivity.
  - reflexivity.
  - destruct (H (Some 1%Z) "" [] [] eq_refl)
      as (s' & j' & Hs & Hj & Hst & _).
    exists s', j'. split; [exact Hs|]. split; [exact Hj | exact Hst].
Defined.

(** ** Pending and active *)

Lemma NoDup_delete_notin {A : Type} (l : list A) (k : nat) (x : A) :
  NoDup l -> l !! k = Some x -> x ∉ delete k l.
Proof.
  intros Hnd Hk. rewrite delete_take_drop.
  rewrite <- (take_drop_middle l k x Hk) in Hnd.
  apply NoDup_app in Hnd as (_ & H1 & H2).
  apply NoDup_cons in H2 as [H2 _].
  intros [Hin|Hin]%elem_of_app; [|done].
  apply (H1 x Hin). by left.
Qed.

Lemma remove_first_sublist (videoId : string) (q : list string) :
  remove_first videoId q `sublist_of` q.
Proof.
  induction q as [|x q IH]; simpl; [constructor|].
  destruct (String.eqb x videoId); by constructor.
Qed.

Lemma processNext_inv (now : Z) (s : JobQueueService) :
  queue_inv s -> queue_inv (processNext now s).
Proof.
  intros Hinv. unfold processNext.
  destruct (negb (canAcceptNewJob s) || (length (queue s) =? 0)%nat);
    [done|].
  destruct (queue s) as [|videoId rest] eqn:Hqueue; [done|].
  destruct Hinv as (Hq & Hdis & Hids & Hact). rewrite Hqueue in Hq, Hdis.
  apply NoDup_cons in Hq as [Hhead Hrest].
  assert (queue_inv
            (mkService (heap s) (jobs s) rest (processing s)
               (maxConcurrentJobs s) (inflight s) (timers s))) as Hshift.
  { repeat split; try done. simpl. intros x Hx. apply Hdis. by right. }
  destruct (String.eqb videoId ""); [done|]. simpl.
  destruct (jobs s !! videoId) as [job|]; [|done].
  unfold queue_inv, inflight_ids in *. simpl.
  assert (videoId ∉ processing s) as Hfree by (apply Hdis; by left).
  split; [done|]. split; [|split].
  - intros x Hx. assert (x ∉ processing s) by (apply Hdis; by right).
    assert (x <> videoId) by (by intros ->).
    rewrite elem_of_union, elem_of_singleton. tauto.
  - rewrite fmap_app. simpl. apply NoDup_app. split; [done|].
    split; [|apply NoDup_singleton].
    intros x Hx Hx'. apply list_elem_of_singleton in Hx' as ->.
    by apply Hfree, Hact.
  - intros x. rewrite fmap_app, elem_of_app. simpl.
    rewrite list_elem_of_singleton, elem_of_union, elem_of_singleton.
    intros [Hx| ->]; [right; by apply Hact|by left].
Qed.

Lemma settle_inv (s : JobQueueService) (k : nat) (videoId : string)
    (requeue : bool) (heap' : list Job) :
  queue_inv s ->
  inflight_ids s !! k = Some videoId ->
  queue_inv
    (finally k videoId
       (mkService heap' (jobs s)
          (if requeue then queue s ++ [videoId] else queue s)
          (processing s) (maxConcurrentJobs s) (inflight s) (timers s))).
Proof.
  intros (Hq & Hdis & Hids & Hact) Hk.
  assert (videoId ∈ processing s) as Hactive.
  { apply Hact. by eapply list_elem_of_lookup_2. }
  unfold queue_inv, inflight_ids, finally in *. simpl.
  split; [|split; [|split]].
  - destruct requeue; [|done]. apply NoDup_app. split; [done|].
    split; [|apply NoDup_singleton].
    intros x Hx Hx'. apply list_elem_of_singleton in Hx' as ->.
    by apply (Hdis videoId).
  - intros x Hx.
    assert (x ∈ queue s \/ x = videoId) as [Hx'| ->].
    { destruct requeue; [|by left].
      apply elem_of_app in Hx as [Hx|Hx]; [by left|].
      right. by apply list_elem_of_singleton in Hx. }
    + specialize (Hdis x Hx'). rewrite elem_of_difference. tauto.
    + rewrite elem_of_difference, elem_of_singleton. tauto.
  - rewrite list_fmap_delete. eapply sublist_NoDup; [done|apply sublist_delete].
  - intros x. rewrite list_fmap_delete. intros Hx.
    assert (x <> videoId).
    { intros ->. by apply (NoDup_delete_notin _ _ _ Hids Hk). }
    apply list_elem_of_delete_inv in Hx. specialize (Hact x Hx).
    rewrite elem_of_difference, elem_of_singleton. tauto.
Qed.

Lemma settle_rejected_inv (now : Z) (k : nat) (p : Pipeline)
    (error : JsError) (s s' : JobQueueService) :
  queue_inv s ->
  inflight s !! k = Some p ->
  settle_rejected now k p error s = Some s' ->
  queue_inv s'.
Proof.
  intros Hinv Hk. unfold settle_rejected.
  destruct (heap s !! p_job p) as [j|]; [|done]. simpl.
  destruct (on_failure now error j) as [j' requeue].
  intros [= <-]. apply settle_inv; [done|].
  unfold inflight_ids. by rewrite list_lookup_fmap, Hk.
Qed.

Lemma step_inv (ev : Event) (s s' : JobQueueService) :
  queue_inv s ->
  match ev with
  | EvAddJob videoId _ _ _ => fresh_id videoId s
  | _ => True
  end ->
  step ev s = Some s' ->
  queue_inv s'.
Proof.
  intros Hinv Hguard Hstep.
  destruct ev as [videoId inputPath outputPath now | now | k r now
                 | k eng now | videoId | maxAge now]; simpl in Hstep.
  - injection Hstep as <-. unfold addJob. apply processNext_inv.
    destruct Hinv as (Hq & Hdis & Hids & Hact).
    destruct Hguard as [Hnq Hnp].
    unfold queue_inv, inflight_ids in *. simpl.
    split; [|split; [|done]].
    + apply NoDup_app. split; [done|]. split; [|apply NoDup_singleton].
      intros x Hx Hx'. by apply list_elem_of_singleton in Hx' as ->.
    + intros x [Hx|Hx]%elem_of_app; [by apply Hdis|].
      by apply list_elem_of_singleton in Hx as ->.
  - destruct (timers s) as [|n]; [done|]. injection Hstep as <-.
    by apply processNext_inv.
  - unfold detect_settles in Hstep.
    destruct (inflight s !! k) as [p|] eqn:Hk; [|done]. simpl in Hstep.
    destruct (p_phase p); [|done].
    destruct (detectSilences r) as [error|silences].
    + by eapply settle_rejected_inv.
    + injection Hstep as <-.
      destruct Hinv as (Hq & Hdis & Hids & Hact).
      unfold queue_inv, inflight_ids in *. simpl.
      rewrite list_fmap_insert. simpl.
      rewrite list_insert_id; [done|].
      by rewrite list_lookup_fmap, Hk.
  - unfold remove_settles in Hstep.
    destruct (inflight s !! k) as [p|] eqn:Hk; [|done]. simpl in Hstep.
    destruct (p_phase p) as [|silences]; [done|].
    destruct (heap s !! p_job p) as [j|]; [|done]. simpl in Hstep.
    destruct (removeSilences eng _ _ _).2 as [error|result].
    + by eapply settle_rejected_inv.
    + injection Hstep as <-.
      apply (settle_inv s k (p_videoId p) false); [done|].
      unfold inflight_ids. by rewrite list_lookup_fmap, Hk.
  - injection Hstep as <-. unfold cancelJob.
    destruct (jobs s !! videoId) as [job|]; [|done].
    destruct Hinv as (Hq & Hdis & Hids & Hact).
    unfold queue_inv, inflight_ids in *. simpl.
    pose proof (remove_first_sublist videoId (queue s)) as Hsub.
    split; [by apply (sublist_NoDup _ _ Hq)|]. split; [|done].
    intros x Hx. apply Hdis. by eapply elem_of_sublist.
  - injection Hstep as <-. done.
Qed.

Lemma run_inv (evs : list Event) :
  forall s s',
    queue_inv s -> guarded evs s -> run evs s = Some s' -> queue_inv s'.
Proof.
  induction evs as [|ev evs IH]; intros s s' Hinv Hg Hrun; simpl in *.
  - by injection Hrun as <-.
  - destruct Hg as [Hev Hrest].
    destruct (step ev s) as [s1|] eqn:Hstep; [|done]. simpl in Hrun.
    eapply IH; [|exact Hrest|exact Hrun]. by eapply step_inv.
Qed.

Lemma new_service_inv (maxConcurrent : Z) :
  queue_inv (new_service maxConcurrent).
Proof.
  unfold queue_inv, inflight_ids. simpl.
  repeat split; try apply NoDup_nil_2; intros x Hx; by apply elem_of_nil in Hx.
Qed.

(** C1, as stated, fails: in [resubmit_scenario] the job [a] is submitted
    again while its first run is still active and both slots are taken;
    afterwards [a] is in the pending queue and in the active set. *)
Lemma resubmitted_id_pending_and_active :
  exists s,
    run resubmit_scenario (new_service 2) = Some s
    /\ "a" ∈ queue s /\ "a" ∈ processing s.
Proof.
  eexists. split; [by vm_compute|].
  split; [by left|]. apply (bool_decide_unpack _). by vm_compute.
Qed.

(** Submitting an ID again while it is only pending breaks the invariant
    as well, one step later: the queue holds the ID twice, and the next
    [processNext] moves one of the two to the active set. *)
Lemma resubmitted_pending_id_pending_and_active :
  exists s,
    run resubmit_pending_scenario (new_service 1) = Some s
    /\ "a" ∈ queue s /\ "a" ∈ processing s.
Proof.
  eexists. split; [by vm_compute|].
  split; [by left|]. apply (bool_decide_unpack _). by vm_compute.
Qed.

(** C1, amended.  In every state reached by steps (submit, timer, settled
    detection or removal with its re-queue branch, cancel, sweep) in which
    each [addJob] is for an ID that is at that moment neither pending nor
    active, no ID is both in the pending queue and in the active set, and
    no ID is twice in the pending queue. *)
Theorem pending_and_active_disjoint (maxConcurrent : Z) (evs : list Event)
    (s : JobQueueService) :
  guarded evs (new_service maxConcurrent) ->
  run evs (new_service maxConcurrent) = Some s ->
  (forall videoId, ~ (videoId ∈ queue s /\ videoId ∈ processing s))
  /\ NoDup (queue s).
Proof.
  intros Hg Hrun.
  destruct (run_inv evs _ s (new_service_inv maxConcurrent) Hg Hrun)
    as (Hq & Hdis & _).
  split; [|done]. intros videoId [H1 H2]. by apply (Hdis videoId).
Qed.

Lemma pending_and_active_disjoint_witness :
  exists s, run retry_scenario (new_service 2) = Some s /\ NoDup (queue s).
Proof.
  eexists. split; [vm_compute; reflexivity|].
  apply (pending_and_active_disjoint 2 retry_scenario).
  - split; [split; [apply not_elem_of_nil | apply not_elem_of_empty]|].
    vm_compute. tauto.
  - vm_compute. reflexivity.
Defined.

(** ** The concurrency ceiling *)

Lemma addJob_empty_queue (videoId inputPath outputPath : string) (now : Z)
    (s : JobQueueService) :
  queue s = [] ->
  addJob videoId inputPath outputPath now s
  = let job := mkJob videoId videoId inputPath outputPath Queued 0 None None
                 now now 0 in
    let ref := length (heap s) in
    let jobs' := <[videoId := ref]> (jobs s) in
    if canAcceptNewJob s then
      if String.eqb videoId "" then
        mkService (heap s ++ [job]) jobs' [] (processing s)
          (maxConcurrentJobs s) (inflight s) (timers s)
      else
        mkService
          (alter (fun j => set_progress 10
                             (set_updatedAt now
                                (set_progress 0 (set_status Processing j))))
             ref (heap s ++ [job]))
          jobs' [] ({[videoId]} ∪ processing s) (maxConcurrentJobs s)
          (inflight s ++ [mkPipeline videoId ref Detecting]) (timers s)
    else
      mkService (heap s ++ [job]) jobs' [videoId] (processing s)
        (maxConcurrentJobs s) (inflight s) (timers s).
Proof.
  intros Hq. unfold addJob, processNext, canAcceptNewJob. simpl.
  rewrite Hq. simpl.
  destruct (_ <? _)%Z; simpl; [|done].
  destruct (String.eqb videoId ""); [done|].
  by rewrite lookup_insert_eq.
Qed.

Lemma status_of_old (s s' : JobQueueService) (videoId other : string) :
  jobs s' = <[videoId := length (heap s)]> (jobs s) ->
  (forall ref, (ref < length (heap s))%nat -> heap s' !! ref = heap s !! ref) ->
  (forall ref, jobs s !! other = Some ref -> (ref < length (heap s))%nat) ->
  other <> videoId ->
  status_of s' other = status_of s other.
Proof.
  intros Hjobs Hheap Hrefs Hne. unfold status_of, getJob.
  rewrite Hjobs, lookup_insert_ne by done.
  destruct (jobs s !! other) as [ref|] eqn:Href; [|done]. simpl.
  by rewrite Hheap by (by apply Hrefs).
Qed.

Lemma status_of_new (s s' : JobQueueService) (videoId : string) (j : Job) :
  jobs s' = <[videoId := length (heap s)]> (jobs s) ->
  heap s' !! length (heap s) = Some j ->
  status_of s' videoId = Some (job_status j).
Proof.
  intros Hjobs Hheap. unfold status_of, getJob.
  rewrite Hjobs, lookup_insert_eq. simpl. by rewrite Hheap.
Qed.

Lemma filter_on_members {A : Type} (P Q : A -> Prop)
    `{forall x, Decision (P x)} `{forall x, Decision (Q x)} (l : list A) :
  (forall x, x ∈ l -> P x <-> Q x) -> filter P l = filter Q l.
Proof.
  induction l as [|x l IH]; intros HPQ; [done|].
  rewrite !filter_cons.
  rewrite IH by (intros y Hy; apply HPQ; by right).
  assert (P x <-> Q x) as Hx by (apply HPQ; by left).
  destruct (decide (P x)), (decide (Q x)); tauto.
Qed.

Lemma count_one_of_NoDup (q : string) (l : list string) :
  NoDup l -> q ∈ l ->
  length (filter (fun x => x = q) l) = 1%nat
  /\ length (filter (fun x => x <> q) l) = (length l - 1)%nat.
Proof.
  induction l as [|x l IH]; intros Hnd Hq; [by apply elem_of_nil in Hq|].
  apply NoDup_cons in Hnd as [Hx Hnd]. rewrite !filter_cons.
  destruct (decide (x = q)) as [->|Hne].
  - destruct (decide (q <> q)); [done|]. simpl.
    rewrite (filter_on_members (fun x => x = q) (fun _ => False) l).
    + rewrite (filter_on_members (fun x => x <> q) (fun _ => True) l).
      * clear. split; [by induction l|].
        rewrite Nat.sub_0_r. induction l; simpl; [done|]. by f_equal.
      * intros y Hy. split; [done|]. intros _ ->. done.
    + intros y Hy. split; [|done]. intros ->. done.
  - destruct (decide (x <> q)); [|done].
    apply elem_of_cons in Hq as [->|Hq]; [done|].
    destruct (IH Hnd Hq) as [IH1 IH2]. simpl. rewrite IH1, IH2.
    split; [done|]. destruct l; [by apply elem_of_nil in Hq|]. simpl. lia.
Qed.

Lemma count_status_one_queued (s : JobQueueService) (q : string)
    (ids : list string) :
  NoDup ids -> q ∈ ids ->
  (forall videoId, videoId ∈ ids ->
     status_of s videoId
     = Some (if decide (videoId = q) then Queued else Processing)) ->
  count_status Processing s ids = (length ids - 1)%nat
  /\ count_status Queued s ids = 1%nat.
Proof.
  intros Hnd Hq Hst. unfold count_status.
  destruct (count_one_of_NoDup q ids Hnd Hq) as [H1 H2].
  split; [rewrite <- H2 | rewrite <- H1]; f_equal;
    apply filter_on_members;
    intros v Hv; rewrite (Hst v Hv); destruct (decide (v = q));
    split; try done; by intros [=].
Qed.

Lemma size_processing_below (C : nat) (ids : list string)
    (s : JobQueueService) :
  below_ceiling C ids s -> NoDup ids ->
  size (processing s) = length (filter (fun videoId => videoId <> "") ids).
Proof.
  intros (_ & _ & Hproc & _) Hnd. rewrite Hproc.
  apply size_list_to_set. by apply NoDup_filter.
Qed.

Lemma below_ceiling_step (C : nat) (ids : list string)
    (s s' : JobQueueService) (videoId : string) (j : Job) :
  below_ceiling C ids s ->
  videoId ∉ ids ->
  queue s' = [] ->
  maxConcurrentJobs s' = maxConcurrentJobs s ->
  jobs s' = <[videoId := length (heap s)]> (jobs s) ->
  length (heap s') = S (length (heap s)) ->
  (forall ref, (ref < length (heap s))%nat -> heap s' !! ref = heap s !! ref) ->
  heap s' !! length (heap s) = Some j ->
  job_status j = (if decide (videoId = "") then Queued else Processing) ->
  processing s'
  = (if decide (videoId = "") then processing s
     else {[videoId]} ∪ processing s) ->
  below_ceiling C (ids ++ [videoId]) s'.
Proof.
  intros (Hq & Hmax & Hproc & Hst & Hdom & Href) Hfresh Hq' Hmax' Hjobs
    Hlen Hold Hnew Hstatus Hproc'.
  split; [done|]. split; [congruence|]. split; [|split; [|split]].
  - rewrite Hproc', filter_app, list_to_set_app_L, <- Hproc.
    destruct (decide (videoId = "")) as [->|Hne].
    + rewrite filter_cons_False by (by intros H). simpl.
      by rewrite union_empty_r_L.
    + rewrite filter_cons_True by done.
      rewrite filter_nil, list_to_set_singleton_L. apply union_comm_L.
  - intros v [Hv|Hv]%elem_of_app.
    + rewrite <- (Hst v Hv).
      apply (status_of_old s s' videoId v); try done.
      * intros ref. apply Href.
      * by intros ->.
    + apply list_elem_of_singleton in Hv as ->.
      rewrite (status_of_new s s' videoId j Hjobs Hnew). by rewrite Hstatus.
  - rewrite Hjobs, dom_insert_L, list_to_set_snoc_L, Hdom.
    apply union_comm_L.
  - intros v ref. rewrite Hjobs, Hlen.
    destruct (decide (videoId = v)) as [->|Hne].
    + rewrite lookup_insert_eq. intros [= <-]. lia.
    + rewrite lookup_insert_ne by done. intros Hv.
      specialize (Href v ref Hv). lia.
Qed.

Lemma submit_accepted (C : nat) (ids : list string) (s : JobQueueService)
    (x : Submission) :
  below_ceiling C ids s ->
  sub_id x ∉ ids ->
  canAcceptNewJob s = true ->
  below_ceiling C (ids ++ [sub_id x]) (submit s x).
Proof.
  intros Hinv Hfresh Hacc. pose proof Hinv as (Hq & _).
  destruct x as [[[videoId inputPath] outputPath] now].
  unfold submit, sub_id in *. simpl in *.
  rewrite addJob_empty_queue by done. cbn zeta. rewrite Hacc.
  destruct (String.eqb videoId "") eqn:E.
  - apply String.eqb_eq in E.
    eapply (below_ceiling_step C ids s _ videoId); try done; simpl.
    + rewrite length_app. simpl. lia.
    + intros ref Href. by apply lookup_app_l.
    + by apply list_lookup_middle.
    + by destruct (decide (videoId = "")).
    + by destruct (decide (videoId = "")).
  - apply String.eqb_neq in E.
    eapply (below_ceiling_step C ids s _ videoId); try done; simpl.
    + rewrite length_alter, length_app. simpl. lia.
    + intros ref Href.
      rewrite list_lookup_alter_ne by lia. by apply lookup_app_l.
    + rewrite list_lookup_alter_eq.
      by rewrite (list_lookup_middle (heap s) [] _ (length (heap s))).
    + by destruct (decide (videoId = "")).
    + by destruct (decide (videoId = "")).
Qed.

Lemma new_service_below (C : nat) :
  below_ceiling C [] (new_service (Z.of_nat C)).
Proof.
  unfold below_ceiling. simpl. repeat split; try done.
  intros v Hv. by apply elem_of_nil in Hv.
Qed.

Lemma submit_all_snoc (subs : list Submission) (x : Submission)
    (s : JobQueueService) :
  submit_all (subs ++ [x]) s = submit (submit_all subs s) x.
Proof. unfold submit_all. apply foldl_snoc. Qed.

Lemma submit_all_below (C : nat) (subs : list Submission) :
  NoDup (sub_id <$> subs) ->
  (length subs <= C)%nat ->
  below_ceiling C (sub_id <$> subs)
    (submit_all subs (new_service (Z.of_nat C))).
Proof.
  induction subs as [|x subs IH] using rev_ind; intros Hnd Hlen.
  - apply new_service_below.
  - rewrite fmap_app in *. simpl in *. rewrite length_app in Hlen.
    simpl in Hlen.
    apply NoDup_app in Hnd as (Hnd & Hfresh & _).
    rewrite submit_all_snoc.
    assert (below_ceiling C (sub_id <$> subs)
              (submit_all subs (new_service (Z.of_nat C)))) as Hinv
      by (apply IH; [done|lia]).
    apply submit_accepted; [done| |].
    + intros Hin. apply (Hfresh _ Hin). by left.
    + unfold canAcceptNewJob.
      rewrite (size_processing_below C _ _ Hinv Hnd).
      destruct Hinv as (_ & -> & _).
      pose proof (length_filter (fun videoId => videoId <> "")
                    (sub_id <$> subs)) as Hle.
      rewrite length_fmap in Hle. apply Z.ltb_lt. lia.
Qed.

Lemma filter_nonempty_id (l : list string) :
  "" ∉ l -> filter (fun videoId => videoId <> "") l = l.
Proof.
  induction l as [|x l IH]; intros Hl; [done|].
  apply not_elem_of_cons in Hl as [Hx Hl].
  rewrite filter_cons_True by done. by rewrite IH.
Qed.

Lemma example_submissions_NoDup : NoDup (sub_id <$> example_submissions).
Proof.
  simpl. repeat (apply NoDup_cons; split);
    [| |by apply not_elem_of_nil|apply NoDup_nil_2];
    rewrite ?not_elem_of_cons; repeat split;
    try discriminate; by apply not_elem_of_nil.
Qed.

(** C7.  [canAcceptNewJob] is true exactly when the size of the active set
    is strictly below [maxConcurrentJobs], which is 2 unless the
    environment says otherwise.  Starting from an empty service
    with ceiling [C], [C + 1] submissions with distinct IDs and nothing
    else in between leave exactly [C] of the jobs in the state processing
    and one in the state queued; the active set has [C] members. *)
Theorem concurrency_ceiling :
  (forall s,
     canAcceptNewJob s = true
     <-> (Z.of_nat (size (processing s)) < maxConcurrentJobs s)%Z)
  /\ maxConcurrentJobs (new_service (env_max_concurrent_jobs None)) = 2%Z
  /\ (forall (C : nat) (subs : list Submission),
        NoDup (sub_id <$> subs) ->
        length subs = S C ->
        let s := submit_all subs (new_service (Z.of_nat C)) in
        count_status Processing s (sub_id <$> subs) = C
        /\ count_status Queued s (sub_id <$> subs) = 1%nat
        /\ dom (jobs s) = list_to_set (sub_id <$> subs)
        /\ size (processing s) = C).
Proof.
  split; [intros s; apply Z.ltb_lt|]. split; [done|].
  intros C subs Hnd Hlen. cbn zeta.
  destruct subs as [|x pre _] using rev_ind; [done|].
  rewrite length_app in Hlen. simpl in Hlen.
  assert (length pre = C) as Hpre by lia. clear Hlen.
  rewrite submit_all_snoc, fmap_app. simpl.
  rewrite fmap_app in Hnd. simpl in Hnd. pose proof Hnd as Hall.
  apply NoDup_app in Hnd as (Hnd & Hfresh & _).
  assert (sub_id x ∉ sub_id <$> pre) as Hx.
  { intros Hin. apply (Hfresh _ Hin). by left. }
  pose proof (submit_all_below C pre Hnd ltac:(lia)) as Hinv.
  pose proof (size_processing_below C _ _ Hinv Hnd) as Hsize.
  set (s0 := submit_all pre (new_service (Z.of_nat C))) in *.
  set (ids := sub_id <$> pre) in *.
  assert (length ids = C) as Hids by (unfold ids; by rewrite length_fmap).
  assert (length (ids ++ [sub_id x]) - 1 = C)%nat as Hlen'
    by (rewrite length_app; simpl; lia).
  destruct (decide ("" ∈ ids)) as [Hempty|Hnoempty].
  - (* a job with the empty ID was dropped earlier: a slot is free *)
    destruct (count_one_of_NoDup "" ids Hnd Hempty) as [_ Hcount].
    assert (C <> 0)%nat as HC.
    { intros ->. destruct ids; [by apply elem_of_nil in Hempty|done]. }
    assert (canAcceptNewJob s0 = true) as Hacc.
    { unfold canAcceptNewJob. destruct Hinv as (_ & -> & _).
      apply Z.ltb_lt. lia. }
    pose proof (submit_accepted C ids s0 x Hinv Hx Hacc) as Hinv'.
    pose proof (size_processing_below C _ _ Hinv' Hall) as Hsize'.
    assert ("" ∈ ids ++ [sub_id x]) as Hq by (apply elem_of_app; by left).
    destruct (count_one_of_NoDup "" _ Hall Hq) as [_ Hcount'].
    destruct Hinv' as (_ & _ & _ & Hst & Hdom & _).
    destruct (count_status_one_queued (submit s0 x) "" _ Hall Hq Hst)
      as [H1 H2].
    split; [lia|]. split; [done|]. split; [done|]. lia.
  - (* all slots are taken: the last job stays in the queue *)
    rewrite (filter_nonempty_id ids Hnoempty) in Hsize.
    pose proof Hinv as (Hq & Hmax & Hproc & Hst & Hdom & Href).
    assert (canAcceptNewJob s0 = false) as Hfull.
    { unfold canAcceptNewJob. rewrite Hmax. apply Z.ltb_ge. lia. }
    destruct x as [[[videoId inputPath] outputPath] now].
    unfold submit, sub_id in *. simpl in *.
    rewrite addJob_empty_queue by done. cbn zeta. rewrite Hfull.
    match goal with |- context [count_status _ ?t _] => set (s' := t) end.
    assert (forall v, v ∈ ids ++ [videoId] ->
              status_of s' v
              = Some (if decide (v = videoId) then Queued else Processing))
      as Hst'.
    { intros v [Hv|Hv]%elem_of_app.
      - assert (v <> videoId) as Hne by (by intros ->).
        assert (v <> "") as Hne' by (by intros ->).
        rewrite (status_of_old s0 s' videoId v); try done.
        + rewrite (Hst v Hv).
          by destruct (decide (v = "")), (decide (v = videoId)).
        + intros ref Hlt. by apply lookup_app_l.
        + intros ref. apply Href.
      - apply list_elem_of_singleton in Hv as ->.
        rewrite (status_of_new s0 s' videoId
                   (mkJob videoId videoId inputPath outputPath Queued 0 None
                      None now now 0)); try done.
        + by destruct (decide (videoId = videoId)).
        + by apply list_lookup_middle. }
    assert (videoId ∈ ids ++ [videoId]) as Hlast
      by (apply elem_of_app; right; by left).
    destruct (count_status_one_queued s' videoId _ Hall Hlast Hst')
      as [H1 H2].
    split; [lia|]. split; [done|]. split; [|by rewrite <- Hids].
    subst s'. simpl. rewrite dom_insert_L, list_to_set_snoc_L, Hdom.
    apply union_comm_L.
Qed.

Lemma concurrency_ceiling_witness :
  count_status Processing
    (submit_all example_submissions (new_service 2))
    (sub_id <$> example_submissions) = 2%nat.
Proof.
  destruct concurrency_ceiling as (_ & _ & H).
  destruct (H 2%nat example_submissions example_submissions_NoDup eq_refl)
    as [H1 _].
  exact H1.
Defined.

(** * Further properties of the code *)

(** ** mergeSilences, again *)

Lemma StronglySorted_adjacent {A : Type} (R : A -> A -> Prop) (l : list A) :
  StronglySorted R l -> adjacent R l.
Proof.
  induction 1 as [|a l Hs IH Ha]; [done|].
  destruct l as [|b l]; [done|].
  apply Forall_cons in Ha as [Hab _]. by split.
Qed.

Lemma merge_loop_covers (minGap : Q) (rest : list SilenceInterval) :
  forall current t,
    chain si_start si_end (current :: rest) ->
    covers si_start si_end (current :: rest) t ->
    covers si_start si_end (merge_loop minGap rest current []) t.
Proof.
  induction rest as [|next rest IH]; intros current t [Hwf Hs] Hcov.
  - done.
  - apply Forall_cons in Hwf as [Hc Hwf].
    apply Forall_cons in Hwf as [Hn Hwf].
    apply StronglySorted_inv in Hs as [Hs Hcr].
    apply StronglySorted_inv in Hs as [Hs Hnr].
    apply Forall_cons in Hcr as [Hcn Hcr].
    unfold well_formed in Hc, Hn. cbn [merge_loop].
    destruct (js_lt _ _).
    + apply IH.
      * split; constructor; try done. unfold well_formed. simpl. lra.
      * rewrite !covers_cons in Hcov. rewrite covers_cons. simpl.
        destruct Hcov as [H|[H|H]]; [left; lra|left; lra|by right].
    + rewrite merge_loop_acc. simpl app.
      rewrite covers_cons in Hcov. rewrite covers_cons.
      destruct Hcov as [H|H]; [by left|right].
      apply IH; [|done]. split; by constructor.
Qed.

(** X1.  Merging never loses silence: on an ordered, non-overlapping list
    every instant that lies in an input interval lies in an output
    interval. *)
Theorem mergeSilences_keeps_silent_instants
    (silences : list SilenceInterval) (minGap t : Q) :
  silence_list silences ->
  covers si_start si_end silences t ->
  covers si_start si_end (mergeSilences silences minGap) t.
Proof.
  intros Hl%interval_list_chain Hcov.
  destruct silences as [|a rest]; [done|]. by apply merge_loop_covers.
Qed.

Lemma mergeSilences_keeps_silent_instants_witness :
  covers si_start si_end (mergeSilences example_silences 2) (15 # 4).
Proof.
  apply (mergeSilences_keeps_silent_instants example_silences 2 (15 # 4)
           example_silences_ok).
  right. left. simpl. split; lra.
Defined.

Lemma merge_loop_length (minGap : Q) (rest : list SilenceInterval) :
  forall current,
    (1 <= length (merge_loop minGap rest current []) <= S (length rest))%nat.
Proof.
  induction rest as [|next rest IH]; intros current; cbn [merge_loop].
  - simpl. lia.
  - destruct (js_lt _ _).
    + specialize (IH (mkSilence (si_start current) (si_end next)
                        (si_duration current))). simpl. lia.
    + rewrite merge_loop_acc. specialize (IH next). simpl. lia.
Qed.

(** X2.  For every input, the merged list is never longer than the input,
    and it is empty only for the empty input. *)
Theorem mergeSilences_length (silences : list SilenceInterval) (minGap : Q) :
  (length (mergeSilences silences minGap) <= length silences)%nat
  /\ (mergeSilences silences minGap = [] <-> silences = []).
Proof.
  destruct silences as [|a rest]; [done|].
  pose proof (merge_loop_length minGap rest a) as H. simpl in *.
  split; [lia|]. split; [|done].
  intros Hnil. rewrite Hnil in H. simpl in H. lia.
Qed.

(** X3.  With a threshold that is zero or negative nothing is merged: an
    ordered, non-overlapping list comes back as it is. *)
Theorem mergeSilences_nonpositive_gap (silences : list SilenceInterval)
    (minGap : Q) :
  silence_list silences ->
  (minGap <= 0)%Q ->
  mergeSilences silences minGap = silences.
Proof.
  intros [_ Hs]%interval_list_chain Hgap.
  apply mergeSilences_fixed, StronglySorted_adjacent.
  eapply StronglySorted_weaken; [|exact Hs].
  intros a b Hab. simpl in Hab. unfold gap. simpl js_sub.
  pose proof (round64_nonneg (si_start b - si_end a) ltac:(lra)) as Hround.
  destruct (round64 _); simpl in *; try done.
  apply Qltb_ge in Hround. apply Qltb_ge. lra.
Qed.

Lemma mergeSilences_nonpositive_gap_witness :
  mergeSilences example_silences 0 = example_silences.
Proof.
  apply (mergeSilences_nonpositive_gap example_silences 0
           example_silences_ok).
  lra.
Defined.

Lemma runs_all_close (minGap : Q) (a : SilenceInterval)
    (t : list SilenceInterval) :
  adjacent (fun x y => js_lt (gap x y) minGap = true) (a :: t) ->
  runs minGap (a :: t) = [(a, t)].
Proof.
  revert a. induction t as [|b t IH]; intros a Hclose; [done|].
  destruct Hclose as [Hab Hrest].
  change (runs minGap (a :: b :: t)) with
    (if js_lt (gap a b) minGap then
       match runs minGap (b :: t) with
       | (h, t) :: rs => (a, h :: t) :: rs
       | [] => [(a, [])]
       end
     else (a, []) :: runs minGap (b :: t)).
  rewrite Hab, (IH b Hrest). done.
Qed.

(** X4.  The threshold is strict, and it is applied to the computed gap,
    the double [next.start - current.end].  A list in which every computed
    gap to the next interval is below [minGap] becomes one interval, from
    the start of the first to the end of the last; two intervals whose
    computed gap is not below [minGap] are both kept.  The intervals
    [(0, 0.001)] and [(2.001, 3.5)] are kept apart with a [minGap] of 2:
    their gap is below 2 and is rounded to 2. *)
Theorem mergeSilences_threshold (minGap : Q) (a b : SilenceInterval)
    (t : list SilenceInterval) :
  (adjacent (fun x y => js_lt (gap x y) minGap = true) (a :: t) ->
   mergeSilences (a :: t) minGap
   = [mkSilence (si_start a) (si_end (List.last t a)) (si_duration a)])
  /\ (js_lt (gap a b) minGap = false ->
      mergeSilences [a; b] minGap = [a; b])
  /\ (silence_list example_near_threshold
      /\ adjacent (fun x y => (si_start y - si_end x < 2)%Q)
           example_near_threshold
      /\ mergeSilences example_near_threshold 2 = example_near_threshold).
Proof.
  split; [|split].
  - intros Hclose. rewrite mergeSilences_runs, (runs_all_close _ _ _ Hclose).
    done.
  - intros Hfar. by apply mergeSilences_fixed.
  - split; [|split].
    + apply interval_list_chain. split.
      * apply Forall_cons. split; [by vm_compute|].
        apply Forall_cons. split; [by vm_compute|]. by apply Forall_nil.
      * apply SSorted_cons; [|apply Forall_cons; split; [by vm_compute|];
                               by apply Forall_nil].
        apply SSorted_cons; [apply SSorted_nil|by apply Forall_nil].
    + split; [by vm_compute|done].
    + by vm_compute.
Qed.

Lemma mergeSilences_threshold_witness :
  mergeSilences [mkSilence 2 3 1; mkSilence (7#2) 4 (1#2)] 2
  = [mkSilence 2 4 1]
  /\ mergeSilences [mkSilence 2 3 1; mkSilence 5 6 1] 2
     = [mkSilence 2 3 1; mkSilence 5 6 1].
Proof.
  split.
  - apply (mergeSilences_threshold 2 (mkSilence 2 3 1) (mkSilence 2 3 1)
             [mkSilence (7#2) 4 (1#2)]).
    split; [by vm_compute|done].
  - apply (mergeSilences_threshold 2 (mkSilence 2 3 1) (mkSilence 5 6 1) []).
    by vm_compute.
Defined.

(** ** buildKeepSegments, again *)

Lemma keep_loop_well_formed (silences : list SilenceInterval) :
  forall currentStart,
    Forall (well_formed seg_start seg_end)
      (keep_loop silences currentStart []).2
    /\ (length (keep_loop silences currentStart []).2
        <= length silences)%nat.
Proof.
  induction silences as [|a l IH]; intros cs; [by split|].
  cbn [keep_loop]. rewrite keep_loop_acc. cbn [snd].
  destruct (IH (si_end a)) as [IHwf IHlen].
  destruct (Qltb cs (si_start a)) eqn:E.
  - apply Qltb_lt in E. split.
    + apply Forall_app. split; [|done]. by repeat constructor.
    + rewrite length_app. simpl. lia.
  - simpl. split; [done|lia].
Qed.

Lemma keep_loop_well_formed_all (silences : list SilenceInterval)
    (totalDuration : Q) :
  Forall (well_formed seg_start seg_end)
    (buildKeepSegments silences totalDuration).
Proof.
  unfold buildKeepSegments.
  destruct (keep_loop_well_formed silences 0) as [Hwf _].
  destruct (keep_loop silences 0 []) as [e segs]. cbn [snd] in *.
  destruct (Qltb e totalDuration) eqn:E; [|done].
  apply Qltb_lt in E. apply Forall_app. split; [done|].
  by repeat constructor.
Qed.

(** X5.  Whatever the silences and the duration, no keep segment is empty
    or inverted ([start < end] for each), and there is at most one keep
    segment more than there are silences. *)
Theorem buildKeepSegments_well_formed (silences : list SilenceInterval)
    (totalDuration : Q) :
  Forall (well_formed seg_start seg_end)
    (buildKeepSegments silences totalDuration)
  /\ (length (buildKeepSegments silences totalDuration)
      <= S (length silences))%nat.
Proof.
  unfold buildKeepSegments.
  destruct (keep_loop_well_formed silences 0) as [Hwf Hlen].
  destruct (keep_loop silences 0 []) as [e segs]. cbn [snd] in *.
  destruct (Qltb e totalDuration) eqn:E.
  - apply Qltb_lt in E. split.
    + apply Forall_app. split; [done|]. by repeat constructor.
    + rewrite length_app. simpl. lia.
  - split; [done|lia].
Qed.

Lemma keep_loop_duration (silences : list SilenceInterval) :
  forall currentStart,
    chain si_start si_end silences ->
    Forall (fun a => (currentStart <= si_start a)%Q) silences ->
    (covered_duration seg_start seg_end
       (keep_loop silences currentStart []).2
     + covered_duration si_start si_end silences
     == (keep_loop silences currentStart []).1 - currentStart)%Q.
Proof.
  induction silences as [|a l IH]; intros cs [Hwf Hs] Hlow.
  - simpl. lra.
  - apply Forall_cons in Hwf as [Ha Hwf]. unfold well_formed in Ha.
    apply StronglySorted_inv in Hs as [Hs Hal].
    apply Forall_cons in Hlow as [Hca Hlow].
    specialize (IH (si_end a) (conj Hwf Hs) Hal).
    cbn [keep_loop]. rewrite keep_loop_acc. cbn [fst snd].
    rewrite covered_duration_app.
    change (covered_duration si_start si_end (a :: l))
      with ((si_end a - si_start a)
            + covered_duration si_start si_end l)%Q.
    destruct (Qltb cs (si_start a)) eqn:E.
    + unfold covered_duration in *. simpl. lra.
    + apply Qltb_ge in E. unfold covered_duration in *. simpl. lra.
Qed.

Lemma buildKeepSegments_total (silences : list SilenceInterval)
    (totalDuration : Q) :
  (0 <= totalDuration)%Q ->
  chain si_start si_end silences ->
  within si_start si_end 0 totalDuration silences ->
  (covered_duration seg_start seg_end
     (buildKeepSegments silences totalDuration)
   + covered_duration si_start si_end silences == totalDuration)%Q.
Proof.
  intros HD Hl Hin.
  assert (Forall (fun a => (0 <= si_start a)%Q) silences) as Hlow.
  { eapply Forall_impl; [exact Hin|]. simpl. tauto. }
  assert (Forall (fun a => (si_end a <= totalDuration)%Q) silences) as Hup.
  { eapply Forall_impl; [exact Hin|]. simpl. tauto. }
  pose proof (keep_loop_duration silences 0 Hl Hlow) as Hdur.
  pose proof (keep_loop_end_le totalDuration silences 0 [] HD Hup) as HeD.
  unfold buildKeepSegments.
  destruct (keep_loop silences 0 []) as [e segs]. cbn [fst snd] in *.
  destruct (Qltb e totalDuration) eqn:E.
  - rewrite covered_duration_app.
    change (covered_duration seg_start seg_end [mkSegment e totalDuration])
      with ((totalDuration - e) + 0)%Q.
    lra.
  - apply Qltb_ge in E. lra.
Qed.

Lemma covered_duration_nonneg {A : Type} (lo hi : A -> Q) (l : list A) :
  Forall (well_formed lo hi) l -> (0 <= covered_duration lo hi l)%Q.
Proof.
  induction l as [|a l IH]; intros Hwf; [simpl; lra|].
  apply Forall_cons in Hwf as [Ha Hwf]. specialize (IH Hwf).
  unfold well_formed in Ha. unfold covered_duration in *. simpl. lra.
Qed.

Lemma covered_duration_positive {A : Type} (lo hi : A -> Q) (l : list A) :
  Forall (well_formed lo hi) l -> l <> [] ->
  (0 < covered_duration lo hi l)%Q.
Proof.
  intros Hwf Hne. destruct l as [|a l]; [done|].
  apply Forall_cons in Hwf as [Ha Hwf].
  pose proof (covered_duration_nonneg lo hi l Hwf) as Hl.
  unfold well_formed in Ha. unfold covered_duration in *. simpl. lra.
Qed.

(** X6.  For silences that are ordered, non-overlapping and within
    [[0, totalDuration)], the lengths of the keep segments and the lengths
    of the silences add up to [totalDuration]. *)
Theorem buildKeepSegments_durations_add_up (silences : list SilenceInterval)
    (totalDuration : Q) :
  (0 <= totalDuration)%Q ->
  silence_list silences ->
  within si_start si_end 0 totalDuration silences ->
  (covered_duration seg_start seg_end
     (buildKeepSegments silences totalDuration)
   + covered_duration si_start si_end silences == totalDuration)%Q.
Proof.
  intros HD Hl%interval_list_chain Hin. by apply buildKeepSegments_total.
Qed.

Lemma example_silences_within :
  within si_start si_end 0 10 example_silences.
Proof. repeat constructor; simpl; lra. Qed.

Lemma buildKeepSegments_durations_add_up_witness :
  (covered_duration seg_start seg_end (buildKeepSegments example_silences 10)
   + covered_duration si_start si_end example_silences == 10)%Q.
Proof.
  apply (buildKeepSegments_durations_add_up example_silences 10);
    [lra | exact example_silences_ok | exact example_silences_within].
Defined.

(** X7.  Under the same conditions the keep-segment list is empty exactly
    when the silences fill the whole duration. *)
Theorem buildKeepSegments_empty_iff (silences : list SilenceInterval)
    (totalDuration : Q) :
  (0 <= totalDuration)%Q ->
  silence_list silences ->
  within si_start si_end 0 totalDuration silences ->
  buildKeepSegments silences totalDuration = []
  <-> (covered_duration si_start si_end silences == totalDuration)%Q.
Proof.
  intros HD Hl%interval_list_chain Hin.
  pose proof (buildKeepSegments_total silences totalDuration HD Hl Hin)
    as Hsum.
  split.
  - intros Hnil. rewrite Hnil in Hsum. simpl in Hsum. lra.
  - intros Hfull.
    destruct (buildKeepSegments silences totalDuration) as [|x keep] eqn:Hk;
      [done|].
    assert (0 < covered_duration seg_start seg_end (x :: keep))%Q.
    { apply covered_duration_positive; [|done]. rewrite <- Hk.
      apply keep_loop_well_formed_all. }
    lra.
Qed.

Lemma buildKeepSegments_empty_iff_witness :
  buildKeepSegments [mkSilence 0 10 10] 10 = [].
Proof.
  apply (buildKeepSegments_empty_iff [mkSilence 0 10 10] 10).
  - lra.
  - apply interval_list_chain. split; repeat constructor.
  - repeat constructor; simpl; lra.
  - simpl. lra.
Defined.

(** ** The cap, again *)

Lemma limitSilences_submseteq (silences : list SilenceInterval) :
  limitSilences silences ⊆+ silences.
Proof.
  unfold limitSilences. destruct (10 <? _)%nat; [|done].
  rewrite js_sort_perm.
  rewrite <- (js_sort_perm by_duration_desc silences) at 2.
  apply submseteq_take.
Qed.

Lemma limitSilences_length (silences : list SilenceInterval) :
  (length (limitSilences silences) <= 10)%nat.
Proof.
  unfold limitSilences. destruct (10 <? _)%nat eqn:E.
  - rewrite js_sort_length, length_take. lia.
  - apply Nat.ltb_ge in E. done.
Qed.

(** X8.  For every input the cap returns at most 10 intervals, each of
    them one of the input's (none invented, none repeated more often than
    in the input), and capping again changes nothing. *)
Theorem limitSilences_bounded (silences : list SilenceInterval) :
  (length (limitSilences silences) <= 10)%nat
  /\ limitSilences silences ⊆+ silences
  /\ limitSilences (limitSilences silences) = limitSilences silences.
Proof.
  split; [apply limitSilences_length|].
  split; [apply limitSilences_submseteq|].
  pose proof (limitSilences_length silences) as Hlen.
  unfold limitSilences at 1. apply Nat.ltb_ge in Hlen. by rewrite Hlen.
Qed.

Lemma StronglySorted_symmetric_perm {A : Type} (R : A -> A -> Prop)
    (l l' : list A) :
  Symmetric R -> l ≡ₚ l' -> StronglySorted R l -> StronglySorted R l'.
Proof.
  intros HR Hperm. induction Hperm as [|x l l' Hp IH|x y l|l1 l2 l3 H1 IH1 H2 IH2].
  - done.
  - rewrite !StronglySorted_cons. intros [Hx Hl].
    split; [by rewrite <- Hp|by apply IH].
  - rewrite !StronglySorted_cons, !Forall_cons.
    intros [[Hyx Hy] [Hx Hl]]. repeat split; try done; by symmetry.
  - intros H. by apply IH2, IH1.
Qed.

Lemma apart_sym : Symmetric apart.
Proof.
  intros a b (Ha & Hb & [Hab|Hab]); (split; [done|split; [done|]]);
    [by right|by left].
Qed.

Lemma chain_apart (l : list SilenceInterval) :
  chain si_start si_end l -> StronglySorted apart l.
Proof.
  intros [Hwf Hs]. induction Hs as [|a l Hs IH Ha]; [constructor|].
  apply Forall_cons in Hwf as [Hwa Hwf]. constructor; [by apply IH|].
  rewrite List.Forall_forall in *. intros b Hb.
  repeat split; [done|by apply Hwf|left; by apply Ha].
Qed.

Lemma apart_sorted_chain (l : list SilenceInterval) :
  StronglySorted apart l ->
  Forall (well_formed si_start si_end) l ->
  chain si_start si_end (js_sort by_start_asc l).
Proof.
  intros Hl Hwf. split; [by rewrite js_sort_perm|].
  apply (StronglySorted_weaken
           (fun a b => apart a b /\ (si_end a <= si_start b)%Q)); [tauto|].
  apply js_sort_sorted.
  - intros a b c [(Ha & Hb & _) Hab] [(_ & Hc & _) Hbc].
    unfold well_formed, apart, no_overlap in *.
    split; [repeat split; try done; left; lra|lra].
  - eapply StronglySorted_weaken; [|exact Hl].
    intros x y Hxy. pose proof Hxy as (Hx & Hy & Hno).
    unfold agrees, by_start_asc, well_formed, no_overlap in *. simpl js_lt.
    rewrite Qltb_lt, Qltb_ge. split; intros Hcmp.
    + split; [by apply apart_sym|]. lra.
    + split; [done|]. lra.
Qed.

Lemma limitSilences_chain (silences : list SilenceInterval) :
  chain si_start si_end silences ->
  chain si_start si_end (limitSilences silences).
Proof.
  intros Hl. unfold limitSilences. destruct (10 <? _)%nat; [|done].
  apply apart_sorted_chain.
  - apply (StronglySorted_app_1_l _ _ (drop 10 (js_sort by_duration_desc silences))).
    rewrite take_drop.
    eapply (StronglySorted_symmetric_perm apart silences);
      [apply apart_sym|by rewrite js_sort_perm|by apply chain_apart].
  - apply Forall_take. rewrite js_sort_perm. by destruct Hl.
Qed.

(** X9.  The cap keeps a list ordered and non-overlapping: what it returns
    for an ordered, non-overlapping list is one again. *)
Theorem limitSilences_keeps_order (silences : list SilenceInterval) :
  silence_list silences -> silence_list (limitSilences silences).
Proof.
  intros Hl%interval_list_chain. apply interval_list_chain.
  by apply limitSilences_chain.
Qed.

Lemma example_close_pair_merged_ok :
  silence_list (mergeSilences example_close_pair 2).
Proof.
  apply interval_list_chain, mergeSilences_chain, interval_list_chain.
  apply example_close_pair_ok.
Qed.

Lemma limitSilences_keeps_order_witness :
  silence_list (limitSilences (mergeSilences example_close_pair 2)).
Proof.
  apply (limitSilences_keeps_order (mergeSilences example_close_pair 2)
           example_close_pair_merged_ok).
Defined.

Lemma merge_loop_within (minGap from to : Q) (rest : list SilenceInterval) :
  forall current,
    within si_start si_end from to (current :: rest) ->
    within si_start si_end from to (merge_loop minGap rest current []).
Proof.
  unfold within.
  induction rest as [|next rest IH]; intros current Hin; [done|].
  apply Forall_cons in Hin as [Hc Hin].
  apply Forall_cons in Hin as [Hn Hin].
  cbn [merge_loop]. destruct (js_lt _ _).
  - apply IH. constructor; [simpl; tauto|done].
  - rewrite merge_loop_acc. simpl app. constructor; [done|].
    apply IH. by constructor.
Qed.

(** X10.  The reduction of [processNext] (merge with a gap of 2, then the
    cap) turns silences that are ordered, non-overlapping and within
    [[0, D)] into at most 10 silences that are again ordered,
    non-overlapping and within [[0, D)]: what [removeSilences] hands to
    [buildKeepSegments] meets the conditions of X6 and X7. *)
Theorem reduction_keeps_silence_list (silences : list SilenceInterval)
    (D : Q) :
  silence_list silences ->
  within si_start si_end 0 D silences ->
  let reduced := limitSilences (mergeSilences silences 2) in
  silence_list reduced
  /\ within si_start si_end 0 D reduced
  /\ (length reduced <= 10)%nat
  /\ (length reduced <= length silences)%nat.
Proof.
  intros Hl%interval_list_chain Hin. cbn zeta.
  assert (within si_start si_end 0 D (mergeSilences silences 2)) as Hin'.
  { destruct silences as [|a rest]; [done|]. by apply merge_loop_within. }
  split; [|split; [|split]].
  - apply interval_list_chain, limitSilences_chain.
    by apply mergeSilences_chain.
  - unfold within in *. rewrite List.Forall_forall in *.
    intros x Hx%list_elem_of_In. apply Hin', list_elem_of_In.
    eapply elem_of_submseteq; [exact Hx|apply limitSilences_submseteq].
  - apply limitSilences_length.
  - etrans; [apply submseteq_length, limitSilences_submseteq|].
    destruct silences as [|a rest]; [done|].
    pose proof (merge_loop_length 2 rest a). simpl in *. lia.
Qed.

Lemma example_close_pair_within :
  within si_start si_end 0 120 example_close_pair.
Proof. repeat constructor; simpl; lra. Qed.

Lemma reduction_keeps_silence_list_witness :
  silence_list (limitSilences (mergeSilences example_close_pair 2)).
Proof.
  destruct example_close_pair_ok as [Hl _].
  apply (reduction_keeps_silence_list example_close_pair 120 Hl
           example_close_pair_within).
Defined.

(** ** detectSilences, again *)








(** ** removeSilences, again *)






Ltac solve_calls :=
  simpl; intros;
  repeat match goal with
    | H : _ ∈ _ :: _ |- _ => apply elem_of_cons in H as [H|H]
    | H : _ ∈ [] |- _ => by apply elem_of_nil in H
    | H : Copy _ _ = _ |- _ => inversion H; subst; clear H
    | H : Cut _ _ _ = _ |- _ => inversion H; subst; clear H
    end;
  try done.

(** X13.  The engine calls of [removeSilences]: the first is always the
    probe of the input, and if that probe fails it is the only one and its
    error is the rejection.  A copy is always from the input to the output
    path.  A re-encoding is never started without segments: the segments it
    is given are never an empty list, none of them is empty or inverted,
    and they are at most one more than the silences. *)
Theorem removeSilences_calls (eng : Engine) (inputPath outputPath : string)
    (silences : list SilenceInterval) :
  let calls := (removeSilences eng inputPath outputPath silences).1 in
  (exists rest, calls = Probe inputPath :: rest)
  /\ (forall error,
        getVideoMetadata eng inputPath = inl error ->
        removeSilences eng inputPath outputPath silences
        = ([Probe inputPath], inl error))
  /\ (forall source destination,
        Copy source destination ∈ calls ->
        source = inputPath /\ destination = outputPath)
  /\ (forall input segments output,
        Cut input segments output ∈ calls ->
        input = inputPath /\ output = outputPath
        /\ segments <> []
        /\ Forall (well_formed seg_start seg_end) segments
        /\ (length segments <= S (length silences))%nat).
Proof.
  cbn zeta.
  unfold removeSilences, probe, copyFile, cut, perform, await, resolve.
  destruct (getVideoMetadata eng inputPath) as [e|metadata].
  { simpl. split; [by eexists|]. split; [by intros error [= <-]|].
    split; solve_calls. }
  pose proof (keep_loop_well_formed_all silences (vm_duration metadata))
    as Hwf.
  assert (length (buildKeepSegments silences (vm_duration metadata))
          <= S (length silences))%nat as Hlen.
  { unfold buildKeepSegments.
    destruct (keep_loop_well_formed silences 0) as [_ Hl].
    destruct (keep_loop silences 0 []) as [e segs]. cbn [snd] in *.
    destruct (Qltb e _); [rewrite length_app; simpl|]; lia. }
  destruct (length silences =? 0)%nat.
  - destruct (ffmpeg_copy eng inputPath outputPath) as [e|code err];
      [|destruct (code_nonzero code)]; simpl;
      (split; [by eexists|]); (split; [done|]); split; solve_calls.
  - destruct (length (buildKeepSegments silences (vm_duration metadata))
              =? 0)%nat eqn:Hnil.
    + destruct (ffmpeg_copy eng inputPath outputPath) as [e|code err];
        [|destruct (code_nonzero code)]; simpl;
        (split; [by eexists|]); (split; [done|]); split; solve_calls.
    + assert (buildKeepSegments silences (vm_duration metadata) <> [])
        as Hne.
      { intros Heq. rewrite Heq in Hnil. done. }
      destruct (ffmpeg_cut eng inputPath _ outputPath) as [e|code err];
        [|destruct (code_nonzero code);
          [|destruct (getVideoMetadata eng outputPath)]]; simpl;
        (split; [by eexists|]); (split; [done|]); split; solve_calls.
Qed.

(** ** Which failures are retried *)

Lemma includes_lacks (c : Ascii.ascii) (sub t : string) :
  string_has c t = false -> includes t (String c sub) = false.
Proof.
  induction t as [|x t IH]; intros Hc; [done|].
  simpl in Hc. apply orb_false_elim in Hc as [Hx Hc].
  cbn [includes String.prefix].
  destruct (Ascii.ascii_dec c x) as [->|_].
  - by rewrite Ascii.eqb_refl in Hx.
  - by apply IH.
Qed.

Lemma string_of_uint_lacks (c : Ascii.ascii) (d : Decimal.uint) :
  string_has c code_chars = false ->
  string_has c (NilEmpty.string_of_uint d) = false.
Proof.
  intros Hc. unfold code_chars in Hc. cbn [string_has] in Hc.
  repeat (apply orb_false_elim in Hc as [? Hc]).
  induction d; cbn [NilEmpty.string_of_uint string_has]; [done|..];
    by apply orb_false_intro.
Qed.

Lemma show_code_lacks (c : Ascii.ascii) (code : option Z) :
  string_has c code_chars = false ->
  string_has c (show_code code) = false.
Proof.
  intros Hc. pose proof Hc as Hc'. unfold code_chars in Hc'.
  cbn [string_has] in Hc'.
  repeat (apply orb_false_elim in Hc' as [? Hc']).
  destruct code as [z|]; cbn [show_code].
  - assert (forall d, string_has c (NilZero.string_of_uint d) = false)
      as Huint.
    { intros d. unfold NilZero.string_of_uint.
      destruct d; try (by apply (string_of_uint_lacks c _ Hc)).
      cbn [string_has]. by apply orb_false_intro. }
    destruct (Z.to_int z) as [d|d]; cbn [NilZero.string_of_int string_has].
    + apply Huint.
    + apply orb_false_intro; [done|apply Huint].
  - cbn [string_has]. repeat (apply orb_false_intro; [done|]). done.
Qed.

Lemma copy_message_is_transient (code : option Z) :
  isProcessingError
    (errorMessage_of
       (Error ("Failed to copy file with code " +:+ show_code code)))
  = false.
Proof.
  change (includes (show_code code) "FFmpeg"
          || includes (show_code code) "memory"
          || includes (show_code code) "timeout"
          || includes (show_code code) "failed"
          || includes (show_code code) "ENOMEM"
          || includes (show_code code) "killed" = false).
  rewrite !includes_lacks; [done|..]; by apply show_code_lacks.
Qed.

Lemma cut_message_is_permanent (stderrOutput : string) :
  isProcessingError
    (errorMessage_of (Error ("FFmpeg processing failed: " +:+ stderrOutput)))
  = true.
Proof. reflexivity. Qed.

(** X14.  A failed copy and a failed re-encoding are classified
    differently.  When the pass-through copy ends with a nonzero exit
    status, [removeSilences] rejects with an error that has none of the
    permanent markers, whatever the exit code (the text starts with a
    capital [Failed]), so [processNext] queues the job again if it has not
    been retried.  When the re-encoding ends with a nonzero exit status the
    error always has a permanent marker, whatever ffmpeg wrote, and the job
    fails at once. *)
Theorem removeSilences_failure_classes (eng : Engine)
    (inputPath outputPath : string) (silences : list SilenceInterval)
    (metadata : VideoMetadata) (code : option Z) (stderrOutput : string)
    (now : Z) (j : Job) :
  getVideoMetadata eng inputPath = inr metadata ->
  code_nonzero code = true ->
  (silences = [] \/ buildKeepSegments silences (vm_duration metadata) = [] ->
   ffmpeg_copy eng inputPath outputPath = Closed code stderrOutput ->
   exists error,
     (removeSilences eng inputPath outputPath silences).2 = inl error
     /\ isProcessingError (errorMessage_of error) = false
     /\ ((job_retries j < 1)%Z ->
         job_status (on_failure now error j).1 = Queued
         /\ (on_failure now error j).2 = true))
  /\ (silences <> [] ->
      buildKeepSegments silences (vm_duration metadata) <> [] ->
      ffmpeg_cut eng inputPath
        (buildKeepSegments silences (vm_duration metadata)) outputPath
      = Closed code stderrOutput ->
      exists error,
        (removeSilences eng inputPath outputPath silences).2 = inl error
        /\ isProcessingError (errorMessage_of error) = true
        /\ job_status (on_failure now error j).1 = Failed
        /\ (on_failure now error j).2 = false).
Proof.
  intros Hmeta Hcode. split.
  - intros Hcase Hcopy.
    exists (Error ("Failed to copy file with code " +:+ show_code code)).
    split; [|split; [apply copy_message_is_transient|]].
    + unfold removeSilences, probe, copyFile, perform, await.
      rewrite Hmeta.
      destruct (length silences =? 0)%nat eqn:Hlen.
      * by rewrite Hcopy, Hcode.
      * destruct Hcase as [->|Hkeep]; [done|].
        by rewrite Hkeep, Hcopy, Hcode.
    + intros Hlt. unfold on_failure.
      rewrite copy_message_is_transient.
      apply Z.ltb_lt in Hlt. by rewrite Hlt.
  - intros Hsil Hkeep Hcut.
    exists (Error ("FFmpeg processing failed: " +:+ stderrOutput)).
    split; [|split; [apply cut_message_is_permanent|]].
    + unfold removeSilences, probe, cut, perform, await.
      rewrite Hmeta.
      destruct silences as [|a l]; [done|]. simpl length. simpl Nat.eqb.
      destruct (buildKeepSegments (a :: l) (vm_duration metadata))
        as [|seg segs] eqn:Hk; [done|].
      simpl length. simpl Nat.eqb. by rewrite Hcut, Hcode.
    + destruct (on_failure_permanent now
                  (Error ("FFmpeg processing failed: " +:+ stderrOutput)) j
                  (cut_message_is_permanent stderrOutput)) as (H1 & _ & H3).
      done.
Qed.

Lemma removeSilences_failure_classes_witness :
  exists error,
    (removeSilences example_engine_copy_fails "/tmp/videos/a.mp4"
       "/tmp/videos/a_cut.mp4" []).2 = inl error
    /\ isProcessingError (errorMessage_of error) = false.
Proof.
  destruct (removeSilences_failure_classes example_engine_copy_fails
              "/tmp/videos/a.mp4" "/tmp/videos/a_cut.mp4" []
              example_metadata (Some 1%Z) "" 0
              (mkJob "a" "a" "/tmp/videos/a.mp4" "/tmp/videos/a_cut.mp4"
                 Processing 50 None None 0 0 0) eq_refl eq_refl) as [H _].
  destruct (H (or_introl eq_refl) eq_refl) as (error & H1 & H2 & _).
  exists error. split; [exact H1 | exact H2].
Defined.

(** ** What every run of the job queue maintains *)

Lemma service_message_elem (e : string) :
  In e service_messages -> e ∈ service_messages.
Proof. apply list_elem_of_In. Qed.

Ltac job_ok_tac :=
  unfold job_ok in *;
  repeat match goal with j : Job |- _ => destruct j end;
  simpl in *;
  repeat match goal with H : _ /\ _ |- _ => destruct H end;
  repeat split; try done; try lia;
  try (intros ? [= <-]; apply service_message_elem; simpl; tauto);
  eauto.

Lemma job_ok_new (videoId inputPath outputPath : string) (now : Z) :
  job_ok (mkJob videoId videoId inputPath outputPath Queued 0 None None
            now now 0).
Proof. job_ok_tac. Qed.

Lemma job_ok_started (now : Z) (j : Job) :
  job_ok j ->
  job_ok (set_progress 10
            (set_updatedAt now (set_progress 0 (set_status Processing j)))).
Proof. intros H. job_ok_tac. Qed.

Lemma job_ok_progress (n : Z) (j : Job) :
  job_ok j -> job_ok (set_progress n j).
Proof. intros H. job_ok_tac. Qed.

Lemma job_ok_completed (now : Z) (result : ProcessingResult) (j : Job) :
  job_ok j ->
  job_ok (set_updatedAt now
            (set_result result (set_status Completed (set_progress 100 j)))).
Proof. intros H. job_ok_tac. Qed.

Lemma job_ok_cancelled (j : Job) :
  job_ok j ->
  job_ok match job_status j with
         | Processing =>
             set_error "Job cancelled by user" (set_status Failed j)
         | _ => j
         end.
Proof.
  intros H. destruct (job_status j) eqn:Hst; try done.
  clear Hst. job_ok_tac.
Qed.

Lemma job_ok_on_failure (now : Z) (error : JsError) (j : Job) :
  job_ok j -> job_ok (on_failure now error j).1.
Proof.
  intros H. unfold on_failure.
  destruct (isProcessingError _).
  - destruct (includes _ "memory" || includes _ "ENOMEM");
      [|destruct (includes _ "timeout" || includes _ "killed")];
      cbn [fst]; job_ok_tac.
  - destruct (job_retries j <? 1)%Z eqn:Hlt; cbn [fst].
    + apply Z.ltb_lt in Hlt. job_ok_tac.
    + job_ok_tac.
Qed.

Lemma size_add_le (videoId : string) (X : gset string) :
  (size ({[videoId]} ∪ X) <= S (size X))%nat.
Proof.
  rewrite size_union_alt, size_singleton.
  assert (size (X ∖ {[videoId]}) <= size X)%nat; [|lia].
  apply subseteq_size. intros x Hx. by apply elem_of_difference in Hx as [? _].
Qed.

Lemma size_remove_le (videoId : string) (X : gset string) :
  (size (X ∖ {[videoId]}) <= size X)%nat.
Proof.
  apply subseteq_size. intros x Hx. by apply elem_of_difference in Hx as [? _].
Qed.

Lemma processNext_ok (C now : Z) (s : JobQueueService) :
  service_ok C s -> service_ok C (processNext now s).
Proof.
  intros Hok. unfold processNext.
  destruct (negb (canAcceptNewJob s) || (length (queue s) =? 0)%nat)
    eqn:Hgate; [done|].
  apply orb_false_elim in Hgate as [Hacc _].
  apply negb_false_iff in Hacc. unfold canAcceptNewJob in Hacc.
  apply Z.ltb_lt in Hacc.
  destruct Hok as (Hmax & Hsize & Hheap & Hinf). rewrite Hmax in Hacc.
  destruct (queue s) as [|videoId rest]; [done|].
  destruct (String.eqb videoId ""); [done|]. simpl.
  destruct (jobs s !! videoId) as [job|]; [|done].
  unfold service_ok. simpl. split; [done|]. split; [|split].
  - pose proof (size_add_le videoId (processing s)). lia.
  - apply Forall_alter; [done|]. intros j _. apply job_ok_started.
  - apply Forall_app. split; [done|].
    constructor; [simpl; lia|constructor].
Qed.

Lemma finally_ok (C : Z) (k : nat) (videoId : string) (s : JobQueueService) :
  service_ok C s -> service_ok C (finally k videoId s).
Proof.
  intros (Hmax & Hsize & Hheap & Hinf). unfold service_ok, finally. simpl.
  split; [done|]. split; [|split; [done|by apply Forall_delete]].
  pose proof (size_remove_le videoId (processing s)). lia.
Qed.

Lemma settle_rejected_ok (C now : Z) (k : nat) (p : Pipeline)
    (error : JsError) (s s' : JobQueueService) :
  service_ok C s ->
  settle_rejected now k p error s = Some s' ->
  service_ok C s'.
Proof.
  intros Hok. unfold settle_rejected.
  destruct (heap s !! p_job p) as [j|] eqn:Hj; [|done]. simpl.
  pose proof (job_ok_on_failure now error j) as Hj'.
  destruct (on_failure now error j) as [j' requeue].
  intros [= <-]. apply finally_ok.
  destruct Hok as (Hmax & Hsize & Hheap & Hinf).
  unfold service_ok. simpl. repeat split; try done.
  apply Forall_insert; [done|]. apply Hj'.
  rewrite List.Forall_forall in Hheap. apply Hheap, list_elem_of_In.
  by eapply list_elem_of_lookup_2.
Qed.

Lemma step_ok (C : Z) (ev : Event) (s s' : JobQueueService) :
  service_ok C s -> step ev s = Some s' -> service_ok C s'.
Proof.
  intros Hok Hstep.
  destruct ev as [videoId inputPath outputPath now | now | k r now
                 | k eng now | videoId | maxAge now]; simpl in Hstep.
  - injection Hstep as <-. unfold addJob. apply processNext_ok.
    destruct Hok as (Hmax & Hsize & Hheap & Hinf).
    unfold service_ok. simpl. repeat split; try done.
    apply Forall_app. split; [done|].
    constructor; [apply job_ok_new|constructor].
  - destruct (timers s) as [|n]; [done|]. injection Hstep as <-.
    by apply processNext_ok.
  - unfold detect_settles in Hstep.
    destruct (inflight s !! k) as [p|] eqn:Hk; [|done]. simpl in Hstep.
    destruct (p_phase p); [|done].
    destruct (detectSilences r) as [error|silences].
    + by eapply settle_rejected_ok.
    + injection Hstep as <-.
      destruct Hok as (Hmax & Hsize & Hheap & Hinf).
      unfold service_ok. simpl. repeat split; try done.
      * apply Forall_alter; [done|]. intros j _. apply job_ok_progress.
      * apply Forall_insert; [done|]. simpl. apply limitSilences_length.
  - unfold remove_settles in Hstep.
    destruct (inflight s !! k) as [p|] eqn:Hk; [|done]. simpl in Hstep.
    destruct (p_phase p) as [|silences]; [done|].
    destruct (heap s !! p_job p) as [j|]; [|done]. simpl in Hstep.
    destruct (removeSilences eng _ _ _).2 as [error|result].
    + by eapply settle_rejected_ok.
    + injection Hstep as <-. apply finally_ok.
      destruct Hok as (Hmax & Hsize & Hheap & Hinf).
      unfold service_ok. simpl. repeat split; try done.
      apply Forall_alter; [done|]. intros j' _. apply job_ok_completed.
  - injection Hstep as <-. unfold cancelJob.
    destruct (jobs s !! videoId) as [job|]; [|done].
    destruct Hok as (Hmax & Hsize & Hheap & Hinf).
    unfold service_ok. simpl. repeat split; try done.
    apply Forall_alter; [done|]. intros j' _. apply job_ok_cancelled.
  - injection Hstep as <-. done.
Qed.

Lemma run_ok (C : Z) (evs : list Event) :
  forall s s', service_ok C s -> run evs s = Some s' -> service_ok C s'.
Proof.
  induction evs as [|ev evs IH]; intros s s' Hok Hrun; simpl in *.
  - by injection Hrun as <-.
  - destruct (step ev s) as [s1|] eqn:Hstep; [|done]. simpl in Hrun.
    eapply IH; [|exact Hrun]. by eapply step_ok.
Qed.

Lemma new_service_ok (C : Z) : service_ok C (new_service C).
Proof.
  unfold service_ok, new_service.
  cbn [maxConcurrentJobs processing heap inflight]. split; [done|].
  split; [rewrite size_empty; lia|]. split; constructor.
Qed.

(** X15.  Whatever happens to the service (submissions of any ID, timers,
    settled promises, cancellations, sweeps), the ceiling it was
    constructed with does not change and the active set never has more
    members than the ceiling (none, for a ceiling below 0). *)
Theorem active_set_within_ceiling (C : Z) (evs : list Event)
    (s : JobQueueService) :
  run evs (new_service C) = Some s ->
  maxConcurrentJobs s = C
  /\ (Z.of_nat (size (processing s)) <= Z.max 0 C)%Z.
Proof.
  intros Hrun.
  destruct (run_ok C evs _ s (new_service_ok C) Hrun) as (H1 & H2 & _).
  done.
Qed.

Lemma active_set_within_ceiling_witness :
  exists s,
    run resubmit_scenario (new_service 2) = Some s
    /\ (Z.of_nat (size (processing s)) <= 2)%Z.
Proof.
  eexists. split; [vm_compute; reflexivity|].
  apply (active_set_within_ceiling 2 resubmit_scenario).
  vm_compute. reflexivity.
Defined.

Lemma NoDup_length_le_size (l : list string) (X : gset string) :
  NoDup l -> (forall x, x ∈ l -> x ∈ X) -> (length l <= size X)%nat.
Proof.
  intros Hnd Hsub. rewrite <- (size_list_to_set (C := gset string) l Hnd).
  apply subseteq_size. intros x Hx. apply Hsub.
  by apply elem_of_list_to_set in Hx.
Qed.

(** X16.  As long as every [addJob] is for an ID that is neither pending
    nor active, the calls of [processNext] that are suspended at an engine
    call are never more than the ceiling: at most that many engine
    processes run for the queue at a time. *)
Theorem pipelines_within_ceiling (C : Z) (evs : list Event)
    (s : JobQueueService) :
  guarded evs (new_service C) ->
  run evs (new_service C) = Some s ->
  (Z.of_nat (length (inflight s)) <= Z.max 0 C)%Z.
Proof.
  intros Hg Hrun.
  destruct (run_ok C evs _ s (new_service_ok C) Hrun) as (_ & Hsize & _).
  destruct (run_inv evs _ s (new_service_inv C) Hg Hrun)
    as (_ & _ & Hids & Hact).
  pose proof (NoDup_length_le_size _ _ Hids Hact) as Hlen.
  unfold inflight_ids in Hlen. rewrite length_fmap in Hlen. lia.
Qed.

Lemma pipelines_within_ceiling_witness :
  exists s,
    run retry_scenario (new_service 2) = Some s
    /\ (Z.of_nat (length (inflight s)) <= 2)%Z.
Proof.
  eexists. split; [vm_compute; reflexivity|].
  apply (pipelines_within_ceiling 2 retry_scenario).
  - split; [split; [apply not_elem_of_nil | apply not_elem_of_empty]|].
    vm_compute. tauto.
  - vm_compute. reflexivity.
Defined.

Lemma on_failure_videoId (now : Z) (error : JsError) (j : Job) :
  job_videoId (on_failure now error j).1 = job_videoId j.
Proof.
  unfold on_failure.
  destruct (isProcessingError _).
  - destruct (includes _ "memory" || includes _ "ENOMEM");
      [|destruct (includes _ "timeout" || includes _ "killed")]; done.
  - destruct (job_retries j <? 1)%Z; done.
Qed.

Lemma records_ok_alter (f : Job -> Job) (r : nat) (h : list Job)
    (m : gmap string nat) :
  (forall x, job_videoId (f x) = job_videoId x) ->
  (forall videoId ref, m !! videoId = Some ref ->
     exists j, h !! ref = Some j /\ job_videoId j = videoId) ->
  forall videoId ref, m !! videoId = Some ref ->
    exists j, alter f r h !! ref = Some j /\ job_videoId j = videoId.
Proof.
  intros Hf Hrec videoId ref Hm.
  destruct (Hrec videoId ref Hm) as (j & Hj & Hid).
  rewrite list_lookup_alter. destruct (decide (r = ref)) as [->|_].
  - rewrite Hj. simpl. exists (f j). by rewrite Hf.
  - by exists j.
Qed.

Lemma processNext_records (now : Z) (s : JobQueueService) :
  records_ok s -> records_ok (processNext now s).
Proof.
  intros Hrec. unfold processNext.
  destruct (negb (canAcceptNewJob s) || (length (queue s) =? 0)%nat);
    [done|].
  destruct (queue s) as [|videoId rest]; [done|].
  destruct (String.eqb videoId ""); [done|]. simpl.
  destruct (jobs s !! videoId) as [job|]; [|done].
  unfold records_ok. simpl. by apply records_ok_alter.
Qed.

Lemma settle_rejected_records (now : Z) (k : nat) (p : Pipeline)
    (error : JsError) (s s' : JobQueueService) :
  records_ok s ->
  settle_rejected now k p error s = Some s' ->
  records_ok s'.
Proof.
  intros Hrec. unfold settle_rejected.
  destruct (heap s !! p_job p) as [j|] eqn:Hj; [|done]. simpl.
  pose proof (on_failure_videoId now error j) as Hid.
  destruct (on_failure now error j) as [j' requeue]. simpl in Hid.
  intros [= <-]. unfold records_ok, finally. simpl.
  intros videoId ref Hm. destruct (Hrec videoId ref Hm) as (x & Hx & Hxid).
  destruct (decide (p_job p = ref)) as [<-|Hne].
  - exists j'. rewrite list_lookup_insert_eq by (by eapply lookup_lt_Some).
    split; [done|]. congruence.
  - exists x. by rewrite list_lookup_insert_ne.
Qed.

Lemma step_records (ev : Event) (s s' : JobQueueService) :
  records_ok s -> step ev s = Some s' -> records_ok s'.
Proof.
  intros Hrec Hstep.
  destruct ev as [videoId inputPath outputPath now | now | k r now
                 | k eng now | videoId | maxAge now]; simpl in Hstep.
  - injection Hstep as <-. unfold addJob. apply processNext_records.
    unfold records_ok. simpl. intros v ref.
    destruct (decide (videoId = v)) as [->|Hne].
    + rewrite lookup_insert_eq. intros [= <-]. eexists.
      split; [by apply list_lookup_middle|done].
    + rewrite lookup_insert_ne by done. intros Hm.
      destruct (Hrec v ref Hm) as (j & Hj & Hid). exists j.
      split; [|done]. rewrite lookup_app_l; [done|].
      by eapply lookup_lt_Some.
  - destruct (timers s) as [|n]; [done|]. injection Hstep as <-.
    by apply processNext_records.
  - unfold detect_settles in Hstep.
    destruct (inflight s !! k) as [p|] eqn:Hk; [|done]. simpl in Hstep.
    destruct (p_phase p); [|done].
    destruct (detectSilences r) as [error|silences].
    + by eapply settle_rejected_records.
    + injection Hstep as <-. unfold records_ok. simpl.
      by apply records_ok_alter.
  - unfold remove_settles in Hstep.
    destruct (inflight s !! k) as [p|] eqn:Hk; [|done]. simpl in Hstep.
    destruct (p_phase p) as [|silences]; [done|].
    destruct (heap s !! p_job p) as [j|]; [|done]. simpl in Hstep.
    destruct (removeSilences eng _ _ _).2 as [error|result].
    + by eapply settle_rejected_records.
    + injection Hstep as <-. unfold records_ok, finally. simpl.
      by apply records_ok_alter.
  - injection Hstep as <-. unfold cancelJob.
    destruct (jobs s !! videoId) as [job|]; [|done].
    unfold records_ok. simpl. apply records_ok_alter.
    + intros x. by destruct (job_status x).
    + intros v ref Hm. apply lookup_delete_Some in Hm as [_ Hm].
      by apply Hrec.
  - injection Hstep as <-. unfold records_ok. simpl. intros v ref Hm.
    apply map_lookup_filter_Some in Hm as [Hm _]. by apply Hrec.
Qed.

Lemma run_records (evs : list Event) :
  forall s s', records_ok s -> run evs s = Some s' -> records_ok s'.
Proof.
  induction evs as [|ev evs IH]; intros s s' Hok Hrun; simpl in *.
  - by injection Hrun as <-.
  - destruct (step ev s) as [s1|] eqn:Hstep; [|done]. simpl in Hrun.
    eapply IH; [|exact Hrun]. by eapply step_records.
Qed.

Lemma new_service_records (C : Z) : records_ok (new_service C).
Proof. intros videoId ref Hm. done. Qed.

Lemma getJob_ok (C : Z) (s : JobQueueService) (videoId : string) (j : Job) :
  service_ok C s -> getJob videoId s = Some j -> job_ok j.
Proof.
  intros (_ & _ & Hheap & _). unfold getJob.
  destruct (jobs s !! videoId) as [ref|]; [|done]. simpl. intros Hj.
  by eapply Forall_lookup_1.
Qed.

(** X17.  What [getJobStatus] reports, in every state the service can
    reach.  It is [null] exactly for an ID that has no record.  Otherwise
    the report names the ID asked for; a completed job comes with its
    result, a failed job with an error text, and an error text is always
    one of the five texts that the service writes itself, never the raw
    text of an engine error. *)
Theorem status_report_consistent (C : Z) (evs : list Event)
    (s : JobQueueService) (videoId : string) :
  run evs (new_service C) = Some s ->
  (getJobStatus videoId s = None <-> jobs s !! videoId = None)
  /\ (forall st,
        getJobStatus videoId s = Some st ->
        js_videoId st = videoId
        /\ (js_status st = Completed -> is_Some (js_result st))
        /\ (js_status st = Failed -> is_Some (js_error st))
        /\ (forall e, js_error st = Some e -> e ∈ service_messages)).
Proof.
  intros Hrun.
  pose proof (run_ok C evs _ s (new_service_ok C) Hrun) as Hok.
  pose proof (run_records evs _ s (new_service_records C) Hrun) as Hrec.
  split.
  - unfold getJobStatus, getJob.
    destruct (jobs s !! videoId) as [ref|] eqn:Hm; [|done]. simpl.
    destruct (Hrec videoId ref Hm) as (j & -> & _). done.
  - intros st. unfold getJobStatus.
    destruct (getJob videoId s) as [j|] eqn:Hj; [|done]. simpl.
    intros [= <-]. simpl.
    pose proof (getJob_ok C s videoId j Hok Hj) as (_ & H2 & H3 & H4 & _).
    split; [|done]. unfold getJob in Hj.
    destruct (jobs s !! videoId) as [ref|] eqn:Hm; [|done]. simpl in Hj.
    destruct (Hrec videoId ref Hm) as (j' & Hj' & Hid). congruence.
Qed.

Lemma status_report_consistent_witness :
  exists s,
    run retry_scenario (new_service 2) = Some s
    /\ (getJobStatus "b" s = None <-> jobs s !! "b" = None).
Proof.
  eexists. split; [vm_compute; reflexivity|].
  apply (status_report_consistent 2 retry_scenario).
  vm_compute. reflexivity.
Defined.

(** X18.  No Job object is ever retried more than once: in every state the
    service can reach, the retry count of every Job object it has created
    is 0 or 1. *)
Theorem retries_at_most_one (C : Z) (evs : list Event) (s : JobQueueService)
    (ref : nat) (j : Job) :
  run evs (new_service C) = Some s ->
  heap s !! ref = Some j ->
  (0 <= job_retries j <= 1)%Z.
Proof.
  intros Hrun Hj.
  destruct (run_ok C evs _ s (new_service_ok C) Hrun) as (_ & _ & Hheap & _).
  by destruct (Forall_lookup_1 _ _ _ _ Hheap Hj) as [H _].
Qed.

Lemma retries_at_most_one_witness :
  exists s j,
    run retry_scenario (new_service 2) = Some s
    /\ heap s !! 0%nat = Some j
    /\ (0 <= job_retries j <= 1)%Z.
Proof.
  eexists _, _. split; [vm_compute; reflexivity|].
  split; [vm_compute; reflexivity|].
  eapply (retries_at_most_one 2 retry_scenario _ 0%nat);
    vm_compute; reflexivity.
Defined.

(** X19.  [removeSilences] is never called with more than 10 silences: in
    every state the service can reach, a call of [processNext] that is
    suspended at [removeSilences] holds at most 10 silences, so that, for
    any duration, the re-encoding it may start gets at most 11 segments. *)
Theorem removal_work_is_bounded (C : Z) (evs : list Event)
    (s : JobQueueService) (k : nat) (p : Pipeline) (totalDuration : Q) :
  run evs (new_service C) = Some s ->
  inflight s !! k = Some p ->
  (length (phase_silences (p_phase p)) <= 10)%nat
  /\ (length (buildKeepSegments (phase_silences (p_phase p)) totalDuration)
      <= 11)%nat.
Proof.
  intros Hrun Hk.
  destruct (run_ok C evs _ s (new_service_ok C) Hrun) as (_ & _ & _ & Hinf).
  pose proof (Forall_lookup_1 _ _ _ _ Hinf Hk) as Hlen. simpl in Hlen.
  split; [done|].
  unfold buildKeepSegments.
  destruct (keep_loop_well_formed (phase_silences (p_phase p)) 0)
    as [_ Hl].
  destruct (keep_loop _ 0 []) as [e segs]. cbn [snd] in *.
  destruct (Qltb e _); [rewrite length_app; simpl|]; lia.
Qed.

Lemma removal_work_is_bounded_witness :
  exists s p,
    run detect_ok_scenario (new_service 2) = Some s
    /\ inflight s !! 0%nat = Some p
    /\ (length (phase_silences (p_phase p)) <= 10)%nat.
Proof.
  eexists _, _. split; [vm_compute; reflexivity|].
  split; [vm_compute; reflexivity|].
  eapply (removal_work_is_bounded 2 detect_ok_scenario _ 0%nat _ 10);
    vm_compute; reflexivity.
Defined.

(** ** addJob, cancelJob and the records *)

Lemma processNext_jobs (now : Z) (s : JobQueueService) :
  jobs (processNext now s) = jobs s.
Proof.
  unfold processNext.
  destruct (negb (canAcceptNewJob s) || (length (queue s) =? 0)%nat);
    [done|].
  destruct (queue s) as [|videoId rest]; [done|].
  destruct (String.eqb videoId ""); [done|]. simpl.
  by destruct (jobs s !! videoId).
Qed.

Lemma processNext_heap_at (now : Z) (s : JobQueueService) (ref : nat)
    (j : Job) :
  heap s !! ref = Some j ->
  heap (processNext now s) !! ref = Some j
  \/ heap (processNext now s) !! ref
     = Some (set_progress 10
               (set_updatedAt now
                  (set_progress 0 (set_status Processing j)))).
Proof.
  intros Hj. unfold processNext.
  destruct (negb (canAcceptNewJob s) || (length (queue s) =? 0)%nat);
    [by left|].
  destruct (queue s) as [|videoId rest]; [by left|].
  destruct (String.eqb videoId ""); [by left|]. simpl.
  destruct (jobs s !! videoId) as [r|]; [|by left]. simpl.
  rewrite list_lookup_alter. destruct (decide (r = ref)) as [->|_].
  - right. by rewrite Hj.
  - by left.
Qed.

(** X20.  Right after [addJob], in whatever state it is called,
    [getJobStatus] of the new ID is not [null]: it names the ID, has no
    error and no result, and the job is either queued with progress 0 or
    already processing with progress 10, with the message of that state. *)
Theorem addJob_is_reported (videoId inputPath outputPath : string) (now : Z)
    (s : JobQueueService) :
  exists st,
    getJobStatus videoId (addJob videoId inputPath outputPath now s)
    = Some st
    /\ js_videoId st = videoId
    /\ js_error st = None /\ js_result st = None
    /\ js_createdAt st = now
    /\ ((js_status st = Queued /\ js_progress st = 0%Z
         /\ js_message st = "Vidéo en file d'attente...")
        \/ (js_status st = Processing /\ js_progress st = 10%Z
            /\ js_message st = "Détection des silences en cours...")).
Proof.
  unfold getJobStatus, getJob, addJob.
  rewrite processNext_jobs. simpl. rewrite lookup_insert_eq. simpl.
  match goal with |- context [processNext now ?s1] =>
    destruct (processNext_heap_at now s1 (length (heap s))
                (mkJob videoId videoId inputPath outputPath Queued 0 None
                   None now now 0)) as [-> | ->]
  end.
  - simpl. by apply list_lookup_middle.
  - simpl. eexists. split; [done|]. repeat split; try done. by left.
  - simpl. eexists. split; [done|]. repeat split; try done. by right.
Qed.

Lemma remove_first_notin (videoId : string) (q : list string) :
  NoDup q -> videoId ∉ remove_first videoId q.
Proof.
  induction q as [|x q IH]; intros Hnd; simpl; [apply not_elem_of_nil|].
  apply NoDup_cons in Hnd as [Hx Hnd].
  destruct (String.eqb_spec x videoId) as [->|Hne]; [done|].
  apply not_elem_of_cons. split; [done|by apply IH].
Qed.

Lemma remove_first_absent (videoId : string) (q : list string) :
  videoId ∉ q -> remove_first videoId q = q.
Proof.
  induction q as [|x q IH]; intros Hq; simpl; [done|].
  apply not_elem_of_cons in Hq as [Hne Hq].
  destruct (String.eqb_spec x videoId) as [->|_]; [done|].
  by rewrite IH.
Qed.

(** X21.  [cancelJob] forgets the job and nothing more.  Afterwards
    [getJobStatus] of the ID is [null] and the records of other IDs are as
    before; the active set and the suspended calls are untouched, so a
    cancelled job that is running keeps its slot and [canAcceptNewJob]
    answers as before.  Only the first occurrence of the ID leaves the
    pending queue, which removes the ID when the queue has no duplicates.
    For an ID without a record [cancelJob] does nothing at all, even if
    the ID is pending. *)
Theorem cancelJob_forgets (videoId : string) (s : JobQueueService) :
  let s' := cancelJob videoId s in
  getJobStatus videoId s' = None
  /\ (forall other, other <> videoId -> jobs s' !! other = jobs s !! other)
  /\ processing s' = processing s
  /\ inflight s' = inflight s
  /\ canAcceptNewJob s' = canAcceptNewJob s
  /\ (is_Some (jobs s !! videoId) -> NoDup (queue s) -> videoId ∉ queue s')
  /\ (jobs s !! videoId = None -> s' = s).
Proof.
  cbn zeta. unfold cancelJob, getJobStatus, getJob, canAcceptNewJob.
  destruct (jobs s !! videoId) as [job|] eqn:Hm.
  - simpl. rewrite lookup_delete_eq. simpl.
    split; [done|]. split; [|split; [done|split; [done|split; [done|]]]].
    + intros other Hne. by rewrite lookup_delete_ne.
    + split; [|done]. intros _ Hnd. apply remove_first_notin, Hnd.
  - rewrite Hm. simpl. repeat split; try done.
Qed.

Lemma settle_rejected_jobs (now : Z) (k : nat) (p : Pipeline)
    (error : JsError) (s s' : JobQueueService) :
  settle_rejected now k p error s = Some s' -> jobs s' = jobs s.
Proof.
  unfold settle_rejected.
  destruct (heap s !! p_job p) as [j|]; [|done]. simpl.
  destruct (on_failure now error j) as [j' requeue]. by intros [= <-].
Qed.

(** X22.  Records come and go in three ways only.  A step that gives an
    ID a record it did not have is an [addJob] of that ID; a step that
    takes the record of an ID away is a [cancelJob] of that ID or a
    [clearOldJobs].  In particular the pipeline of a cancelled job, which
    keeps running, never brings the record back. *)
Theorem records_change_only_by (ev : Event) (s s' : JobQueueService)
    (videoId : string) :
  step ev s = Some s' ->
  (jobs s !! videoId = None -> is_Some (jobs s' !! videoId) ->
   exists inputPath outputPath now,
     ev = EvAddJob videoId inputPath outputPath now)
  /\ (is_Some (jobs s !! videoId) -> jobs s' !! videoId = None ->
      ev = EvCancelJob videoId
      \/ exists maxAgeMinutes now, ev = EvClearOldJobs maxAgeMinutes now).
Proof.
  intros Hstep.
  assert (jobs s' = jobs s ->
          (jobs s !! videoId = None -> is_Some (jobs s' !! videoId) ->
           exists inputPath outputPath now,
             ev = EvAddJob videoId inputPath outputPath now)
          /\ (is_Some (jobs s !! videoId) -> jobs s' !! videoId = None ->
              ev = EvCancelJob videoId
              \/ exists maxAgeMinutes now,
                   ev = EvClearOldJobs maxAgeMinutes now)) as Hsame.
  { intros ->. split.
    - intros -> [? ?]. done.
    - intros [? ->]. done. }
  destruct ev as [v inputPath outputPath now | now | k r now
                 | k eng now | v | maxAge now]; simpl in Hstep.
  - injection Hstep as <-. unfold addJob. rewrite processNext_jobs. simpl.
    destruct (decide (v = videoId)) as [->|Hne].
    + split; [by eauto|]. rewrite lookup_insert_eq. done.
    + rewrite lookup_insert_ne by done. split.
      * intros -> [? ?]. done.
      * intros [? ->]. done.
  - destruct (timers s) as [|n]; [done|]. injection Hstep as <-.
    apply Hsame. by rewrite processNext_jobs.
  - apply Hsame. unfold detect_settles in Hstep.
    destruct (inflight s !! k) as [p|]; [|done]. simpl in Hstep.
    destruct (p_phase p); [|done].
    destruct (detectSilences r).
    + by eapply settle_rejected_jobs.
    + by injection Hstep as <-.
  - apply Hsame. unfold remove_settles in Hstep.
    destruct (inflight s !! k) as [p|]; [|done]. simpl in Hstep.
    destruct (p_phase p); [done|].
    destruct (heap s !! p_job p) as [j|]; [|done]. simpl in Hstep.
    destruct (removeSilences eng _ _ _).2.
    + by eapply settle_rejected_jobs.
    + by injection Hstep as <-.
  - injection Hstep as <-.
    destruct (jobs s !! v) as [job|] eqn:Hv;
      [|apply Hsame; unfold cancelJob; by rewrite Hv].
    clear Hsame. unfold cancelJob. rewrite Hv. simpl.
    destruct (decide (v = videoId)) as [->|Hne].
    + split; [|by left]. rewrite lookup_delete_eq. by intros _ [? ?].
    + rewrite lookup_delete_ne by done. split.
      * intros -> [? ?]. done.
      * intros [? ->]. done.
  - injection Hstep as <-. simpl. split; [|by eauto].
    intros Hnone [ref Hm]. apply map_lookup_filter_Some in Hm as [Hm _].
    congruence.
Qed.

Lemma records_change_only_by_witness :
  EvCancelJob "a" = EvCancelJob "a"
  \/ exists maxAgeMinutes now,
       EvCancelJob "a" = EvClearOldJobs maxAgeMinutes now.
Proof.
  destruct (records_change_only_by (EvCancelJob "a") example_running
              (cancelJob "a" example_running) "a" eq_refl) as [_ H].
  apply H.
  - vm_compute. eauto.
  - vm_compute. reflexivity.
Defined.

(** ** clearOldJobs *)

(** X23.  [clearOldJobs] touches the records only, and only old finished
    ones.  The Job objects, the pending queue, the active set and the
    suspended calls stay as they are; every record that remains was there
    before; the record of a queued or processing job always remains,
    whatever its age; a record that goes belonged to a completed or failed
    job whose age in minutes is above [maxAgeMinutes]; and the number
    returned is the number of records that went. *)
Theorem clearOldJobs_spares_active (maxAgeMinutes : Q) (now : Z)
    (s : JobQueueService) :
  let s' := (clearOldJobs maxAgeMinutes now s).1 in
  (heap s' = heap s /\ queue s' = queue s /\ processing s' = processing s
   /\ inflight s' = inflight s)
  /\ (forall videoId ref,
        jobs s' !! videoId = Some ref -> jobs s !! videoId = Some ref)
  /\ (forall videoId ref j,
        jobs s !! videoId = Some ref -> heap s !! ref = Some j ->
        job_status j = Queued \/ job_status j = Processing ->
        jobs s' !! videoId = Some ref)
  /\ (forall videoId ref,
        jobs s !! videoId = Some ref -> jobs s' !! videoId = None ->
        exists j,
          heap s !! ref = Some j
          /\ (job_status j = Completed \/ job_status j = Failed)
          /\ (maxAgeMinutes
              < inject_Z (now - job_updatedAt j) / 1000 / 60)%Q)
  /\ size (jobs s) = (size (jobs s') + (clearOldJobs maxAgeMinutes now s).2)%nat.
Proof.
  cbn zeta. unfold clearOldJobs. cbn [fst snd jobs heap queue processing
                                      inflight].
  split; [done|]. split; [|split; [|split]].
  - intros videoId ref Hm. by apply map_lookup_filter_Some in Hm as [Hm _].
  - intros videoId ref j Hm Hj Hst. apply map_lookup_filter_Some.
    split; [done|]. simpl. unfold is_old. rewrite Hj.
    by destruct Hst as [-> | ->].
  - intros videoId ref Hm Hnone.
    destruct (is_old s maxAgeMinutes now ref) eqn:Hold.
    + unfold is_old in Hold.
      destruct (heap s !! ref) as [j|]; [|done]. exists j.
      split; [done|].
      destruct (job_status j); try done;
        (split; [tauto|by apply Qltb_lt]).
    + assert (filter (fun entry : string * nat =>
                        is_old s maxAgeMinutes now entry.2 = false)
                (jobs s) !! videoId = Some ref) as Hkept.
      { by apply map_lookup_filter_Some. }
      congruence.
  - pose proof (map_subseteq_size _ _
                  (map_filter_subseteq
                     (fun entry : string * nat =>
                        is_old s maxAgeMinutes now entry.2 = false)
                     (jobs s))).
    lia.
Qed.

(** ** checkCPULoad *)

(** X24.  When [/proc/loadavg] cannot be read, the load that
    [checkCPULoad] estimates from the active set is between 0 and 100, in
    every state that a service with a ceiling above 0 can reach. *)
Theorem fallback_load_in_range (C : Z) (evs : list Event)
    (s : JobQueueService) :
  (0 < C)%Z ->
  run evs (new_service C) = Some s ->
  (0 <= checkCPULoad None s)%Q /\ (checkCPULoad None s <= 100)%Q.
Proof.
  intros HC Hrun.
  destruct (run_ok C evs _ s (new_service_ok C) Hrun) as (Hmax & Hsize & _).
  unfold checkCPULoad. rewrite Hmax.
  set (n := Z.of_nat (size (processing s))) in *.
  assert (0 <= n)%Z as Hn by (unfold n; lia).
  assert (n <= C)%Z as HnC by lia.
  assert (0 < inject_Z C)%Q as HCq.
  { change 0%Q with (inject_Z 0). by rewrite <- Zlt_Qlt. }
  assert (0 <= inject_Z n)%Q as Hnq.
  { change 0%Q with (inject_Z 0). by rewrite <- Zle_Qle. }
  assert (inject_Z n <= inject_Z C)%Q as HnCq by (by rewrite <- Zle_Qle).
  assert (0 <= inject_Z n / inject_Z C)%Q as H0.
  { apply Qle_shift_div_l; [done|]. lra. }
  assert (inject_Z n / inject_Z C <= 1)%Q as H1.
  { apply Qle_shift_div_r; [done|]. lra. }
  split; lra.
Qed.

Lemma fallback_load_in_range_witness :
  exists s,
    run resubmit_scenario (new_service 2) = Some s
    /\ (checkCPULoad None s <= 100)%Q.
Proof.
  eexists. split; [vm_compute; reflexivity|].
  apply (fallback_load_in_range 2 resubmit_scenario); [lia|].
  vm_compute. reflexivity.
Defined.

(** ** getFilePath and validateVideo *)

(** X25.  [getFilePath] answers with the [.mp4] or the [.mov] candidate
    of the ID (with [_cut] before the extension for a processed file).  It
    answers with a path that exists whenever one of the two exists, with
    the [.mp4] one when that exists, and with the [.mp4] one when neither
    does. *)
Theorem getFilePath_prefers_existing (join : string -> string -> string)
    (existsSync : string -> bool) (storagePath uuid : string)
    (type : FileType) :
  let base := uuid +:+ match type with processed => "_cut" | original => "" end in
  let mp4 := join storagePath (base +:+ ".mp4") in
  let mov := join storagePath (base +:+ ".mov") in
  let answer := getFilePath join existsSync storagePath uuid type in
  (answer = mp4 \/ answer = mov)
  /\ (existsSync mp4 = true \/ existsSync mov = true ->
      existsSync answer = true)
  /\ (existsSync mp4 = true -> answer = mp4)
  /\ (existsSync answer = false -> answer = mp4).
Proof.
  cbn zeta. unfold getFilePath. cbn [first_existing].
  change ("." +:+ "mp4") with ".mp4". change ("." +:+ "mov") with ".mov".
  destruct (existsSync (join storagePath (_ +:+ ".mp4"))) eqn:Hmp4.
  - intuition congruence.
  - destruct (existsSync (join storagePath (_ +:+ ".mov"))) eqn:Hmov;
      intuition congruence.
Qed.

(** X26.  [validateVideo] answers valid exactly when it lists no error,
    and that is exactly when the metadata could be read, the codec is
    [h264] and the duration is not above the maximum.  It lists at most
    two errors, and exactly one when the metadata could not be read. *)
Theorem validateVideo_valid_iff (show_number : Q -> string) (maxDuration : Q)
    (metadata : JsError + VideoMetadata) :
  let result := validateVideo show_number maxDuration metadata in
  (vr_valid result = true <-> vr_errors result = [])
  /\ (vr_valid result = true
      <-> exists m, metadata = inr m /\ vm_codec m = "h264"
                    /\ (vm_duration m <= maxDuration)%Q)
  /\ (length (vr_errors result) <= 2)%nat
  /\ (forall error, metadata = inl error ->
        vr_errors result
        = ["Failed to validate video: " +:+ err_message error]).
Proof.
  cbn zeta. unfold validateVideo.
  destruct metadata as [error|m].
  - simpl. repeat split; try done; try lia.
    + by intros (m & ? & _).
    + by intros e [= ->].
  - destruct (String.eqb_spec (vm_codec m) "h264") as [Hcodec|Hcodec];
      destruct (Qltb maxDuration (vm_duration m)) eqn:Hdur; simpl;
      try (apply Qltb_lt in Hdur); try (apply Qltb_ge in Hdur);
      (split; [done|]); (split; [|split; [lia|done]]).
    + split; [done|]. intros (m' & [= <-] & _ & Hle). lra.
    + split; [|done]. intros _. by exists m.
    + split; [done|]. by intros (m' & [= <-] & Hc & _).
    + split; [done|]. by intros (m' & [= <-] & Hc & _).
Qed.

(** ** A job from start to end *)

(** X27.  The successful pipeline of one job.  From a state in which the
    call [k] of [processNext] waits for the detection of a job: when the
    detection resolves, the job is at progress 50 with its status
    unchanged and the call waits for [removeSilences] with the merged and
    capped silences; when that resolves with [result], the job is
    completed at progress 100 with [result], its ID has left the active
    set, the call is over, one timer more is pending, and the pending queue
    and the records are as they were. *)
Theorem pipeline_completes (k : nat) (p : Pipeline) (s : JobQueueService)
    (j : Job) (detection : DetectRun) (silences : list SilenceInterval)
    (eng : Engine) (result : ProcessingResult) (now1 now2 : Z) :
  inflight s !! k = Some p ->
  p_phase p = Detecting ->
  heap s !! p_job p = Some j ->
  detectSilences detection = inr silences ->
  (removeSilences eng (job_inputPath j) (job_outputPath j)
     (limitSilences (mergeSilences silences 2))).2 = inr result ->
  exists s1 s2 j1 j2,
    detect_settles k detection now1 s = Some s1
    /\ heap s1 !! p_job p = Some j1
    /\ job_progress j1 = 50%Z /\ job_status j1 = job_status j
    /\ inflight s1 !! k
       = Some (mkPipeline (p_videoId p) (p_job p)
                 (Removing (limitSilences (mergeSilences silences 2))))
    /\ remove_settles k eng now2 s1 = Some s2
    /\ heap s2 !! p_job p = Some j2
    /\ job_status j2 = Completed /\ job_progress j2 = 100%Z
    /\ job_result j2 = Some result
    /\ processing s2 = processing s ∖ {[p_videoId p]}
    /\ inflight s2 = delete k (inflight s)
    /\ timers s2 = S (timers s)
    /\ queue s2 = queue s /\ jobs s2 = jobs s.
Proof.
  intros Hk Hphase Hj Hdet Hrem.
  pose proof (lookup_lt_Some _ _ _ Hk) as Hklt.
  pose proof (lookup_lt_Some _ _ _ Hj) as Hjlt.
  unfold detect_settles. rewrite Hk. simpl. rewrite Hphase, Hdet.
  eexists _, _, (set_progress 50 j), _. split; [done|].
  split; [simpl; by rewrite list_lookup_alter_eq, Hj|].
  split; [done|]. split; [done|].
  split; [simpl; by apply list_lookup_insert_eq|].
  unfold remove_settles. simpl.
  rewrite list_lookup_insert_eq by done. simpl.
  rewrite list_lookup_alter_eq, Hj. simpl. rewrite Hrem.
  split; [done|]. simpl.
  split; [by rewrite list_lookup_alter_eq, list_lookup_alter_eq, Hj|].
  repeat split; try done.
  clear. revert k. induction (inflight s) as [|x l IH]; intros [|k];
    simpl; try done. by rewrite IH.
Qed.

Lemma pipeline_completes_witness :
  exists s1 s2,
    detect_settles 0 (DetectClosed (Some 0%Z) "" [1; 5]%Q [2; 7]%Q) 1
      example_running = Some s1
    /\ remove_settles 0 example_engine 2 s1 = Some s2.
Proof.
  destruct (pipeline_completes 0 example_pipeline example_running
              (mkJob "a" "a" "/tmp/videos/a.mp4" "/tmp/videos/a_cut.mp4"
                 Processing 10 None None 0 0 0)
              (DetectClosed (Some 0%Z) "" [1; 5]%Q [2; 7]%Q)
              (pair_silences [1; 5]%Q [2; 7]%Q)
              example_engine
              (mkResult "/tmp/videos/a_cut.mp4" 10 10 0 0 2) 1 2)
    as (s1 & s2 & j1 & j2 & H1 & _ & _ & _ & _ & H2 & _);
    try (vm_compute; reflexivity).
  exists s1, s2. split; [exact H1 | exact H2].
Defined.

Lemma step_absent (ev : Event) (s s' : JobQueueService) (videoId : string) :
  not_addJob_of videoId ev ->
  step ev s = Some s' ->
  jobs s !! videoId = None ->
  jobs s' !! videoId = None.
Proof.
  intros Hev Hstep Hnone.
  destruct ev as [v inputPath outputPath now | now | k r now
                 | k eng now | v | maxAge now]; simpl in Hstep, Hev.
  - injection Hstep as <-. unfold addJob. rewrite processNext_jobs. simpl.
    by rewrite lookup_insert_ne.
  - destruct (timers s) as [|n]; [done|]. injection Hstep as <-.
    by rewrite processNext_jobs.
  - unfold detect_settles in Hstep.
    destruct (inflight s !! k) as [p|]; [|done]. simpl in Hstep.
    destruct (p_phase p); [|done].
    destruct (detectSilences r).
    + by rewrite (settle_rejected_jobs _ _ _ _ _ _ Hstep).
    + by injection Hstep as <-.
  - unfold remove_settles in Hstep.
    destruct (inflight s !! k) as [p|]; [|done]. simpl in Hstep.
    destruct (p_phase p); [done|].
    destruct (heap s !! p_job p) as [j|]; [|done]. simpl in Hstep.
    destruct (removeSilences eng _ _ _).2.
    + by rewrite (settle_rejected_jobs _ _ _ _ _ _ Hstep).
    + by injection Hstep as <-.
  - injection Hstep as <-. unfold cancelJob.
    destruct (jobs s !! v) as [job|]; [|done]. simpl.
    apply lookup_delete_None. by right.
  - injection Hstep as <-. simpl. apply map_lookup_filter_None. by left.
Qed.

(** X28.  A cancelled job stays forgotten.  From a state in which an ID
    has no record, for instance right after [cancelJob], [getJobStatus] of
    that ID is [null] after any further events that are not an [addJob] of
    the ID, although the pipeline of the cancelled job goes on and may
    even put the ID back into the pending queue. *)
Theorem cancelled_stays_forgotten (videoId : string) (evs : list Event) :
  forall s s',
    jobs s !! videoId = None ->
    Forall (not_addJob_of videoId) evs ->
    run evs s = Some s' ->
    getJobStatus videoId s' = None.
Proof.
  induction evs as [|ev evs IH]; intros s s' Hnone Hevs Hrun; simpl in Hrun.
  - injection Hrun as <-. unfold getJobStatus, getJob. by rewrite Hnone.
  - apply Forall_cons in Hevs as [Hev Hevs].
    destruct (step ev s) as [s1|] eqn:Hstep; [|done]. simpl in Hrun.
    apply (IH s1 s'); [|done|done]. by eapply step_absent.
Qed.

Lemma cancelled_stays_forgotten_witness :
  exists s',
    run cancel_scenario (cancelJob "a" example_running) = Some s'
    /\ queue s' = []
    /\ getJobStatus "a" s' = None.
Proof.
  eexists. split; [vm_compute; reflexivity|]. split; [reflexivity|].
  apply (cancelled_stays_forgotten "a" cancel_scenario
           (cancelJob "a" example_running)).
  - vm_compute. reflexivity.
  - repeat constructor.
  - vm_compute. reflexivity.
Defined.
